(** * The recommendation engine of the meeting scheduler

    A shallow embedding of [services.RecommendationService.GetRecommendations]
    (services/services.go) together with the parts of [models] and
    [repository] it reads, and the properties of the engine.

    Conventions of the embedding:
    - a [time.Time] is an instant, counted in nanoseconds ([Z]);
    - a [time.Duration] is a signed 64-bit count of nanoseconds: products wrap
      around ([wrap64]) and [Time.Sub] saturates, as in Go;
    - a finite [float64] is the rational it denotes ([Q]). The percentage of
      a recommendation is computed as in binary64, each operation rounded to
      the nearest number of 53 significant bits, ties to even ([float64]);
      the minutes of a slot's length are taken exactly: rounding is not
      modelled there;
    - [uint] identifiers are [N], Go slices are lists, the Go map is a [gmap];
    - the three repositories are interfaces in the source and type classes
      here; [sort.Slice] belongs to the Go library and is a parameter of the
      engine, of which the properties use the library's promise only. The
      library's own implementation is embedded as well ([GoSort.Slice]) and
      is proved to keep that promise;
    - the services that write and the handlers of [controllers] pass the
      database along: a handler is a function of what it reads of its
      [*gin.Context] and of the database, to its one response and the
      database it leaves. *)

From Stdlib Require Import ZArith QArith Qround Qpower Lia Lqa.
From stdpp Require Import base numbers list gmap strings sorting.

Local Open Scope Z_scope.

(** ** Package [time] *)

Module GoTime.

Definition Time := Z.
Definition Duration := Z.

Definition minDuration : Duration := - 2 ^ 63.
Definition maxDuration : Duration := 2 ^ 63 - 1.

(** Two's complement reduction of an integer to 64 bits. *)
Definition wrap64 (x : Z) : Z := (x + 2 ^ 63) mod 2 ^ 64 - 2 ^ 63.

Definition Nanosecond : Duration := 1.
Definition Microsecond : Duration := 1000 * Nanosecond.
Definition Millisecond : Duration := 1000 * Microsecond.
Definition Second : Duration := 1000 * Millisecond.
Definition Minute : Duration := 60 * Second.

(** [Duration * Duration], an [int64] product. *)
Definition mul (a b : Duration) : Duration := wrap64 (a * b).

(** Unary minus on an [int64]. *)
Definition neg (a : Duration) : Duration := wrap64 (- a).

(** [time.Duration(n)] for an [int] n (64 bits on the build target). *)
Definition of_int (n : Z) : Duration := wrap64 n.

(** [t.Sub(u)]: the duration t-u, or the largest (smallest) duration when
    t-u does not fit. *)
Definition Sub (t u : Time) : Duration :=
  if maxDuration <? t - u then maxDuration
  else if t - u <? minDuration then minDuration
  else t - u.

Definition Add (t : Time) (d : Duration) : Time := t + d.

Definition After (t u : Time) : bool := u <? t.
Definition Before (t u : Time) : bool := t <? u.

(** [t.Equal(u)]: the two are the same instant. *)
Definition Equal (t u : Time) : bool := t =? u.

(** [d.Minutes()]: whole minutes plus the remaining nanoseconds over
    [60 * 1e9], as the library computes it; the sum and the quotient are
    taken exactly. *)
Definition Minutes (d : Duration) : Q :=
  let min := Z.quot d Minute in
  let nsec := Z.rem d Minute in
  (inject_Z min + inject_Z nsec / (60 * 1000000000))%Q.

End GoTime.

(** Comparison of two [float64] values, [x < y]. *)
Definition float_lt (x y : Q) : bool := negb (Qle_bool y x).

(** ** The arithmetic of [float64]

    The operations of Go on [float64] are those of IEEE 754 binary64: the
    exact result, rounded to the nearest number that has 53 significant
    bits, to the one with an even last bit where two are as near. The range
    of the exponent is not bounded here: the engine converts lengths of
    slices, divides one by another that is not smaller, and multiplies by
    100, which stays between 2^-63 and 100. A division by zero, an infinity
    or NaN in Go, gives 0 here; the engine divides by the number of users
    only where a user matches. *)

Module float64.

Local Open Scope Q_scope.

(** The exponent [e] of a positive number: [2^e <= x < 2^(e+1)]. *)
Definition exponent (x : Q) : Z :=
  let e := (Z.log2 (Qnum x) - Z.log2 (Z.pos (Qden x)))%Z in
  if Qle_bool (2 ^ e) x then e else (e - 1)%Z.

(** The nearest integer, the even one of two that are as near. *)
Definition nearestEven (x : Q) : Z :=
  let f := Qfloor x in
  match Qcompare (x - inject_Z f) (1 # 2) with
  | Lt => f
  | Gt => (f + 1)%Z
  | Eq => if Z.even f then f else (f + 1)%Z
  end.

(** A positive number rounded to 53 significant bits. *)
Definition roundPos (x : Q) : Q :=
  let e := exponent x in
  Qred (inject_Z (nearestEven (x * 2 ^ (52 - e))) * 2 ^ (e - 52)).

Definition round (x : Q) : Q :=
  match Qcompare x 0 with
  | Eq => 0
  | Gt => roundPos x
  | Lt => - roundPos (- x)
  end.

(** [float64(n)] for an [int] n. *)
Definition of_int (n : Z) : Q := round (inject_Z n).

(** [x / y] and [x * y]. *)
Definition div (x y : Q) : Q := round (x / y).
Definition mul (x y : Q) : Q := round (x * y).

(** *** Vocabulary of the properties *)

(** Half the distance from 1 to the next [float64], 2^-53: the largest
    relative error of one rounding. *)
Definition eps : Q := 1 # 9007199254740992.

End float64.

(** ** Package [models] *)

(** Each struct is a record [t] in a module of the struct's name, so that the
    fields keep their Go names. Of the embedded [gorm.Model] only the [ID] is
    kept: the engine reads nothing else of it. *)

Module Event.
Record t := {
  ID : N;
  Title : string;
  Description : string;
  OrganizerId : N;
  DurationMinutes : Z
}.
End Event.

Module TimeSlot.
Record t := {
  ID : N;
  EventID : N;
  StartTime : GoTime.Time;
  EndTime : GoTime.Time
}.
End TimeSlot.

Module User.
Record t := {
  ID : N;
  Name : string;
  Email : string;
  Timezone : string
}.
End User.

Module UserAvailability.
Record t := {
  ID : N;
  UserID : N;
  EventID : N;
  StartTime : GoTime.Time;
  EndTime : GoTime.Time
}.
End UserAvailability.

Module TimeSlotRecommendation.
Record t := {
  TimeSlot : TimeSlot.t;
  MatchingUsers : list User.t;
  NonMatchingUsers : list User.t;
  MatchingPercentage : Q;
  EventDuration : Z;
  StartOptions : list GoTime.Time
}.
End TimeSlotRecommendation.

(** ** Package [repository] *)

Module repository.

(** A Go [error] value. *)
Definition error := string.

(** A Go result pair [(value, err)]. *)
Inductive result (A : Type) : Type :=
| Ok (a : A)
| Err (e : error).
Global Arguments Ok {A} a.
Global Arguments Err {A} e.

Definition bind {A B : Type} (r : result A) (k : A → result B) : result B :=
  match r with
  | Ok a => k a
  | Err e => Err e
  end.

(** The read operations of the three repositories that the engine calls;
    each is one snapshot of the store. *)
Class EventRepository := {
  FindByID : N → result Event.t
}.

Class TimeSlotRepository := {
  FindByEventID : N → result (list TimeSlot.t)
}.

Class UserAvailabilityRepository := {
  FindByEvent : N → result (list UserAvailability.t);
  FindAllUsersByEvent : N → result (list User.t)
}.

End repository.

Notation "x <-? r ; k" := (repository.bind r (fun x => k))
  (at level 100, r at next level, right associativity, only parsing).

(** ** Package [sort] *)

Module GoSort.

(** The type of [sort.Slice], with [less] read on the elements. *)
Definition slice_sorter : Type := ∀ A : Type, (A → A → bool) → list A → list A.

(** What the library asks of [less] (the documentation of
    [sort.Interface]): an element does not sort before itself, and the
    ordering and its complement are transitive. *)
Record less_ok {A : Type} (less : A → A → bool) : Prop := {
  less_irrefl : ∀ x, less x x = false;
  less_trans : ∀ x y z, less x y = true → less y z = true → less x z = true;
  less_neg_trans : ∀ x y z, less x y = false → less y z = false → less x z = false
}.

(** [sort.SliceIsSorted]: no element sorts before its predecessor. *)
Definition IsSorted {A : Type} (less : A → A → bool) (l : list A) : Prop :=
  Sorted (λ x y, less y x = false) l.

(** What the library promises of [sort.Slice]: the slice is rearranged, and
    is sorted by [less] afterwards. The order of equal elements is left
    open. *)
Definition Slice_spec (sort_Slice : slice_sorter) : Prop :=
  ∀ (A : Type) (less : A → A → bool) (l : list A),
    less_ok less →
    sort_Slice A less l ≡ₚ l ∧ IsSorted less (sort_Slice A less l).

(** *** The implementation in the Go library

    [sort.Slice] as the Go release of the Dockerfile (1.24) implements it:
    pattern-defeating quicksort over the slice's [Less] and [Swap], with
    insertion sort up to twelve elements and heap sort as the fallback
    (sort/zsortfunc.go, sort/sort.go, sort/slice.go). The slice is a list
    read and written by index; an index outside the slice, which the library
    never uses, compares [false] and swaps nothing. A loop that is not bounded
    by its own counter carries a bound on its turns. *)

Section lessSwap.
Context {A : Type} (less : A → A → bool).

Definition Less (data : list A) (i j : nat) : bool :=
  match data !! i, data !! j with
  | Some x, Some y => less x y
  | _, _ => false
  end.

Definition Swap (data : list A) (i j : nat) : list A :=
  match data !! i, data !! j with
  | Some x, Some y => <[i:=y]> (<[j:=x]> data)
  | _, _ => data
  end.

(* for j := i; j > a && data.Less(j, j-1); j-- { data.Swap(j, j-1) } *)
Fixpoint insertionSort_shift (a j : nat) (data : list A) : list A :=
  match j with
  | O => data
  | S j' =>
      if (a <? j)%nat && Less data j j'
      then insertionSort_shift a j' (Swap data j j')
      else data
  end.

Definition insertionSort_func (data : list A) (a b : nat) : list A :=
  foldl (λ d i, insertionSort_shift a i d) data (seq (a + 1) (b - (a + 1))).

Fixpoint siftDown_loop (fuel : nat) (data : list A) (root hi first : nat) : list A :=
  match fuel with
  | O => data
  | S fuel' =>
      let child := (2 * root + 1)%nat in
      if (hi <=? child)%nat then data
      else
        let child :=
          if (child + 1 <? hi)%nat && Less data (first + child) (first + child + 1)
          then (child + 1)%nat else child in
        if negb (Less data (first + root) (first + child)) then data
        else siftDown_loop fuel' (Swap data (first + root) (first + child)) child hi first
  end.

Definition siftDown_func (data : list A) (lo hi first : nat) : list A :=
  siftDown_loop hi data lo hi first.

Definition heapSort_func (data : list A) (a b : nat) : list A :=
  let first := a in
  let lo := 0%nat in
  let hi := (b - a)%nat in
  let data := foldl (λ d i, siftDown_func d i hi first) data
                (reverse (seq 0 ((hi - 1) / 2 + 1))) in
  foldl (λ d i, siftDown_func (Swap d first (first + i)) lo i first) data
    (reverse (seq 0 hi)).

(* bits.Len *)
Definition bitsLen (n : nat) : nat :=
  match n with O => O | _ => S (Nat.log2 n) end.

Definition nextPowerOfTwo (length : nat) : Z := 2 ^ Z.of_nat (bitsLen length).

Definition xorshift_Next (r : Z) : Z :=
  let m := (2 ^ 64)%Z in
  let r := Z.lxor r (Z.shiftl r 13 mod m) in
  let r := Z.lxor r (Z.shiftr r 7) in
  Z.lxor r (Z.shiftl r 17 mod m).

Definition breakPatterns_func (data : list A) (a b : nat) : list A :=
  let length := (b - a)%nat in
  if (8 <=? length)%nat then
    let modulus := nextPowerOfTwo length in
    let idx := (a + (length / 4) * 2 - 1)%nat in
    let step (st : Z * list A) (i : nat) :=
      let random := xorshift_Next st.1 in
      let other := Z.to_nat (Z.land random (modulus - 1)) in
      let other := if (length <=? other)%nat then (other - length)%nat else other in
      (random, Swap st.2 (idx - 1 + i) (a + other)) in
    (foldl step (Z.of_nat length, data) (seq 0 3)).2
  else data.

Definition order2_func (data : list A) (a b swaps : nat) : nat * nat * nat :=
  if Less data b a then (b, a, S swaps) else (a, b, swaps).

Definition median_func (data : list A) (a b c swaps : nat) : nat * nat :=
  let '(a, b, swaps) := order2_func data a b swaps in
  let '(b, c, swaps) := order2_func data b c swaps in
  let '(a, b, swaps) := order2_func data a b swaps in
  (b, swaps).

Definition medianAdjacent_func (data : list A) (a swaps : nat) : nat * nat :=
  median_func data (a - 1) a (a + 1) swaps.

Inductive sortedHint := unknownHint | increasingHint | decreasingHint.

Definition choosePivot_func (data : list A) (a b : nat) : nat * sortedHint :=
  let shortestNinther := 50%nat in
  let maxSwaps := (4 * 3)%nat in
  let l := (b - a)%nat in
  let swaps := 0%nat in
  let i := (a + l / 4 * 1)%nat in
  let j := (a + l / 4 * 2)%nat in
  let k := (a + l / 4 * 3)%nat in
  let '(j, swaps) :=
    if (8 <=? l)%nat then
      let '(i, j, k, swaps) :=
        if (shortestNinther <=? l)%nat then
          let '(i, swaps) := medianAdjacent_func data i swaps in
          let '(j, swaps) := medianAdjacent_func data j swaps in
          let '(k, swaps) := medianAdjacent_func data k swaps in
          (i, j, k, swaps)
        else (i, j, k, swaps) in
      median_func data i j k swaps
    else (j, swaps) in
  if (swaps =? 0)%nat then (j, increasingHint)
  else if (swaps =? maxSwaps)%nat then (j, decreasingHint)
  else (j, unknownHint).

Fixpoint reverseRange_loop (fuel : nat) (data : list A) (i j : nat) : list A :=
  match fuel with
  | O => data
  | S fuel' =>
      if (i <? j)%nat then reverseRange_loop fuel' (Swap data i j) (i + 1) (j - 1)
      else data
  end.

Definition reverseRange_func (data : list A) (a b : nat) : list A :=
  reverseRange_loop (b - a) data a (b - 1).

(* for i <= j && data.Less(i, a) { i++ } *)
Fixpoint scanUp (fuel : nat) (p : nat → bool) (i j : nat) : nat :=
  match fuel with
  | O => i
  | S fuel' => if (i <=? j)%nat && p i then scanUp fuel' p (i + 1) j else i
  end.

(* for i <= j && !data.Less(j, a) { j-- } *)
Fixpoint scanDown (fuel : nat) (p : nat → bool) (i j : nat) : nat :=
  match fuel with
  | O => j
  | S fuel' => if (i <=? j)%nat && p j then scanDown fuel' p i (j - 1) else j
  end.

(* The closing loop of partition_func. *)
Fixpoint partition_loop (fuel : nat) (data : list A) (a i j : nat) : list A * nat :=
  match fuel with
  | O => (data, j)
  | S fuel' =>
      let i := scanUp (length data) (λ i, Less data i a) i j in
      let j := scanDown (length data) (λ j, negb (Less data j a)) i j in
      if (j <? i)%nat then (data, j)
      else partition_loop fuel' (Swap data i j) a (i + 1) (j - 1)
  end.

Definition partition_func (data : list A) (a b pivot : nat) : list A * nat * bool :=
  let data := Swap data a pivot in
  let i := (a + 1)%nat in
  let j := (b - 1)%nat in
  let i := scanUp (length data) (λ i, Less data i a) i j in
  let j := scanDown (length data) (λ j, negb (Less data j a)) i j in
  if (j <? i)%nat then (Swap data j a, j, true)
  else
    let data := Swap data i j in
    let '(data, j) := partition_loop (length data) data a (i + 1) (j - 1) in
    (Swap data j a, j, false).

Fixpoint partitionEqual_loop (fuel : nat) (data : list A) (a i j : nat) : list A * nat :=
  match fuel with
  | O => (data, i)
  | S fuel' =>
      let i := scanUp (length data) (λ i, negb (Less data a i)) i j in
      let j := scanDown (length data) (λ j, Less data a j) i j in
      if (j <? i)%nat then (data, i)
      else partitionEqual_loop fuel' (Swap data i j) a (i + 1) (j - 1)
  end.

Definition partitionEqual_func (data : list A) (a b pivot : nat) : list A * nat :=
  let data := Swap data a pivot in
  partitionEqual_loop (length data) data a (a + 1) (b - 1).

(* for j := i - 1; j >= 1; j-- { if !data.Less(j, j-1) { break }; data.Swap(j, j-1) } *)
Fixpoint shiftLeft (j : nat) (data : list A) : list A :=
  match j with
  | O => data
  | S j' => if Less data j j' then shiftLeft j' (Swap data j j') else data
  end.

(* for j := i + 1; j < b; j++ { if !data.Less(j, j-1) { break }; data.Swap(j, j-1) } *)
Fixpoint shiftRight (fuel : nat) (j b : nat) (data : list A) : list A :=
  match fuel with
  | O => data
  | S fuel' =>
      if (j <? b)%nat && Less data j (j - 1)
      then shiftRight fuel' (j + 1) b (Swap data j (j - 1))
      else data
  end.

Fixpoint partialInsertionSort_loop (steps : nat) (data : list A) (a b i : nat)
  : list A * bool :=
  match steps with
  | O => (data, false)
  | S steps' =>
      let i := scanUp (length data) (λ i, negb (Less data i (i - 1))) i (b - 1) in
      if (i =? b)%nat then (data, true)
      else if (b - a <? 50)%nat then (data, false)
      else
        let data := Swap data i (i - 1) in
        let data := if (2 <=? i - a)%nat then shiftLeft (i - 1) data else data in
        let data := if (2 <=? b - i)%nat then shiftRight (length data) (i + 1) b data else data in
        partialInsertionSort_loop steps' data a b i
  end.

Definition partialInsertionSort_func (data : list A) (a b : nat) : list A * bool :=
  partialInsertionSort_loop 5 data a b (a + 1).

Fixpoint pdqsort_loop (fuel : nat) (data : list A) (a b limit : nat)
    (wasBalanced wasPartitioned : bool) : list A :=
  match fuel with
  | O => data
  | S fuel' =>
      let length := (b - a)%nat in
      if (length <=? 12)%nat then insertionSort_func data a b
      else if (limit =? 0)%nat then heapSort_func data a b
      else
        let '(data, limit) :=
          if negb wasBalanced then (breakPatterns_func data a b, (limit - 1)%nat)
          else (data, limit) in
        let '(pivot, hint) := choosePivot_func data a b in
        let '(data, pivot, hint) :=
          match hint with
          | decreasingHint =>
              (reverseRange_func data a b, ((b - 1) - (pivot - a))%nat, increasingHint)
          | _ => (data, pivot, hint)
          end in
        let '(data, sorted) :=
          match hint with
          | increasingHint =>
              if wasBalanced && wasPartitioned then partialInsertionSort_func data a b
              else (data, false)
          | _ => (data, false)
          end in
        if sorted then data
        else if (0 <? a)%nat && negb (Less data (a - 1) pivot) then
          let '(data, mid) := partitionEqual_func data a b pivot in
          pdqsort_loop fuel' data mid b limit wasBalanced wasPartitioned
        else
          let '(data, mid, alreadyPartitioned) := partition_func data a b pivot in
          let wasPartitioned := alreadyPartitioned in
          let leftLen := (mid - a)%nat in
          let rightLen := (b - mid)%nat in
          let balanceThreshold := (length / 8)%nat in
          if (leftLen <? rightLen)%nat then
            let wasBalanced := (balanceThreshold <=? leftLen)%nat in
            let data := pdqsort_loop fuel' data a mid limit true true in
            pdqsort_loop fuel' data (mid + 1) b limit wasBalanced wasPartitioned
          else
            let wasBalanced := (balanceThreshold <=? rightLen)%nat in
            let data := pdqsort_loop fuel' data (mid + 1) b limit true true in
            pdqsort_loop fuel' data a mid limit wasBalanced wasPartitioned
  end.

Definition pdqsort_func (data : list A) (a b limit : nat) : list A :=
  pdqsort_loop (S (b - a)) data a b limit true true.

Definition Slice_impl (x : list A) : list A :=
  let length := length x in
  let limit := bitsLen length in
  pdqsort_func x 0 length limit.

End lessSwap.

(** [sort.Slice(x, less)]. *)
Definition Slice : slice_sorter := λ A less x, Slice_impl less x.

(** *** The vocabulary of the library's correctness

    What the functions above keep of a slice, said on ranges of indices:
    the range from [a] to [b] holds the indices [a], ..., [b - 1]. *)

Section Ranges.

Context {A : Type} (less : A → A → bool).

(** [x] does not sort after [y]. *)
Definition leq (x y : A) : Prop := less y x = false.

(** [l'] holds the elements of [l], moved within the range from [a] to [b]
    only. *)
Record rearranged (a b : nat) (l l' : list A) : Prop := {
  rearranged_length : length l' = length l;
  rearranged_outside : ∀ k, (k < a ∨ b ≤ k)%nat → l' !! k = l !! k;
  rearranged_inside :
    ∀ k x, (a ≤ k < b)%nat → l' !! k = Some x →
           ∃ k', (a ≤ k' < b)%nat ∧ l !! k' = Some x;
  rearranged_Permutation : l' ≡ₚ l
}.

(** No element of the range sorts after a later one of the range. *)
Definition sorted_in (a b : nat) (l : list A) : Prop :=
  ∀ i j x y, (a ≤ i)%nat → (i ≤ j)%nat → (j < b)%nat →
             l !! i = Some x → l !! j = Some y → leq x y.

(** The range from [a] to [i] is sorted, but for the element at [j], which
    may sort before elements to its left. *)
Record shifting (a j i : nat) (l : list A) : Prop := {
  shifting_left : sorted_in a j l;
  shifting_right : sorted_in j (S i) l;
  shifting_across :
    ∀ p q x y, (a ≤ p < j)%nat → (j < q ≤ i)%nat →
               l !! p = Some x → l !! q = Some y → leq x y
}.

(** In the heap of [hi] elements from [first] on, no child of the element
    [i] sorts after it. *)
Definition heap_at (d : list A) (first hi i : nat) : Prop :=
  ∀ c x y, (c = 2 * i + 1 ∨ c = 2 * i + 2)%nat → (c < hi)%nat →
           d !! (first + i)%nat = Some x → d !! (first + c)%nat = Some y → leq y x.

(** The heap holds the [n] first elements; the others are sorted and do
    not sort before any element of the heap. *)
Record extracting (first hi n : nat) (d : list A) : Prop := {
  extracting_heap : ∀ k, (k < n)%nat → heap_at d first n k;
  extracting_sorted : sorted_in (first + n) (first + hi) d;
  extracting_across :
    ∀ p q x y, (p < n)%nat → (n ≤ q < hi)%nat →
               d !! (first + p)%nat = Some x → d !! (first + q)%nat = Some y → leq x y
}.

(** The element before the range, if there is one, sorts after none of the
    range. *)
Definition pred_ok (a b : nat) (d : list A) : Prop :=
  ∀ k x y, (0 < a)%nat → (a ≤ k < b)%nat →
           d !! (a - 1)%nat = Some x → d !! k = Some y → leq x y.

(** Every element of the range satisfies [P]. *)
Definition all_in (a b : nat) (P : A → Prop) (l : list A) : Prop :=
  ∀ k x, (a ≤ k < b)%nat → l !! k = Some x → P x.

End Ranges.

End GoSort.

(** ** Package [services] *)

Module services.

Import GoTime repository.

(** The grouping loop: [availabilityMap[avail.UserID] =
    append(availabilityMap[avail.UserID], avail)]. A key that is absent
    reads as the empty slice. *)
Definition buildAvailabilityMap (allAvailabilities : list UserAvailability.t)
  : gmap N (list UserAvailability.t) :=
  foldl (λ availabilityMap avail,
           <[UserAvailability.UserID avail :=
               (availabilityMap !!! UserAvailability.UserID avail) ++ [avail]]>
             availabilityMap)
        ∅ allAvailabilities.

(** The test of one availability:
    [!startTime.Before(avail.StartTime) && !endTime.After(avail.EndTime)]. *)
Definition covers (startTime endTime : Time) (avail : UserAvailability.t) : bool :=
  negb (Before startTime (UserAvailability.StartTime avail))
  && negb (After endTime (UserAvailability.EndTime avail)).

(** The loop over a user's availabilities, which stops at the first one
    that covers the meeting. *)
Definition available (availabilityMap : gmap N (list UserAvailability.t))
    (startTime endTime : Time) (user : User.t) : bool :=
  existsb (covers startTime endTime) (availabilityMap !!! User.ID user).

(** The loop over [users]: each user is appended to [matchingUsers] or to
    [nonMatchingUsers]. *)
Definition splitUsers (availabilityMap : gmap N (list UserAvailability.t))
    (startTime endTime : Time) (users : list User.t) : list User.t * list User.t :=
  foldl (λ acc user,
           if available availabilityMap startTime endTime user
           then (acc.1 ++ [user], acc.2)
           else (acc.1, acc.2 ++ [user]))
        ([], []) users.

(** The three variables a slot's walk updates. *)
Record best := {
  bestMatchingUsers : list User.t;
  bestNonMatchingUsers : list User.t;
  startOptions : list Time
}.

Definition noBest : best :=
  {| bestMatchingUsers := []; bestNonMatchingUsers := []; startOptions := [] |}.

(** "Update best option if current matching count is better". *)
Definition updateBest (b : best) (startTime : Time)
    (matchingUsers nonMatchingUsers : list User.t) : best :=
  if (length (bestMatchingUsers b) <? length matchingUsers)%nat then
    {| bestMatchingUsers := matchingUsers;
       bestNonMatchingUsers := nonMatchingUsers;
       startOptions := [startTime] |}
  else if (length matchingUsers =? length (bestMatchingUsers b))%nat
          && (0 <? length matchingUsers)%nat then
    {| bestMatchingUsers := bestMatchingUsers b;
       bestNonMatchingUsers := bestNonMatchingUsers b;
       startOptions := startOptions b ++ [startTime] |}
  else b.

(** [time.Duration(durationMinutes) * time.Minute]. *)
Definition meetingDuration (durationMinutes : Z) : Duration :=
  mul (of_int durationMinutes) Minute.

(** The body of the walk at one start time. *)
Definition visit (availabilityMap : gmap N (list UserAvailability.t))
    (users : list User.t) (durationMinutes : Z) (b : best) (startTime : Time) : best :=
  let endTime := Add startTime (meetingDuration durationMinutes) in
  let split := splitUsers availabilityMap startTime endTime users in
  updateBest b startTime split.1 split.2.

(** The walk [for startTime := slot.StartTime; !startTime.After(maxStartTime);
    startTime = startTime.Add(15 * time.Minute)]. [fuel] bounds the number
    of start times visited. *)
Fixpoint walk (fuel : nat) (availabilityMap : gmap N (list UserAvailability.t))
    (users : list User.t) (durationMinutes : Z) (maxStartTime startTime : Time)
    (b : best) : best :=
  match fuel with
  | O => b
  | S fuel' =>
      if After startTime maxStartTime then b
      else walk fuel' availabilityMap users durationMinutes maxStartTime
             (Add startTime (mul 15 Minute))
             (visit availabilityMap users durationMinutes b startTime)
  end.

(** The number of start times from [startTime] up to [maxStartTime]. *)
Definition walkFuel (startTime maxStartTime : Time) : nat :=
  Z.to_nat ((maxStartTime - startTime) `div` mul 15 Minute + 1).

(** [slot.EndTime.Add(-time.Duration(durationMinutes) * time.Minute)]. *)
Definition maxStartTime (durationMinutes : Z) (slot : TimeSlot.t) : Time :=
  Add (TimeSlot.EndTime slot) (mul (neg (of_int durationMinutes)) Minute).

(** The slot is too short:
    [slot.EndTime.Sub(slot.StartTime).Minutes() < float64(durationMinutes)]. *)
Definition tooShort (durationMinutes : Z) (slot : TimeSlot.t) : bool :=
  float_lt (Minutes (Sub (TimeSlot.EndTime slot) (TimeSlot.StartTime slot)))
           (inject_Z durationMinutes).

(** The best option of a slot that is long enough. *)
Definition walkSlot (availabilityMap : gmap N (list UserAvailability.t))
    (users : list User.t) (durationMinutes : Z) (slot : TimeSlot.t) : best :=
  walk (walkFuel (TimeSlot.StartTime slot) (maxStartTime durationMinutes slot))
       availabilityMap users durationMinutes
       (maxStartTime durationMinutes slot) (TimeSlot.StartTime slot) noBest.

(** [float64(len(bestMatchingUsers)) / float64(len(users)) * 100]. *)
Definition matchingPercentage (bestMatchingUsers users : list User.t) : Q :=
  float64.mul
    (float64.div (float64.of_int (Z.of_nat (length bestMatchingUsers)))
                 (float64.of_int (Z.of_nat (length users))))
    100.

(** One turn of the loop over the time slots: [None] where the source
    says [continue], the appended recommendation otherwise. *)
Definition recommendSlot (availabilityMap : gmap N (list UserAvailability.t))
    (users : list User.t) (durationMinutes : Z) (slot : TimeSlot.t)
  : option TimeSlotRecommendation.t :=
  if tooShort durationMinutes slot then None
  else
    let b := walkSlot availabilityMap users durationMinutes slot in
    if (length (bestMatchingUsers b) =? 0)%nat then None
    else Some {|
      TimeSlotRecommendation.TimeSlot := slot;
      TimeSlotRecommendation.MatchingUsers := bestMatchingUsers b;
      TimeSlotRecommendation.NonMatchingUsers := bestNonMatchingUsers b;
      TimeSlotRecommendation.MatchingPercentage :=
        matchingPercentage (bestMatchingUsers b) users;
      TimeSlotRecommendation.EventDuration := durationMinutes;
      TimeSlotRecommendation.StartOptions := startOptions b
    |}.

(** The recommendations in the order of the time slots, before sorting. *)
Definition produced (availabilityMap : gmap N (list UserAvailability.t))
    (users : list User.t) (durationMinutes : Z) (timeSlots : list TimeSlot.t)
  : list TimeSlotRecommendation.t :=
  omap (recommendSlot availabilityMap users durationMinutes) timeSlots.

(** The [less] of the final sort:
    [recommendations[i].MatchingPercentage > recommendations[j].MatchingPercentage]. *)
Definition byPercentage (ri rj : TimeSlotRecommendation.t) : bool :=
  float_lt (TimeSlotRecommendation.MatchingPercentage rj)
           (TimeSlotRecommendation.MatchingPercentage ri).

(** *** Vocabulary of the properties *)

(** The start times the walk of a slot visits, in the order of the visits. *)
Definition startTimes (startTime maxStartTime : Time) : list Time :=
  (λ k : nat, startTime + Z.of_nat k * mul 15 Minute)
    <$> seq 0 (walkFuel startTime maxStartTime).

Definition slotStartTimes (durationMinutes : Z) (slot : TimeSlot.t) : list Time :=
  startTimes (TimeSlot.StartTime slot) (maxStartTime durationMinutes slot).

(** The [matchingUsers] and [nonMatchingUsers] that [visit] computes at a
    start time. *)
Definition matchingUsersAt (availabilityMap : gmap N (list UserAvailability.t))
    (users : list User.t) (durationMinutes : Z) (startTime : Time) : list User.t :=
  (splitUsers availabilityMap startTime
     (Add startTime (meetingDuration durationMinutes)) users).1.

Definition nonMatchingUsersAt (availabilityMap : gmap N (list UserAvailability.t))
    (users : list User.t) (durationMinutes : Z) (startTime : Time) : list User.t :=
  (splitUsers availabilityMap startTime
     (Add startTime (meetingDuration durationMinutes)) users).2.

(** What a walk over the start times [ts] leaves in [b]: nothing, where no
    start time has a matching user; otherwise the lists of a start time [t]
    that beats every start time before it and is not beaten after it, and
    the start times from [t] on that match as many users as [t]. *)
Inductive walked (availabilityMap : gmap N (list UserAvailability.t))
    (users : list User.t) (durationMinutes : Z) (ts : list Time) (b : best) : Prop :=
| walked_none :
    b = noBest →
    (∀ t, t ∈ ts → matchingUsersAt availabilityMap users durationMinutes t = []) →
    walked availabilityMap users durationMinutes ts b
| walked_best (before : list Time) (t : Time) (after : list Time) :
    ts = before ++ t :: after →
    (0 < length (matchingUsersAt availabilityMap users durationMinutes t))%nat →
    (∀ t', t' ∈ before →
       (length (matchingUsersAt availabilityMap users durationMinutes t')
        < length (matchingUsersAt availabilityMap users durationMinutes t))%nat) →
    (∀ t', t' ∈ after →
       (length (matchingUsersAt availabilityMap users durationMinutes t')
        ≤ length (matchingUsersAt availabilityMap users durationMinutes t))%nat) →
    b = {| bestMatchingUsers :=
             matchingUsersAt availabilityMap users durationMinutes t;
           bestNonMatchingUsers :=
             nonMatchingUsersAt availabilityMap users durationMinutes t;
           startOptions :=
             t :: filter
                    (λ t',
                       length (matchingUsersAt availabilityMap users durationMinutes t')
                       = length (matchingUsersAt availabilityMap users durationMinutes t))
                    after |} →
    walked availabilityMap users durationMinutes ts b.

(** Two recommendations of equal percentage stand in the same order in
    [out] as in [recs], whatever the percentage. *)
Definition tiesKeepOrder (recs out : list TimeSlotRecommendation.t) : Prop :=
  ∀ p : Q,
    filter (λ r, Qeq_bool (TimeSlotRecommendation.MatchingPercentage r) p) out
    = filter (λ r, Qeq_bool (TimeSlotRecommendation.MatchingPercentage r) p) recs.

Section RecommendationService.

Context (sort_Slice : GoSort.slice_sorter).
Context {eventRepo : EventRepository}.
Context {timeSlotRepo : TimeSlotRepository}.
Context {availabilityRepo : UserAvailabilityRepository}.

Definition GetRecommendations (eventID : N)
  : result (list TimeSlotRecommendation.t) :=
  event <-? FindByID eventID;
  let durationMinutes := Event.DurationMinutes event in
  timeSlots <-? FindByEventID eventID;
  allAvailabilities <-? FindByEvent eventID;
  users <-? FindAllUsersByEvent eventID;
  let availabilityMap := buildAvailabilityMap allAvailabilities in
  let recommendations := produced availabilityMap users durationMinutes timeSlots in
  Ok (sort_Slice _ byPercentage recommendations).

End RecommendationService.

End services.

(** ** Package [strconv] *)

Module strconv.

(** The [Err] of a [*NumError]. *)
Inductive NumError := ErrSyntax | ErrRange | bitSizeError.

Definition maxUint64 : N := 2 ^ 64 - 1.

(** The bytes of a string. *)
Definition bytes (s : string) : list N :=
  Ascii.N_of_ascii <$> String.list_ascii_of_string s.

(** [lower(c)]: [c | ('x' - 'X')]. *)
Definition lower (c : N) : N := N.lor c 32.

(** The loop of [ParseUint] over the bytes, for the base 10. The products
    and sums are those of [uint64]. *)
Fixpoint ParseUint_loop (cs : list N) (cutoff maxVal n : N)
  : N * option NumError :=
  match cs with
  | [] => (n, None)
  | c :: cs' =>
      let d := if (48 <=? c) && (c <=? 57) then Some (c - 48)
               else if (97 <=? lower c) && (lower c <=? 122)
                    then Some (lower c - 97 + 10)
                    else None in
      match d with
      | None => (0, Some ErrSyntax)
      | Some d =>
          if 10 <=? d then (0, Some ErrSyntax)
          else if cutoff <=? n then (maxVal, Some ErrRange)
          else
            let n := (n * 10) mod 2 ^ 64 in
            let n1 := (n + d) mod 2 ^ 64 in
            if (n1 <? n) || (maxVal <? n1) then (maxVal, Some ErrRange)
            else ParseUint_loop cs' cutoff maxVal n1
      end
  end%N.

(** [strconv.ParseUint(s, 10, bitSize)]: the library's function at the
    base 10, at which every call of the controllers uses it; at this base
    it looks for no prefix and admits no underscore. *)
Definition ParseUint (s : string) (bitSize : Z) : N * option NumError :=
  if String.eqb s "" then (0%N, Some ErrSyntax)
  else
    let bitSize := if bitSize =? 0 then 64 else bitSize in
    if (bitSize <? 0) || (64 <? bitSize) then (0%N, Some bitSizeError)
    else
      let cutoff := (maxUint64 / 10 + 1)%N in
      let maxVal := (((2 ^ Z.to_N bitSize) mod 2 ^ 64 + 2 ^ 64 - 1) mod 2 ^ 64)%N in
      ParseUint_loop (bytes s) cutoff maxVal 0.

(** [int64(x)] and [int(x)], of 64 bits on the build target: the two's
    complement reduction. *)
Definition int64 (x : Z) : Z := GoTime.wrap64 x.

(** [strconv.ParseInt(s, 10, bitSize)]. *)
Definition ParseInt (s : string) (bitSize : Z) : Z * option NumError :=
  match s with
  | EmptyString => (0, Some ErrSyntax)
  | String c s' =>
      let '(neg, s1) :=
        if (Ascii.N_of_ascii c =? 43)%N then (false, s')
        else if (Ascii.N_of_ascii c =? 45)%N then (true, s')
        else (false, s) in
      let '(un, err) := ParseUint s1 bitSize in
      match err with
      | Some ErrSyntax | Some bitSizeError => (0, err)
      | Some ErrRange | None =>
          let bitSize := if bitSize =? 0 then 64 else bitSize in
          let cutoff := (2 ^ Z.to_N (bitSize - 1) mod 2 ^ 64)%N in
          if negb neg && (cutoff <=? un)%N then
            (int64 (Z.of_N cutoff - 1), Some ErrRange)
          else if neg && (cutoff <? un)%N then
            (int64 (- int64 (Z.of_N cutoff)), Some ErrRange)
          else
            let n := int64 (Z.of_N un) in
            (if neg then int64 (- n) else n, None)
      end
  end.

(** The loop of the fast path of [Atoi] over the bytes; [ch -= '0'] is a
    difference of bytes. *)
Fixpoint Atoi_loop (cs : list N) (n : Z) : option Z :=
  match cs with
  | [] => Some n
  | ch :: cs' =>
      let ch := ((ch + 256 - 48) mod 256)%N in
      if (9 <? ch)%N then None
      else Atoi_loop cs' (int64 (int64 (n * 10) + Z.of_N ch))
  end.

(** [strconv.Atoi(s)], for an [int] of 64 bits: the fast path for a string
    of 1 to 18 bytes, [ParseInt(s, 10, 0)] for the others. *)
Definition Atoi (s : string) : Z * option NumError :=
  let sLen := String.length s in
  if (0 <? sLen)%nat && (sLen <? 19)%nat then
    match bytes s with
    | [] => (0, Some ErrSyntax)
    | c :: cs =>
        let signed := ((c =? 45) || (c =? 43))%N in
        let digits := if signed then cs else c :: cs in
        if signed && (length digits <? 1)%nat then (0, Some ErrSyntax)
        else
          match Atoi_loop digits 0 with
          | None => (0, Some ErrSyntax)
          | Some n => (if (c =? 45)%N then int64 (- n) else n, None)
          end
    end
  else ParseInt s 0.

(** *** Vocabulary of the properties *)

(** The number that a string of decimal digits denotes. *)
Definition decimal (cs : list N) : N := foldl (λ n c, 10 * n + (c - 48))%N 0%N cs.

Definition isDigit (c : N) : bool := ((48 <=? c) && (c <=? 57))%N.

(** The strings of decimal digits, one at least, that denote a number
    below 2^32. *)
Definition isUint32 (s : string) : bool :=
  negb (String.eqb s "") && forallb isDigit (bytes s)
  && (decimal (bytes s) <? 2 ^ 32)%N.

End strconv.

(** ** Package [net/http] *)

Module http.
Definition StatusOK : Z := 200.
Definition StatusCreated : Z := 201.
Definition StatusBadRequest : Z := 400.
Definition StatusNotFound : Z := 404.
Definition StatusInternalServerError : Z := 500.
End http.

(** ** Package [gin] *)

Module gin.

Import repository.

(** What a handler reads of its [*gin.Context]: the parameters of the path,
    those of the query (the empty string where the query has none of the
    name), and the outcome of [ShouldBindJSON] on the body of the request. *)
Record Context (A : Type) := {
  Param : string → string;
  Query : string → string;
  ShouldBindJSON : result A
}.
Global Arguments Param {A} _ _.
Global Arguments Query {A} _ _.
Global Arguments ShouldBindJSON {A} _.

(** The object of a response: a [gin.H] of one key, as the handlers build
    it, or a value of the models. *)
Inductive obj (A : Type) : Type :=
| H (key value : string)
| value (a : A).
Global Arguments H {A} key value.
Global Arguments value {A} a.

(** [ctx.JSON(code, obj)], the one response of a handler. *)
Record response (A : Type) := JSON {
  code : Z;
  body : obj A
}.
Global Arguments JSON {A} code body.
Global Arguments code {A} _.
Global Arguments body {A} _.

End gin.

(** ** Package [repository], over the database

    The four repositories with the operations that the services call. The
    database [DB] is the state behind [*gorm.DB]: an operation that writes
    returns the database it leaves, one that reads returns its result only.
    [Create] returns the record as it stands behind the pointer after the
    call. An [error] that is [nil] is [None]. *)

Module store.

Import repository.

Module EventRepository.
Class t (DB : Type) := {
  Create : Event.t → DB → result Event.t * DB;
  FindByID : N → DB → result Event.t;
  FindAll : DB → result (list Event.t);
  Update : N → Event.t → DB → option error * DB;
  Delete : N → DB → option error * DB
}.
End EventRepository.

Module TimeSlotRepository.
Class t (DB : Type) := {
  Create : TimeSlot.t → DB → result TimeSlot.t * DB;
  FindByID : N → DB → result TimeSlot.t;
  FindByEventID : N → DB → result (list TimeSlot.t);
  Update : N → TimeSlot.t → DB → option error * DB;
  Delete : N → DB → option error * DB
}.
End TimeSlotRepository.

Module UserRepository.
Class t (DB : Type) := {
  Create : User.t → DB → result User.t * DB;
  FindByID : N → DB → result User.t;
  FindAll : DB → result (list User.t);
  Update : N → User.t → DB → option error * DB;
  Delete : N → DB → option error * DB
}.
End UserRepository.

Module UserAvailabilityRepository.
Class t (DB : Type) := {
  Create : UserAvailability.t → DB → result UserAvailability.t * DB;
  FindByUserAndEvent : N → N → DB → result (list UserAvailability.t);
  Update : N → UserAvailability.t → DB → option error * DB;
  Delete : N → DB → option error * DB
}.
End UserAvailabilityRepository.

End store.

(** ** Package [services], the services that write *)

Module EventService.

Import repository store.

Section service.

Context {DB : Type} {repo : EventRepository.t DB}.

Definition CreateEvent (event : Event.t) (db : DB) : result Event.t * DB :=
  if String.eqb (Event.Title event) "" then
    (Err "event title is required", db)
  else if Event.DurationMinutes event <=? 0 then
    (Err "event duration must be positive", db)
  else EventRepository.Create event db.

Definition GetEvent (id : N) (db : DB) : result Event.t :=
  EventRepository.FindByID id db.

Definition GetAllEvents (db : DB) : result (list Event.t) :=
  EventRepository.FindAll db.

Definition UpdateEvent (id : N) (event : Event.t) (db : DB)
  : option error * DB :=
  if String.eqb (Event.Title event) "" then
    (Some "event title is required", db)
  else if Event.DurationMinutes event <=? 0 then
    (Some "event duration must be positive", db)
  else EventRepository.Update id event db.

Definition DeleteEvent (id : N) (db : DB) : option error * DB :=
  EventRepository.Delete id db.

End service.

End EventService.

Module TimeSlotService.

Import GoTime repository store.

Section service.

Context {DB : Type} {repo : TimeSlotRepository.t DB}.

Definition CreateTimeSlot (timeSlot : TimeSlot.t) (db : DB)
  : result TimeSlot.t * DB :=
  if After (TimeSlot.StartTime timeSlot) (TimeSlot.EndTime timeSlot)
     || Equal (TimeSlot.StartTime timeSlot) (TimeSlot.EndTime timeSlot) then
    (Err "start time must be before end time", db)
  else TimeSlotRepository.Create timeSlot db.

Definition GetTimeSlot (id : N) (db : DB) : result TimeSlot.t :=
  TimeSlotRepository.FindByID id db.

Definition GetTimeSlotsByEvent (eventID : N) (db : DB)
  : result (list TimeSlot.t) :=
  TimeSlotRepository.FindByEventID eventID db.

Definition UpdateTimeSlot (id : N) (timeSlot : TimeSlot.t) (db : DB)
  : option error * DB :=
  if After (TimeSlot.StartTime timeSlot) (TimeSlot.EndTime timeSlot)
     || Equal (TimeSlot.StartTime timeSlot) (TimeSlot.EndTime timeSlot) then
    (Some "start time must be before end time", db)
  else TimeSlotRepository.Update id timeSlot db.

Definition DeleteTimeSlot (id : N) (db : DB) : option error * DB :=
  TimeSlotRepository.Delete id db.

End service.

End TimeSlotService.

Module UserService.

Import repository store.

Section service.

Context {DB : Type} {repo : UserRepository.t DB}.

Definition CreateUser (user : User.t) (db : DB) : result User.t * DB :=
  UserRepository.Create user db.

Definition GetUser (id : N) (db : DB) : result User.t :=
  UserRepository.FindByID id db.

Definition GetAllUsers (db : DB) : result (list User.t) :=
  UserRepository.FindAll db.

Definition UpdateUser (id : N) (user : User.t) (db : DB) : option error * DB :=
  UserRepository.Update id user db.

Definition DeleteUser (id : N) (db : DB) : option error * DB :=
  UserRepository.Delete id db.

End service.

End UserService.

Module AvailabilityService.

Import GoTime repository store.

Section service.

Context {DB : Type} {repo : UserAvailabilityRepository.t DB}.

Definition CreateAvailability (availability : UserAvailability.t) (db : DB)
  : result UserAvailability.t * DB :=
  if After (UserAvailability.StartTime availability)
           (UserAvailability.EndTime availability)
     || Equal (UserAvailability.StartTime availability)
              (UserAvailability.EndTime availability) then
    (Err "start time must be before end time", db)
  else UserAvailabilityRepository.Create availability db.

Definition GetUserAvailability (userID eventID : N) (db : DB)
  : result (list UserAvailability.t) :=
  UserAvailabilityRepository.FindByUserAndEvent userID eventID db.

Definition UpdateAvailability (id : N) (availability : UserAvailability.t)
    (db : DB) : option error * DB :=
  if After (UserAvailability.StartTime availability)
           (UserAvailability.EndTime availability)
     || Equal (UserAvailability.StartTime availability)
              (UserAvailability.EndTime availability) then
    (Some "start time must be before end time", db)
  else UserAvailabilityRepository.Update id availability db.

Definition DeleteAvailability (id : N) (db : DB) : option error * DB :=
  UserAvailabilityRepository.Delete id db.

End service.

End AvailabilityService.

(** ** Package [controllers]

    A handler reads the parameters of the path, those of the query and the
    body of the request from its context, calls its service, and answers
    with one [ctx.JSON].
    The calls of the logger are left out: they write the log only. *)

Module EventController.

Import repository store.

Section controller.

Context {DB : Type} {repo : EventRepository.t DB}.

Definition CreateEvent (ctx : gin.Context Event.t) (db : DB)
  : gin.response Event.t * DB :=
  match gin.ShouldBindJSON ctx with
  | Err err =>
      (gin.JSON http.StatusBadRequest
         (gin.H "error" ("Invalid JSON payload: " +:+ err)), db)
  | Ok event =>
      if String.eqb (Event.Title event) "" then
        (gin.JSON http.StatusBadRequest
           (gin.H "error" "Event title is required"), db)
      else if Event.DurationMinutes event <=? 0 then
        (gin.JSON http.StatusBadRequest
           (gin.H "error" "Event duration must be greater than zero"), db)
      else
        match EventService.CreateEvent event db with
        | (Err err, db) =>
            (gin.JSON http.StatusInternalServerError
               (gin.H "error" ("Error creating event: " +:+ err)), db)
        | (Ok event, db) => (gin.JSON http.StatusCreated (gin.value event), db)
        end
  end.

Definition GetEvent {A} (ctx : gin.Context A) (db : DB) : gin.response Event.t :=
  let '(id, err) := strconv.ParseUint (gin.Param ctx "id") 32 in
  if err is Some _ then
    gin.JSON http.StatusBadRequest (gin.H "error" "Invalid event ID format")
  else
    match EventService.GetEvent id db with
    | Err err => gin.JSON http.StatusNotFound (gin.H "error" "Event not found")
    | Ok event => gin.JSON http.StatusOK (gin.value event)
    end.

(** [GetAllEvents]. The handler calls the method
    [GetAllEventsWithPagination] of the service, which the package
    [services] does not hold: it is embedded for every function of the
    method's type. *)
Definition GetAllEvents {A}
    (GetAllEventsWithPagination : Z → Z → DB → result (list Event.t))
    (ctx : gin.Context A) (db : DB) : gin.response (list Event.t) :=
  let limitStr := gin.Query ctx "limit" in
  let offsetStr := gin.Query ctx "offset" in
  let limit :=
    if negb (String.eqb limitStr "") then
      let '(limit, err) := strconv.Atoi limitStr in
      if (if err is Some _ then true else false) || (limit <=? 0) then None
      else Some limit
    else Some 10 in
  match limit with
  | None =>
      gin.JSON http.StatusBadRequest (gin.H "error" "Invalid limit value")
  | Some limit =>
      let offset :=
        if negb (String.eqb offsetStr "") then
          let '(offset, err) := strconv.Atoi offsetStr in
          if (if err is Some _ then true else false) || (offset <? 0) then None
          else Some offset
        else Some 0 in
      match offset with
      | None =>
          gin.JSON http.StatusBadRequest (gin.H "error" "Invalid offset value")
      | Some offset =>
          match GetAllEventsWithPagination limit offset db with
          | Err err =>
              gin.JSON http.StatusInternalServerError
                (gin.H "error" ("Error fetching events: " +:+ err))
          | Ok events => gin.JSON http.StatusOK (gin.value events)
          end
      end
  end.

Definition UpdateEvent (ctx : gin.Context Event.t) (db : DB)
  : gin.response Event.t * DB :=
  let '(id, err) := strconv.ParseUint (gin.Param ctx "id") 32 in
  if err is Some _ then
    (gin.JSON http.StatusBadRequest (gin.H "error" "Invalid event ID format"), db)
  else
    match gin.ShouldBindJSON ctx with
    | Err err =>
        (gin.JSON http.StatusBadRequest
           (gin.H "error" ("Invalid JSON payload: " +:+ err)), db)
    | Ok event =>
        if String.eqb (Event.Title event) "" then
          (gin.JSON http.StatusBadRequest
             (gin.H "error" "Event title is required"), db)
        else if Event.DurationMinutes event <=? 0 then
          (gin.JSON http.StatusBadRequest
             (gin.H "error" "Event duration must be greater than zero"), db)
        else
          match EventService.UpdateEvent id event db with
          | (Some err, db) =>
              (gin.JSON http.StatusInternalServerError
                 (gin.H "error" ("Error updating event: " +:+ err)), db)
          | (None, db) =>
              (gin.JSON http.StatusOK
                 (gin.H "message" "Event updated successfully"), db)
          end
    end.

Definition DeleteEvent {A} (ctx : gin.Context A) (db : DB)
  : gin.response Event.t * DB :=
  let '(id, err) := strconv.ParseUint (gin.Param ctx "id") 32 in
  if err is Some _ then
    (gin.JSON http.StatusBadRequest (gin.H "error" "Invalid event ID format"), db)
  else
    match EventService.DeleteEvent id db with
    | (Some err, db) =>
        (gin.JSON http.StatusInternalServerError
           (gin.H "error" ("Error deleting event: " +:+ err)), db)
    | (None, db) =>
        (gin.JSON http.StatusOK (gin.H "message" "Event deleted successfully"), db)
    end.

End controller.

End EventController.

Module TimeSlotController.

Import repository store.

Section controller.

Context {DB : Type} {repo : TimeSlotRepository.t DB}.

(** [timeSlot.EventID = uint(eventID)]. *)
Definition withEventID (timeSlot : TimeSlot.t) (eventID : N) : TimeSlot.t :=
  {| TimeSlot.ID := TimeSlot.ID timeSlot;
     TimeSlot.EventID := eventID;
     TimeSlot.StartTime := TimeSlot.StartTime timeSlot;
     TimeSlot.EndTime := TimeSlot.EndTime timeSlot |}.

Definition CreateTimeSlot (ctx : gin.Context TimeSlot.t) (db : DB)
  : gin.response TimeSlot.t * DB :=
  let '(eventID, err) := strconv.ParseUint (gin.Param ctx "id") 32 in
  if err is Some _ then
    (gin.JSON http.StatusBadRequest (gin.H "error" "Invalid event ID format"), db)
  else
    match gin.ShouldBindJSON ctx with
    | Err err =>
        (gin.JSON http.StatusBadRequest
           (gin.H "error" ("Invalid JSON payload: " +:+ err)), db)
    | Ok timeSlot =>
        let timeSlot := withEventID timeSlot eventID in
        match TimeSlotService.CreateTimeSlot timeSlot db with
        | (Err err, db) =>
            (gin.JSON http.StatusInternalServerError
               (gin.H "error" ("Error creating time slot: " +:+ err)), db)
        | (Ok timeSlot, db) =>
            (gin.JSON http.StatusCreated (gin.value timeSlot), db)
        end
    end.

Definition GetTimeSlotsByEvent {A} (ctx : gin.Context A) (db : DB)
  : gin.response (list TimeSlot.t) :=
  let '(eventID, err) := strconv.ParseUint (gin.Param ctx "id") 32 in
  if err is Some _ then
    gin.JSON http.StatusBadRequest (gin.H "error" "Invalid event ID format")
  else
    match TimeSlotService.GetTimeSlotsByEvent eventID db with
    | Err err =>
        gin.JSON http.StatusInternalServerError
          (gin.H "error" ("Error fetching time slots: " +:+ err))
    | Ok timeSlots => gin.JSON http.StatusOK (gin.value timeSlots)
    end.

Definition UpdateTimeSlot (ctx : gin.Context TimeSlot.t) (db : DB)
  : gin.response TimeSlot.t * DB :=
  let '(slotID, err) := strconv.ParseUint (gin.Param ctx "slotId") 32 in
  if err is Some _ then
    (gin.JSON http.StatusBadRequest
       (gin.H "error" "Invalid time slot ID format"), db)
  else
    match gin.ShouldBindJSON ctx with
    | Err err =>
        (gin.JSON http.StatusBadRequest
           (gin.H "error" ("Invalid JSON payload: " +:+ err)), db)
    | Ok timeSlot =>
        match TimeSlotService.UpdateTimeSlot slotID timeSlot db with
        | (Some err, db) =>
            (gin.JSON http.StatusInternalServerError
               (gin.H "error" ("Error updating time slot: " +:+ err)), db)
        | (None, db) =>
            (gin.JSON http.StatusOK
               (gin.H "message" "Time slot updated successfully"), db)
        end
    end.

Definition DeleteTimeSlot {A} (ctx : gin.Context A) (db : DB)
  : gin.response TimeSlot.t * DB :=
  let '(slotID, err) := strconv.ParseUint (gin.Param ctx "slotId") 32 in
  if err is Some _ then
    (gin.JSON http.StatusBadRequest
       (gin.H "error" "Invalid time slot ID format"), db)
  else
    match TimeSlotService.DeleteTimeSlot slotID db with
    | (Some err, db) =>
        (gin.JSON http.StatusInternalServerError
           (gin.H "error" ("Error deleting time slot: " +:+ err)), db)
    | (None, db) =>
        (gin.JSON http.StatusOK
           (gin.H "message" "Time slot deleted successfully"), db)
    end.

End controller.

End TimeSlotController.

Module UserController.

Import repository store.

Section controller.

Context {DB : Type} {repo : UserRepository.t DB}.

Definition CreateUser (ctx : gin.Context User.t) (db : DB)
  : gin.response User.t * DB :=
  match gin.ShouldBindJSON ctx with
  | Err err =>
      (gin.JSON http.StatusBadRequest
         (gin.H "error" ("Invalid JSON payload: " +:+ err)), db)
  | Ok user =>
      match UserService.CreateUser user db with
      | (Err err, db) =>
          (gin.JSON http.StatusInternalServerError
             (gin.H "error" ("Error creating user: " +:+ err)), db)
      | (Ok user, db) => (gin.JSON http.StatusCreated (gin.value user), db)
      end
  end.

Definition GetUser {A} (ctx : gin.Context A) (db : DB) : gin.response User.t :=
  let '(id, err) := strconv.ParseUint (gin.Param ctx "id") 32 in
  if err is Some _ then
    gin.JSON http.StatusBadRequest (gin.H "error" "Invalid user ID format")
  else
    match UserService.GetUser id db with
    | Err err => gin.JSON http.StatusNotFound (gin.H "error" "User not found")
    | Ok user => gin.JSON http.StatusOK (gin.value user)
    end.

Definition GetAllUsers {A} (ctx : gin.Context A) (db : DB)
  : gin.response (list User.t) :=
  match UserService.GetAllUsers db with
  | Err err =>
      gin.JSON http.StatusInternalServerError
        (gin.H "error" ("Error fetching users: " +:+ err))
  | Ok users => gin.JSON http.StatusOK (gin.value users)
  end.

Definition UpdateUser (ctx : gin.Context User.t) (db : DB)
  : gin.response User.t * DB :=
  let '(id, err) := strconv.ParseUint (gin.Param ctx "id") 32 in
  if err is Some _ then
    (gin.JSON http.StatusBadRequest (gin.H "error" "Invalid user ID format"), db)
  else
    match gin.ShouldBindJSON ctx with
    | Err err =>
        (gin.JSON http.StatusBadRequest
           (gin.H "error" ("Invalid JSON payload: " +:+ err)), db)
    | Ok user =>
        match UserService.UpdateUser id user db with
        | (Some err, db) =>
            (gin.JSON http.StatusInternalServerError
               (gin.H "error" ("Error updating user: " +:+ err)), db)
        | (None, db) =>
            (gin.JSON http.StatusOK
               (gin.H "message" "User updated successfully"), db)
        end
    end.

Definition DeleteUser {A} (ctx : gin.Context A) (db : DB)
  : gin.response User.t * DB :=
  let '(id, err) := strconv.ParseUint (gin.Param ctx "id") 32 in
  if err is Some _ then
    (gin.JSON http.StatusBadRequest (gin.H "error" "Invalid user ID format"), db)
  else
    match UserService.DeleteUser id db with
    | (Some err, db) =>
        (gin.JSON http.StatusInternalServerError
           (gin.H "error" ("Error deleting user: " +:+ err)), db)
    | (None, db) =>
        (gin.JSON http.StatusOK (gin.H "message" "User deleted successfully"), db)
    end.

End controller.

End UserController.

Module AvailabilityController.

Import repository store.

Section controller.

Context {DB : Type} {repo : UserAvailabilityRepository.t DB}.

(** [availability.UserID = uint(userID)] and
    [availability.EventID = uint(eventID)]. *)
Definition withIDs (availability : UserAvailability.t) (userID eventID : N)
  : UserAvailability.t :=
  {| UserAvailability.ID := UserAvailability.ID availability;
     UserAvailability.UserID := userID;
     UserAvailability.EventID := eventID;
     UserAvailability.StartTime := UserAvailability.StartTime availability;
     UserAvailability.EndTime := UserAvailability.EndTime availability |}.

Definition CreateAvailability (ctx : gin.Context UserAvailability.t) (db : DB)
  : gin.response UserAvailability.t * DB :=
  let '(userID, err) := strconv.ParseUint (gin.Param ctx "id") 32 in
  if err is Some _ then
    (gin.JSON http.StatusBadRequest (gin.H "error" "Invalid user ID format"), db)
  else
    let '(eventID, err) := strconv.ParseUint (gin.Param ctx "eventId") 32 in
    if err is Some _ then
      (gin.JSON http.StatusBadRequest
         (gin.H "error" "Invalid event ID format"), db)
    else
      match gin.ShouldBindJSON ctx with
      | Err err =>
          (gin.JSON http.StatusBadRequest
             (gin.H "error" ("Invalid JSON payload: " +:+ err)), db)
      | Ok availability =>
          let availability := withIDs availability userID eventID in
          match AvailabilityService.CreateAvailability availability db with
          | (Err err, db) =>
              (gin.JSON http.StatusInternalServerError
                 (gin.H "error" ("Error creating availability: " +:+ err)), db)
          | (Ok availability, db) =>
              (gin.JSON http.StatusCreated (gin.value availability), db)
          end
      end.

Definition GetUserAvailability {A} (ctx : gin.Context A) (db : DB)
  : gin.response (list UserAvailability.t) :=
  let '(userID, err) := strconv.ParseUint (gin.Param ctx "id") 32 in
  if err is Some _ then
    gin.JSON http.StatusBadRequest (gin.H "error" "Invalid user ID format")
  else
    let '(eventID, err) := strconv.ParseUint (gin.Param ctx "eventId") 32 in
    if err is Some _ then
      gin.JSON http.StatusBadRequest (gin.H "error" "Invalid event ID format")
    else
      match AvailabilityService.GetUserAvailability userID eventID db with
      | Err err =>
          gin.JSON http.StatusInternalServerError
            (gin.H "error" ("Error fetching availability: " +:+ err))
      | Ok availabilities => gin.JSON http.StatusOK (gin.value availabilities)
      end.

Definition UpdateAvailability (ctx : gin.Context UserAvailability.t) (db : DB)
  : gin.response UserAvailability.t * DB :=
  let '(availID, err) := strconv.ParseUint (gin.Param ctx "availId") 32 in
  if err is Some _ then
    (gin.JSON http.StatusBadRequest
       (gin.H "error" "Invalid availability ID format"), db)
  else
    match gin.ShouldBindJSON ctx with
    | Err err =>
        (gin.JSON http.StatusBadRequest
           (gin.H "error" ("Invalid JSON payload: " +:+ err)), db)
    | Ok availability =>
        match AvailabilityService.UpdateAvailability availID availability db with
        | (Some err, db) =>
            (gin.JSON http.StatusInternalServerError
               (gin.H "error" ("Error updating availability: " +:+ err)), db)
        | (None, db) =>
            (gin.JSON http.StatusOK
               (gin.H "message" "Availability updated successfully"), db)
        end
    end.

Definition DeleteAvailability {A} (ctx : gin.Context A) (db : DB)
  : gin.response UserAvailability.t * DB :=
  let '(availID, err) := strconv.ParseUint (gin.Param ctx "availId") 32 in
  if err is Some _ then
    (gin.JSON http.StatusBadRequest
       (gin.H "error" "Invalid availability ID format"), db)
  else
    match AvailabilityService.DeleteAvailability availID db with
    | (Some err, db) =>
        (gin.JSON http.StatusInternalServerError
           (gin.H "error" ("Error deleting availability: " +:+ err)), db)
    | (None, db) =>
        (gin.JSON http.StatusOK
           (gin.H "message" "Availability deleted successfully"), db)
    end.

End controller.

End AvailabilityController.

Module RecommendationController.

Import repository.

Section controller.

Context (sort_Slice : GoSort.slice_sorter).
Context {eventRepo : EventRepository}.
Context {timeSlotRepo : TimeSlotRepository}.
Context {availabilityRepo : UserAvailabilityRepository}.

Definition GetRecommendations {A} (ctx : gin.Context A)
  : gin.response (list TimeSlotRecommendation.t) :=
  let '(eventID, err) := strconv.ParseUint (gin.Param ctx "id") 32 in
  if err is Some _ then
    gin.JSON http.StatusBadRequest (gin.H "error" "Invalid event ID format")
  else
    match services.GetRecommendations sort_Slice eventID with
    | Err err =>
        gin.JSON http.StatusInternalServerError
          (gin.H "error" ("Error generating recommendations: " +:+ err))
    | Ok recommendations => gin.JSON http.StatusOK (gin.value recommendations)
    end.

End controller.

End RecommendationController.

(** ** A store with three events

    Event 1: a meeting of 60 minutes, a slot from 10:00 to 12:00, a user
    free from 10:30 to 11:30 and a user free from 10:00 to 12:00; with two
    more slots, one of 30 minutes and one from 16:00 to 17:00 where only the
    second user is free. Event 2 has
    thirteen slots of one hour: both users are free in the last one, one user
    in the others. Event 3 exists, and the fetch of its time slots fails. *)

Module Scenario.

Import GoTime repository.

(** The instant [h]:[m] of the day the instants are counted from. *)
Definition at_ (h m : Z) : Time := (h * 60 + m) * Minute.

Definition event (id : N) : Event.t :=
  {| Event.ID := id; Event.Title := "Planning"; Event.Description := "";
     Event.OrganizerId := 1; Event.DurationMinutes := 60 |}.

Definition slot (id eventID : N) (startTime endTime : Time) : TimeSlot.t :=
  {| TimeSlot.ID := id; TimeSlot.EventID := eventID;
     TimeSlot.StartTime := startTime; TimeSlot.EndTime := endTime |}.

Definition alice : User.t :=
  {| User.ID := 1; User.Name := "Alice"; User.Email := "alice@example.com";
     User.Timezone := "UTC" |}.

Definition bob : User.t :=
  {| User.ID := 2; User.Name := "Bob"; User.Email := "bob@example.com";
     User.Timezone := "UTC" |}.

Definition availability (id userID eventID : N) (startTime endTime : Time)
  : UserAvailability.t :=
  {| UserAvailability.ID := id; UserAvailability.UserID := userID;
     UserAvailability.EventID := eventID;
     UserAvailability.StartTime := startTime;
     UserAvailability.EndTime := endTime |}.

Definition slots1 : list TimeSlot.t :=
  [ slot 1 1 (at_ 10 0) (at_ 12 0);
    slot 2 1 (at_ 14 0) (at_ 14 30);
    slot 3 1 (at_ 16 0) (at_ 17 0) ].

Definition availabilities1 : list UserAvailability.t :=
  [ availability 1 1 1 (at_ 10 30) (at_ 11 30);
    availability 2 2 1 (at_ 10 0) (at_ 12 0);
    availability 3 2 1 (at_ 16 0) (at_ 17 0) ].

(** Thirteen slots of one hour, one a day, from 09:00. *)
Definition slots2 : list TimeSlot.t :=
  (λ k : nat, slot (N.of_nat (S k)) 2 (at_ (24 * Z.of_nat k + 9) 0)
                (at_ (24 * Z.of_nat k + 10) 0)) <$> seq 0 13.

Definition availabilities2 : list UserAvailability.t :=
  [ availability 4 1 2 (at_ 0 0) (at_ (24 * 13) 0);
    availability 5 2 2 (at_ (24 * 12 + 9) 0) (at_ (24 * 12 + 10) 0) ].

#[export] Instance eventRepo : EventRepository := {|
  FindByID id :=
    if decide (id = 1 ∨ id = 2 ∨ id = 3)%N then Ok (event id)
    else Err "record not found"
|}.

#[export] Instance timeSlotRepo : TimeSlotRepository := {|
  FindByEventID eventID :=
    if decide (eventID = 1)%N then Ok slots1
    else if decide (eventID = 2)%N then Ok slots2
    else if decide (eventID = 3)%N then Err "connection refused"
    else Ok []
|}.

#[export] Instance availabilityRepo : UserAvailabilityRepository := {|
  FindByEvent eventID :=
    if decide (eventID = 1)%N then Ok availabilities1
    else if decide (eventID = 2)%N then Ok availabilities2
    else Ok [];
  FindAllUsersByEvent eventID :=
    if decide (eventID = 1 ∨ eventID = 2)%N then Ok [alice; bob] else Ok []
|}.

(** The two recommendations of event 1. *)
Definition rec1 : TimeSlotRecommendation.t :=
  {| TimeSlotRecommendation.TimeSlot := slot 1 1 (at_ 10 0) (at_ 12 0);
     TimeSlotRecommendation.MatchingUsers := [alice; bob];
     TimeSlotRecommendation.NonMatchingUsers := [];
     TimeSlotRecommendation.MatchingPercentage := 100;
     TimeSlotRecommendation.EventDuration := 60;
     TimeSlotRecommendation.StartOptions := [at_ 10 30] |}.

Definition rec3 : TimeSlotRecommendation.t :=
  {| TimeSlotRecommendation.TimeSlot := slot 3 1 (at_ 16 0) (at_ 17 0);
     TimeSlotRecommendation.MatchingUsers := [bob];
     TimeSlotRecommendation.NonMatchingUsers := [alice];
     TimeSlotRecommendation.MatchingPercentage := 50;
     TimeSlotRecommendation.EventDuration := 60;
     TimeSlotRecommendation.StartOptions := [at_ 16 0] |}.

End Scenario.

(** ** A database in memory

    The four tables as lists, in the order of creation. [Create] gives the
    record the next identifier of its table; a lookup that finds nothing
    fails with gorm's "record not found". *)

Module ScenarioStore.

Import GoTime repository store.

Record DB := {
  events : list Event.t;
  timeSlots : list TimeSlot.t;
  users : list User.t;
  availabilities : list UserAvailability.t
}.

Definition empty : DB :=
  {| events := []; timeSlots := []; users := []; availabilities := [] |}.

Definition withEvents (db : DB) (l : list Event.t) : DB :=
  {| events := l; timeSlots := timeSlots db; users := users db;
     availabilities := availabilities db |}.

Definition withTimeSlots (db : DB) (l : list TimeSlot.t) : DB :=
  {| events := events db; timeSlots := l; users := users db;
     availabilities := availabilities db |}.

Definition withUsers (db : DB) (l : list User.t) : DB :=
  {| events := events db; timeSlots := timeSlots db; users := l;
     availabilities := availabilities db |}.

Definition withAvailabilities (db : DB) (l : list UserAvailability.t) : DB :=
  {| events := events db; timeSlots := timeSlots db; users := users db;
     availabilities := l |}.

Definition nextID {A} (l : list A) : N := N.of_nat (S (length l)).

Definition lookup {A} (ID : A → N) (id : N) (l : list A) : result A :=
  match List.find (λ a, ID a =? id)%N l with
  | Some a => Ok a
  | None => Err "record not found"
  end.

Definition eventWithID (event : Event.t) (id : N) : Event.t :=
  {| Event.ID := id; Event.Title := Event.Title event;
     Event.Description := Event.Description event;
     Event.OrganizerId := Event.OrganizerId event;
     Event.DurationMinutes := Event.DurationMinutes event |}.

Definition timeSlotWithID (timeSlot : TimeSlot.t) (id : N) : TimeSlot.t :=
  {| TimeSlot.ID := id; TimeSlot.EventID := TimeSlot.EventID timeSlot;
     TimeSlot.StartTime := TimeSlot.StartTime timeSlot;
     TimeSlot.EndTime := TimeSlot.EndTime timeSlot |}.

Definition userWithID (user : User.t) (id : N) : User.t :=
  {| User.ID := id; User.Name := User.Name user; User.Email := User.Email user;
     User.Timezone := User.Timezone user |}.

Definition availabilityWithID (availability : UserAvailability.t) (id : N)
  : UserAvailability.t :=
  {| UserAvailability.ID := id;
     UserAvailability.UserID := UserAvailability.UserID availability;
     UserAvailability.EventID := UserAvailability.EventID availability;
     UserAvailability.StartTime := UserAvailability.StartTime availability;
     UserAvailability.EndTime := UserAvailability.EndTime availability |}.

Definition replace {A} (ID : A → N) (id : N) (a : A) (l : list A) : list A :=
  (λ b, if (ID b =? id)%N then a else b) <$> l.

Definition remove {A} (ID : A → N) (id : N) (l : list A) : list A :=
  List.filter (λ b, negb (ID b =? id)%N) l.

#[global] Instance eventStore : EventRepository.t DB := {|
  EventRepository.Create event db :=
    let event := eventWithID event (nextID (events db)) in
    (Ok event, withEvents db (events db ++ [event]));
  EventRepository.FindByID id db := lookup Event.ID id (events db);
  EventRepository.FindAll db := Ok (events db);
  EventRepository.Update id event db :=
    (None, withEvents db (replace Event.ID id (eventWithID event id) (events db)));
  EventRepository.Delete id db :=
    (None, withEvents db (remove Event.ID id (events db)))
|}.

#[global] Instance timeSlotStore : TimeSlotRepository.t DB := {|
  TimeSlotRepository.Create timeSlot db :=
    let timeSlot := timeSlotWithID timeSlot (nextID (timeSlots db)) in
    (Ok timeSlot, withTimeSlots db (timeSlots db ++ [timeSlot]));
  TimeSlotRepository.FindByID id db := lookup TimeSlot.ID id (timeSlots db);
  TimeSlotRepository.FindByEventID eventID db :=
    Ok (List.filter (λ slot, TimeSlot.EventID slot =? eventID)%N (timeSlots db));
  TimeSlotRepository.Update id timeSlot db :=
    (None, withTimeSlots db
             (replace TimeSlot.ID id (timeSlotWithID timeSlot id) (timeSlots db)));
  TimeSlotRepository.Delete id db :=
    (None, withTimeSlots db (remove TimeSlot.ID id (timeSlots db)))
|}.

#[global] Instance userStore : UserRepository.t DB := {|
  UserRepository.Create user db :=
    let user := userWithID user (nextID (users db)) in
    (Ok user, withUsers db (users db ++ [user]));
  UserRepository.FindByID id db := lookup User.ID id (users db);
  UserRepository.FindAll db := Ok (users db);
  UserRepository.Update id user db :=
    (None, withUsers db (replace User.ID id (userWithID user id) (users db)));
  UserRepository.Delete id db :=
    (None, withUsers db (remove User.ID id (users db)))
|}.

#[global] Instance availabilityStore : UserAvailabilityRepository.t DB := {|
  UserAvailabilityRepository.Create availability db :=
    let availability :=
      availabilityWithID availability (nextID (availabilities db)) in
    (Ok availability, withAvailabilities db (availabilities db ++ [availability]));
  UserAvailabilityRepository.FindByUserAndEvent userID eventID db :=
    Ok (List.filter (λ a, (UserAvailability.UserID a =? userID)
                          && (UserAvailability.EventID a =? eventID))%N
          (availabilities db));
  UserAvailabilityRepository.Update id availability db :=
    (None, withAvailabilities db
             (replace UserAvailability.ID id (availabilityWithID availability id)
                (availabilities db)));
  UserAvailabilityRepository.Delete id db :=
    (None, withAvailabilities db (remove UserAvailability.ID id (availabilities db)))
|}.

(** A request with the parameters [params] of the path, an empty query
    and the outcome [bound] of binding its body. *)
Definition request {A} (params : list (string * string)) (bound : result A)
  : gin.Context A :=
  {| gin.Param key :=
       match List.find (λ kv, String.eqb kv.1 key) params with
       | Some kv => kv.2
       | None => ""
       end;
     gin.Query key := "";
     gin.ShouldBindJSON := bound |}.

End ScenarioStore.

(** ** A store after deletions

    Two users are listed for every event, as the join of
    [FindAllUsersByEvent] lists a user whose availability records are all
    deleted. Event 5 has one slot from 10:00 to 12:00 and one record, of the
    second user; the other events have the slot and no record. *)

Module ScenarioDeleted.

Import GoTime repository Scenario.

Definition eventRepo : EventRepository := {|
  FindByID id := Ok (event id)
|}.

Definition timeSlotRepo : TimeSlotRepository := {|
  FindByEventID eventID := Ok [slot 1 eventID (at_ 10 0) (at_ 12 0)]
|}.

Definition availabilityRepo : UserAvailabilityRepository := {|
  FindByEvent eventID :=
    if decide (eventID = 5)%N then Ok [availability 1 2 5 (at_ 10 0) (at_ 12 0)]
    else Ok [];
  FindAllUsersByEvent eventID := Ok [alice; bob]
|}.

(** The recommendation of event 5. *)
Definition rec5 : TimeSlotRecommendation.t :=
  {| TimeSlotRecommendation.TimeSlot := slot 1 5 (at_ 10 0) (at_ 12 0);
     TimeSlotRecommendation.MatchingUsers := [bob];
     TimeSlotRecommendation.NonMatchingUsers := [alice];
     TimeSlotRecommendation.MatchingPercentage := 50;
     TimeSlotRecommendation.EventDuration := 60;
     TimeSlotRecommendation.StartOptions :=
       [at_ 10 0; at_ 10 15; at_ 10 30; at_ 10 45; at_ 11 0] |}.

End ScenarioDeleted.

(** ** A store with 25 users

    An event of 60 minutes with one slot from 10:00 to 11:00, and 25 users
    of which the first seven are free in the slot. *)

Module ScenarioRounding.

Import GoTime repository Scenario.

Definition user (id : N) : User.t :=
  {| User.ID := id; User.Name := "User"; User.Email := "user@example.com";
     User.Timezone := "UTC" |}.

Definition users : list User.t := (λ k : nat, user (N.of_nat (S k))) <$> seq 0 25.

Definition availabilities : list UserAvailability.t :=
  (λ k : nat, availability (N.of_nat (S k)) (N.of_nat (S k)) 1
                (at_ 10 0) (at_ 11 0)) <$> seq 0 7.

Definition eventRepo : EventRepository := {|
  FindByID id := Ok (event id)
|}.

Definition timeSlotRepo : TimeSlotRepository := {|
  FindByEventID eventID := Ok [slot 1 eventID (at_ 10 0) (at_ 11 0)]
|}.

Definition availabilityRepo : UserAvailabilityRepository := {|
  FindByEvent eventID := Ok availabilities;
  FindAllUsersByEvent eventID := Ok users
|}.

End ScenarioRounding.

(** * Properties *)

Import GoTime repository services.

(** ** Durations *)

Lemma wrap64_range x : minDuration ≤ wrap64 x ≤ maxDuration.
Proof.
  unfold wrap64, minDuration, maxDuration.
  pose proof (Z.mod_pos_bound (x + 2 ^ 63) (2 ^ 64)). lia.
Qed.

Lemma wrap64_congr x : ∃ k, wrap64 x = x + 2 ^ 64 * k.
Proof.
  exists (- ((x + 2 ^ 63) `div` 2 ^ 64)). unfold wrap64.
  rewrite Z.mod_eq by lia. lia.
Qed.

Lemma wrap64_id x : minDuration ≤ x ≤ maxDuration → wrap64 x = x.
Proof.
  unfold wrap64, minDuration, maxDuration. intros H.
  rewrite Z.mod_small; lia.
Qed.

Lemma Minute_ns : Minute = 60000000000.
Proof. reflexivity. Qed.

Lemma step_ns : mul 15 Minute = 900000000000.
Proof. reflexivity. Qed.

(** The meeting's duration and the offset of the latest start cancel, or
    differ by a whole turn of the 64-bit counter. *)
Lemma maxStartTime_offset durationMinutes :
  mul (neg (of_int durationMinutes)) Minute + meetingDuration durationMinutes ≤ 0.
Proof.
  unfold meetingDuration, mul, neg, of_int. rewrite Minute_ns.
  destruct (wrap64_congr durationMinutes) as [k1 E1].
  destruct (wrap64_congr (- wrap64 durationMinutes)) as [k2 E2].
  destruct (wrap64_congr (wrap64 durationMinutes * 60000000000)) as [k3 E3].
  destruct (wrap64_congr (wrap64 (- wrap64 durationMinutes) * 60000000000)) as [k4 E4].
  pose proof (wrap64_range (wrap64 durationMinutes * 60000000000)) as R3.
  pose proof (wrap64_range (wrap64 (- wrap64 durationMinutes) * 60000000000)) as R4.
  unfold minDuration, maxDuration in *. lia.
Qed.

(** Where the product fits in 64 bits, the meeting's duration is the
    event's number of minutes. *)
Lemma meetingDuration_minutes durationMinutes :
  minDuration ≤ durationMinutes * Minute ≤ maxDuration →
  meetingDuration durationMinutes = durationMinutes * Minute.
Proof.
  intros H. unfold meetingDuration, mul, of_int.
  rewrite (wrap64_id durationMinutes).
  - by apply wrap64_id.
  - rewrite Minute_ns in H. unfold minDuration, maxDuration in *. lia.
Qed.

Lemma Minutes_exact d : (Minutes d == d # 60000000000)%Q.
Proof.
  unfold Minutes. rewrite Minute_ns.
  pose proof (Z.quot_rem' d 60000000000) as E.
  set (q := Z.quot d 60000000000) in *. set (r := Z.rem d 60000000000) in *.
  unfold Qeq, Qplus, Qdiv, Qmult, Qinv, inject_Z. simpl. lia.
Qed.

Lemma float_lt_spec x y : float_lt x y = true ↔ (x < y)%Q.
Proof.
  unfold float_lt. rewrite negb_true_iff, <- not_true_iff_false, Qle_bool_iff.
  split; [apply Qnot_le_lt | apply Qlt_not_le].
Qed.

Lemma tooShort_spec durationMinutes slot :
  tooShort durationMinutes slot = true
  ↔ Sub (TimeSlot.EndTime slot) (TimeSlot.StartTime slot) < durationMinutes * Minute.
Proof.
  unfold tooShort. rewrite float_lt_spec, Minutes_exact, Minute_ns.
  unfold Qlt, inject_Z. simpl. lia.
Qed.

(** ** The availability map *)

Lemma buildAvailabilityMap_from (m : gmap N (list UserAvailability.t))
    allAvailabilities userID :
  foldl (λ availabilityMap avail,
           <[UserAvailability.UserID avail :=
               (availabilityMap !!! UserAvailability.UserID avail) ++ [avail]]>
             availabilityMap)
        m allAvailabilities !!! userID
  = (m !!! userID)
      ++ filter (λ avail, UserAvailability.UserID avail = userID) allAvailabilities.
Proof.
  revert m. induction allAvailabilities as [|avail rest IH]; intros m; simpl.
  - by rewrite app_nil_r.
  - rewrite IH. destruct (decide (UserAvailability.UserID avail = userID)) as [E|NE].
    + rewrite filter_cons_True by done. subst userID.
      by rewrite lookup_total_insert_eq, <- app_assoc.
    + rewrite filter_cons_False by done. by rewrite lookup_total_insert_ne.
Qed.

(** A user's entry of the map holds the user's availabilities, in the order
    of the fetch. *)
Lemma buildAvailabilityMap_lookup allAvailabilities userID :
  buildAvailabilityMap allAvailabilities !!! userID
  = filter (λ avail, UserAvailability.UserID avail = userID) allAvailabilities.
Proof.
  unfold buildAvailabilityMap. rewrite buildAvailabilityMap_from.
  by rewrite lookup_total_empty.
Qed.

Lemma covers_spec startTime endTime avail :
  covers startTime endTime avail = true
  ↔ UserAvailability.StartTime avail ≤ startTime
    ∧ endTime ≤ UserAvailability.EndTime avail.
Proof.
  unfold covers, Before, After.
  rewrite andb_true_iff, !negb_true_iff, !Z.ltb_ge. done.
Qed.

Lemma available_spec allAvailabilities startTime endTime user :
  available (buildAvailabilityMap allAvailabilities) startTime endTime user = true
  ↔ ∃ avail, avail ∈ allAvailabilities
      ∧ UserAvailability.UserID avail = User.ID user
      ∧ UserAvailability.StartTime avail ≤ startTime
      ∧ endTime ≤ UserAvailability.EndTime avail.
Proof.
  unfold available. rewrite buildAvailabilityMap_lookup, existsb_exists.
  split.
  - intros (avail & Hin & Hc). apply list_elem_of_In, list_elem_of_filter in Hin.
    destruct Hin as [Hid Hin]. apply covers_spec in Hc. eauto.
  - intros (avail & Hin & Hid & Hc). exists avail. split.
    + apply list_elem_of_In, list_elem_of_filter. done.
    + by apply covers_spec.
Qed.

(** ** The split of the users *)

Lemma splitUsers_from availabilityMap startTime endTime users acc :
  foldl (λ acc user,
           if available availabilityMap startTime endTime user
           then (acc.1 ++ [user], acc.2)
           else (acc.1, acc.2 ++ [user]))
        acc users
  = (acc.1 ++ filter (λ user, available availabilityMap startTime endTime user) users,
     acc.2 ++ filter (λ user, ¬ available availabilityMap startTime endTime user) users).
Proof.
  revert acc. induction users as [|user rest IH]; intros [mu nmu]; simpl.
  - by rewrite !app_nil_r.
  - rewrite IH.
    destruct (available availabilityMap startTime endTime user) eqn:E; simpl.
    + rewrite filter_cons_True by (by rewrite E).
      rewrite filter_cons_False by (rewrite E; simpl; tauto).
      by rewrite <- app_assoc.
    + rewrite filter_cons_False by (rewrite E; simpl; tauto).
      rewrite filter_cons_True by (rewrite E; simpl; tauto).
      by rewrite <- app_assoc.
Qed.

Lemma splitUsers_filter availabilityMap startTime endTime users :
  splitUsers availabilityMap startTime endTime users
  = (filter (λ user, available availabilityMap startTime endTime user) users,
     filter (λ user, ¬ available availabilityMap startTime endTime user) users).
Proof. unfold splitUsers. by rewrite splitUsers_from. Qed.

Lemma matchingUsersAt_filter availabilityMap users durationMinutes startTime :
  matchingUsersAt availabilityMap users durationMinutes startTime
  = filter (λ user, available availabilityMap startTime
                      (Add startTime (meetingDuration durationMinutes)) user) users.
Proof. unfold matchingUsersAt. by rewrite splitUsers_filter. Qed.

Lemma nonMatchingUsersAt_filter availabilityMap users durationMinutes startTime :
  nonMatchingUsersAt availabilityMap users durationMinutes startTime
  = filter (λ user, ¬ available availabilityMap startTime
                        (Add startTime (meetingDuration durationMinutes)) user) users.
Proof. unfold nonMatchingUsersAt. by rewrite splitUsers_filter. Qed.

Lemma visit_updateBest availabilityMap users durationMinutes b startTime :
  visit availabilityMap users durationMinutes b startTime
  = updateBest b startTime
      (matchingUsersAt availabilityMap users durationMinutes startTime)
      (nonMatchingUsersAt availabilityMap users durationMinutes startTime).
Proof. reflexivity. Qed.

(** The two lists of a start time split the users. *)
Lemma split_partition availabilityMap users durationMinutes startTime :
  matchingUsersAt availabilityMap users durationMinutes startTime
    ++ nonMatchingUsersAt availabilityMap users durationMinutes startTime ≡ₚ users
  ∧ ∀ user,
      user ∈ matchingUsersAt availabilityMap users durationMinutes startTime →
      user ∉ nonMatchingUsersAt availabilityMap users durationMinutes startTime.
Proof.
  rewrite matchingUsersAt_filter, nonMatchingUsersAt_filter. split.
  - apply filter_app_complement.
  - intros user H1 H2. apply list_elem_of_filter in H1, H2. tauto.
Qed.

(** ** The walk of a slot *)

Lemma walkFuel_after startTime maxStartTime :
  maxStartTime < startTime → walkFuel startTime maxStartTime = O.
Proof.
  intros H. unfold walkFuel. rewrite step_ns.
  assert ((maxStartTime - startTime) `div` 900000000000 < 0)
    by (apply Z.div_lt_upper_bound; lia).
  lia.
Qed.

Lemma walkFuel_step startTime maxStartTime :
  startTime ≤ maxStartTime →
  walkFuel startTime maxStartTime
  = S (walkFuel (Add startTime (mul 15 Minute)) maxStartTime).
Proof.
  intros H. unfold walkFuel, Add. rewrite step_ns.
  replace (maxStartTime - (startTime + 900000000000))
    with ((maxStartTime - startTime) + (-1) * 900000000000) by lia.
  rewrite Z.div_add by lia.
  assert (0 ≤ (maxStartTime - startTime) `div` 900000000000)
    by (apply Z.div_pos; lia).
  lia.
Qed.

Lemma startTimes_after startTime maxStartTime :
  maxStartTime < startTime → startTimes startTime maxStartTime = [].
Proof. intros H. unfold startTimes. by rewrite walkFuel_after. Qed.

Lemma startTimes_step startTime maxStartTime :
  startTime ≤ maxStartTime →
  startTimes startTime maxStartTime
  = startTime :: startTimes (Add startTime (mul 15 Minute)) maxStartTime.
Proof.
  intros H. unfold startTimes. rewrite (walkFuel_step _ _ H). simpl.
  f_equal; [lia|]. rewrite <- fmap_S_seq, <- list_fmap_compose.
  apply list_fmap_ext. intros _ k _. simpl. unfold Add. lia.
Qed.

(** With the fuel of [walkFuel], or more, the walk ends by its own test and
    has visited the start times of [startTimes]. *)
Lemma walk_startTimes fuel availabilityMap users durationMinutes maxStartTime startTime b :
  (walkFuel startTime maxStartTime ≤ fuel)%nat →
  walk fuel availabilityMap users durationMinutes maxStartTime startTime b
  = foldl (visit availabilityMap users durationMinutes) b
      (startTimes startTime maxStartTime).
Proof.
  revert startTime b. induction fuel as [|fuel IH]; intros startTime b Hfuel.
  - unfold startTimes. by replace (walkFuel startTime maxStartTime) with O by lia.
  - simpl. unfold After. destruct (Z.ltb_spec maxStartTime startTime) as [Hlt|Hle].
    + by rewrite startTimes_after.
    + rewrite (startTimes_step _ _ Hle). simpl. apply IH.
      rewrite (walkFuel_step _ _ Hle) in Hfuel. lia.
Qed.

Lemma elem_of_startTimes startTime maxStartTime t :
  t ∈ startTimes startTime maxStartTime
  ↔ ∃ k : nat, t = startTime + Z.of_nat k * mul 15 Minute ∧ t ≤ maxStartTime.
Proof.
  unfold startTimes, walkFuel. rewrite step_ns, list_elem_of_fmap.
  split.
  - intros (k & -> & Hk). apply elem_of_seq in Hk. exists k. split; [done|].
    assert (Z.of_nat k ≤ (maxStartTime - startTime) `div` 900000000000) as Hq by lia.
    pose proof (Z.mul_div_le (maxStartTime - startTime) 900000000000). lia.
  - intros (k & -> & Hle). exists k. split; [done|]. apply elem_of_seq.
    assert (Z.of_nat k ≤ (maxStartTime - startTime) `div` 900000000000)
      by (apply Z.div_le_lower_bound; lia).
    lia.
Qed.

Lemma startTimes_increasing startTime maxStartTime :
  StronglySorted Z.lt (startTimes startTime maxStartTime).
Proof.
  unfold startTimes. generalize (walkFuel startTime maxStartTime) as n.
  generalize 0%nat as j. intros j n. revert j.
  induction n as [|n IH]; intros j; simpl; constructor.
  - apply IH.
  - apply Forall_forall. intros t Ht. apply list_elem_of_fmap in Ht.
    destruct Ht as (k & -> & Hk). apply elem_of_seq in Hk.
    rewrite step_ns. lia.
Qed.

(** ** The best option of a walk *)

Section BestOption.

Context (availabilityMap : gmap N (list UserAvailability.t)).
Context (users : list User.t) (durationMinutes : Z).

Local Abbreviation matching := (matchingUsersAt availabilityMap users durationMinutes).
Local Abbreviation nonMatching :=
  (nonMatchingUsersAt availabilityMap users durationMinutes).

Lemma walked_foldl ts :
  walked availabilityMap users durationMinutes ts
         (foldl (visit availabilityMap users durationMinutes) noBest ts).
Proof.
  induction ts as [|t ts IH] using rev_ind.
  - by apply walked_none; [|intros t Ht; inversion Ht].
  - rewrite foldl_app. simpl. rewrite visit_updateBest. unfold updateBest.
    destruct IH as [-> Hnone | before t0 after -> Hpos Hbefore Hafter ->]; simpl.
    + destruct (Nat.ltb_spec 0 (length (matching t))) as [Hlt|Hge].
      * apply (walked_best _ _ _ _ _ ts t []); try done.
        -- intros t' Ht'. rewrite (Hnone t' Ht'). done.
        -- intros t' Ht'. inversion Ht'.
      * rewrite andb_false_r. apply walked_none; [done|].
        intros t' Ht'. apply elem_of_app in Ht' as [Ht'|Ht']; [by apply Hnone|].
        apply list_elem_of_singleton in Ht' as ->.
        destruct (matching t); [done|simpl in Hge; lia].
    + destruct (Nat.ltb_spec (length (matching t0)) (length (matching t))) as [Hlt|Hge].
      * apply (walked_best _ _ _ _ _ (before ++ t0 :: after) t []); try done.
        -- lia.
        -- intros t' Ht'. apply elem_of_app in Ht' as [Ht'|Ht'].
           ++ specialize (Hbefore t' Ht'). lia.
           ++ apply elem_of_cons in Ht' as [->|Ht']; [done|].
              specialize (Hafter t' Ht'). lia.
        -- intros t' Ht'. inversion Ht'.
      * destruct (Nat.eqb_spec (length (matching t)) (length (matching t0))) as [Heq|Hne];
          simpl.
        -- replace (0 <? length (matching t))%nat with true
             by (symmetry; apply Nat.ltb_lt; lia).
           apply (walked_best _ _ _ _ _ before t0 (after ++ [t])); try done.
           ++ by rewrite <- app_assoc.
           ++ intros t' Ht'. apply elem_of_app in Ht' as [Ht'|Ht']; [by apply Hafter|].
              apply list_elem_of_singleton in Ht' as ->. lia.
           ++ rewrite filter_app, (filter_cons_True _ t) by done. done.
        -- apply (walked_best _ _ _ _ _ before t0 (after ++ [t])); try done.
           ++ by rewrite <- app_assoc.
           ++ intros t' Ht'. apply elem_of_app in Ht' as [Ht'|Ht']; [by apply Hafter|].
              apply list_elem_of_singleton in Ht' as ->. lia.
           ++ rewrite filter_app, (filter_cons_False _ t) by done.
              by rewrite filter_nil, app_nil_r.
Qed.

Lemma walkSlot_walked slot :
  walked availabilityMap users durationMinutes
         (slotStartTimes durationMinutes slot)
         (walkSlot availabilityMap users durationMinutes slot).
Proof.
  unfold walkSlot, slotStartTimes. rewrite walk_startTimes by done.
  apply walked_foldl.
Qed.

(** More fuel than [walkFuel] changes nothing: the walk of a slot is the
    whole loop. *)
Lemma walkSlot_fuel slot fuel :
  (walkFuel (TimeSlot.StartTime slot) (maxStartTime durationMinutes slot) ≤ fuel)%nat →
  walk fuel availabilityMap users durationMinutes
       (maxStartTime durationMinutes slot) (TimeSlot.StartTime slot) noBest
  = walkSlot availabilityMap users durationMinutes slot.
Proof.
  intros H. unfold walkSlot. by rewrite !walk_startTimes.
Qed.

(** What a recommendation of a slot holds. *)
Lemma recommendSlot_Some slot r :
  recommendSlot availabilityMap users durationMinutes slot = Some r →
  tooShort durationMinutes slot = false
  ∧ TimeSlotRecommendation.TimeSlot r = slot
  ∧ TimeSlotRecommendation.EventDuration r = durationMinutes
  ∧ TimeSlotRecommendation.MatchingPercentage r
    = matchingPercentage (TimeSlotRecommendation.MatchingUsers r) users
  ∧ ∃ before t after,
      slotStartTimes durationMinutes slot = before ++ t :: after
      ∧ (0 < length (matching t))%nat
      ∧ (∀ t', t' ∈ before → (length (matching t') < length (matching t))%nat)
      ∧ (∀ t', t' ∈ after → (length (matching t') ≤ length (matching t))%nat)
      ∧ TimeSlotRecommendation.MatchingUsers r = matching t
      ∧ TimeSlotRecommendation.NonMatchingUsers r = nonMatching t
      ∧ TimeSlotRecommendation.StartOptions r
        = t :: filter (λ t', length (matching t') = length (matching t)) after.
Proof.
  unfold recommendSlot. destruct (tooShort durationMinutes slot); [done|].
  destruct (walkSlot_walked slot) as [E Hnone | before t after Ets Hpos Hb Ha E];
    rewrite E; simpl; [done|].
  destruct (Nat.eqb_spec (length (matching t)) 0) as [H0|_]; [lia|].
  intros [= <-]. simpl. repeat split; try done.
  exists before, t, after. done.
Qed.

(** A slot is passed over when it is too short or no start time has a
    matching user. *)
Lemma recommendSlot_None slot :
  recommendSlot availabilityMap users durationMinutes slot = None
  ↔ tooShort durationMinutes slot = true
    ∨ ∀ t, t ∈ slotStartTimes durationMinutes slot → matching t = [].
Proof.
  unfold recommendSlot. destruct (tooShort durationMinutes slot); [naive_solver|].
  destruct (walkSlot_walked slot) as [E Hnone | before t after Ets Hpos Hb Ha E];
    rewrite E; simpl.
  - naive_solver.
  - destruct (Nat.eqb_spec (length (matching t)) 0) as [H0|_]; [lia|].
    split; [done|]. intros [?|Hall]; [done|].
    rewrite (Hall t) in Hpos; [simpl in Hpos; lia|].
    rewrite Ets. apply elem_of_app. right. left.
Qed.

End BestOption.

(** ** The final sort *)

Lemma byPercentage_false ri rj :
  byPercentage ri rj = false
  ↔ (TimeSlotRecommendation.MatchingPercentage ri
     <= TimeSlotRecommendation.MatchingPercentage rj)%Q.
Proof.
  unfold byPercentage, float_lt. by rewrite negb_false_iff, Qle_bool_iff.
Qed.

Lemma byPercentage_true ri rj :
  byPercentage ri rj = true
  ↔ (TimeSlotRecommendation.MatchingPercentage rj
     < TimeSlotRecommendation.MatchingPercentage ri)%Q.
Proof. apply float_lt_spec. Qed.

(** [byPercentage] is a [less] the library accepts. *)
Lemma byPercentage_ok : GoSort.less_ok byPercentage.
Proof.
  split.
  - intros x. apply byPercentage_false, Qle_refl.
  - intros x y z. rewrite !byPercentage_true. intros H1 H2.
    by apply Qlt_trans with (TimeSlotRecommendation.MatchingPercentage y).
  - intros x y z. rewrite !byPercentage_false. intros H1 H2.
    by apply Qle_trans with (TimeSlotRecommendation.MatchingPercentage y).
Qed.

(** ** The library's sort

    [sort.Slice], as the Go release implements it, keeps the promise of its
    documentation: for every [less] that the library accepts, the result is
    a rearrangement of the slice, sorted by [less]. *)

Module GoSortCorrect.

Import GoSort.

Section Sorting.

Local Close Scope Z_scope.

Context {A : Type} (less : A → A → bool).
Hypothesis less_is_ok : less_ok less.

Local Abbreviation leq := (GoSort.leq less).
Local Abbreviation rearranged := (@GoSort.rearranged A).
Local Abbreviation sorted_in := (GoSort.sorted_in less).
Local Abbreviation shifting := (GoSort.shifting less).
Local Abbreviation heap_at := (GoSort.heap_at less).
Local Abbreviation extracting := (GoSort.extracting less).
Local Abbreviation pred_ok := (GoSort.pred_ok less).
Local Abbreviation all_in := (@GoSort.all_in A).

Lemma leq_refl x : leq x x.
Proof. apply (less_irrefl _ less_is_ok). Qed.

Lemma leq_trans x y z : leq x y → leq y z → leq x z.
Proof. unfold GoSort.leq. intros Hxy Hyz. by apply (less_neg_trans _ less_is_ok z y x). Qed.

Lemma less_leq x y : less x y = true → leq x y.
Proof.
  unfold GoSort.leq. intros Hxy. destruct (less y x) eqn:Hyx; [|done].
  pose proof (less_trans _ less_is_ok _ _ _ Hxy Hyx) as Hxx.
  by rewrite (less_irrefl _ less_is_ok) in Hxx.
Qed.

Lemma leq_total x y : leq x y ∨ leq y x.
Proof.
  destruct (less x y) eqn:E; [left; by apply less_leq|by right].
Qed.

(** *** Swap *)

Lemma Swap_length (l : list A) i j : length (Swap l i j) = length l.
Proof.
  unfold Swap. repeat case_match; try done. by rewrite !length_insert.
Qed.

Lemma Swap_lookup (l : list A) i j k :
  (i < length l)%nat → (j < length l)%nat →
  Swap l i j !! k
  = if decide (k = i) then l !! j else if decide (k = j) then l !! i else l !! k.
Proof.
  intros Hi Hj. unfold Swap.
  destruct (lookup_lt_is_Some_2 l i Hi) as [x Hx].
  destruct (lookup_lt_is_Some_2 l j Hj) as [y Hy].
  rewrite Hx, Hy.
  destruct (decide (k = i)) as [->|Hki].
  - by rewrite list_lookup_insert_eq by (by rewrite length_insert).
  - rewrite list_lookup_insert_ne by done.
    destruct (decide (k = j)) as [->|Hkj].
    + by rewrite list_lookup_insert_eq.
    + by rewrite list_lookup_insert_ne.
Qed.

Lemma Swap_out (l : list A) i j :
  (length l ≤ i ∨ length l ≤ j)%nat → Swap l i j = l.
Proof.
  intros H. unfold Swap.
  destruct (l !! i) eqn:Ei; [|done]. destruct (l !! j) eqn:Ej; [|done].
  apply lookup_lt_Some in Ei, Ej. lia.
Qed.

Lemma Swap_Permutation (l : list A) i j : Swap l i j ≡ₚ l.
Proof.
  unfold Swap.
  destruct (l !! i) as [x|] eqn:Ei; [|done]. destruct (l !! j) as [y|] eqn:Ej; [|done].
  destruct (decide (i = j)) as [->|Hij].
  - rewrite list_insert_insert_eq. rewrite Ei in Ej. injection Ej as ->.
    by rewrite list_insert_id.
  - apply Permutation_inj. split; [by rewrite !length_insert|].
    exists (λ k, if decide (k = i) then j else if decide (k = j) then i else k).
    split.
    + intros k1 k2. repeat case_decide; lia.
    + intros k. pose proof (lookup_lt_Some _ _ _ Ei). pose proof (lookup_lt_Some _ _ _ Ej).
      destruct (decide (k = i)) as [->|Hki].
      * rewrite list_lookup_insert_eq by (by rewrite length_insert). done.
      * rewrite list_lookup_insert_ne by done.
        destruct (decide (k = j)) as [->|Hkj].
        -- by rewrite list_lookup_insert_eq.
        -- by rewrite list_lookup_insert_ne.
Qed.

(** *** Rearrangements within a range *)

Lemma rearranged_refl a b l : rearranged a b l l.
Proof. split; eauto. Qed.

Lemma rearranged_trans a b l1 l2 l3 :
  rearranged a b l1 l2 → rearranged a b l2 l3 → rearranged a b l1 l3.
Proof.
  intros [L1 O1 I1 P1] [L2 O2 I2 P2]. split.
  - congruence.
  - intros k Hk. by rewrite O2, O1.
  - intros k x Hk Hx. destruct (I2 k x Hk Hx) as (k' & Hk' & Hx'). eauto.
  - by rewrite P2.
Qed.

Lemma rearranged_widen a b a' b' l l' :
  (a' ≤ a)%nat → (b ≤ b')%nat → rearranged a b l l' → rearranged a' b' l l'.
Proof.
  intros Ha Hb [L O I P]. split; [done| |  |done].
  - intros k Hk. apply O. lia.
  - intros k x Hk Hx.
    destruct (decide (a ≤ k < b)%nat) as [Hin|Hout].
    + destruct (I k x Hin Hx) as (k' & Hk' & Hx'). exists k'. split; [lia|done].
    + exists k. split; [done|]. rewrite <- O; [done|lia].
Qed.

Lemma Swap_rearranged a b (l : list A) i j :
  (a ≤ i < b)%nat → (a ≤ j < b)%nat → rearranged a b l (Swap l i j).
Proof.
  intros Hi Hj.
  destruct (decide (i < length l ∧ j < length l)%nat) as [[Li Lj]|Hout].
  - split.
    + apply Swap_length.
    + intros k Hk. rewrite Swap_lookup by done. repeat case_decide; try lia. done.
    + intros k x Hk. rewrite Swap_lookup by done.
      repeat case_decide; subst; eauto.
    + apply Swap_Permutation.
  - rewrite Swap_out by lia. apply rearranged_refl.
Qed.

(** *** Sorted ranges *)

Lemma sorted_in_adjacent a b (l : list A) :
  (b ≤ length l)%nat →
  (∀ i x y, (a ≤ i)%nat → (S i < b)%nat →
            l !! i = Some x → l !! S i = Some y → leq x y) →
  sorted_in a b l.
Proof.
  intros Hb Hadj i j x y Hai Hij Hjb Hx Hy.
  remember (j - i)%nat as d eqn:Hd. revert j y Hij Hjb Hy Hd.
  induction d as [|d IH]; intros j y Hij Hjb Hy Hd.
  - assert (j = i) as -> by lia. rewrite Hx in Hy. injection Hy as ->. apply leq_refl.
  - destruct j as [|j]; [lia|].
    destruct (lookup_lt_is_Some_2 l j) as [z Hz]; [lia|].
    apply leq_trans with z.
    + apply (IH j z); [lia|lia|done|lia].
    + apply (Hadj j z y); [lia|lia|done|done].
Qed.

Lemma sorted_in_Sorted (l : list A) :
  sorted_in 0 (length l) l → IsSorted less l.
Proof.
  unfold IsSorted. induction l as [|x l IH]; intros Hs; [constructor|].
  constructor.
  - apply IH. intros i j y z _ Hij Hj Hy Hz.
    apply (Hs (S i) (S j) y z); simpl in *; [lia|lia|lia|done|done].
  - destruct l as [|y l]; constructor.
    apply (Hs 0%nat 1%nat x y); simpl; [lia|lia|lia|done|done].
Qed.

(** Closes a comparison of two elements of known places from the facts of
    sortedness at hand. *)
Ltac by_sorted :=
  unfold GoSort.sorted_in in *;
  first
    [ apply leq_refl
    | assumption
    | match goal with
      | H : ∀ i j x y, _ → _ → _ → _ !! i = Some x → _ !! j = Some y → leq x y |- leq _ _ =>
          eapply H; [| | |eassumption|eassumption]; lia
      | H : ∀ p q x y, _ → _ → _ !! p = Some x → _ !! q = Some y → leq x y |- leq _ _ =>
          eapply H; [| |eassumption|eassumption]; lia
      end ].

(** *** Insertion sort *)

Lemma insertionSort_shift_spec a i j (l : list A) :
  (a ≤ j ≤ i)%nat → (i < length l)%nat →
  shifting a j i l →
  rearranged a (S i) l (insertionSort_shift less a j l)
  ∧ sorted_in a (S i) (insertionSort_shift less a j l).
Proof.
  revert l. induction j as [|j IH]; intros l Hj Hi [HL HR HX]; simpl.
  - split; [apply rearranged_refl|].
    intros p q x y Hp Hpq Hq. apply HR; lia.
  - destruct (Nat.ltb_spec a (S j)) as [Haj|Haj]; simpl.
    + destruct (Less less l (S j) j) eqn:E.
      * unfold Less in E.
        destruct (l !! S j) as [x|] eqn:Ex; [|done].
        destruct (l !! j) as [y|] eqn:Ey; [|done].
        assert (leq x y) as Hxy by (by apply less_leq).
        destruct (IH (Swap l (S j) j)) as [Hre Hso].
        -- lia.
        -- by rewrite Swap_length.
        -- split.
           ++ intros p q u v Hp Hpq Hq. rewrite !Swap_lookup by lia.
              repeat case_decide; subst; try lia; intros Hu Hv; simplify_eq;
                by_sorted.
           ++ intros p q u v Hp Hpq Hq. rewrite !Swap_lookup by lia.
              repeat case_decide; subst; try lia; intros Hu Hv; simplify_eq;
                by_sorted.
           ++ intros p q u v Hp Hq. rewrite !Swap_lookup by lia.
              repeat case_decide; subst; try lia; intros Hu Hv; simplify_eq;
                by_sorted.
        -- split; [|done].
           apply rearranged_trans with (Swap l (S j) j); [|done].
           apply Swap_rearranged; lia.
      * split; [apply rearranged_refl|].
        unfold Less in E.
        destruct (lookup_lt_is_Some_2 l (S j)) as [x Ex]; [lia|].
        destruct (lookup_lt_is_Some_2 l j) as [y Ey]; [lia|].
        rewrite Ex, Ey in E.
        intros p q u v Hp Hpq Hq Hu Hv.
        destruct (decide (q < S j)%nat); [apply (HL p q); try done; lia|].
        destruct (decide (S j ≤ p)%nat); [apply (HR p q); try done; lia|].
        destruct (decide (q = S j)) as [->|].
        -- simplify_eq. apply leq_trans with y; [|done].
           apply (HL p j); try done; lia.
        -- apply (HX p q); try done; lia.
    + split; [apply rearranged_refl|].
      intros p q u v Hp Hpq Hq. apply HR; lia.
Qed.

Lemma insertionSort_func_spec (l : list A) a b :
  (a ≤ b ≤ length l)%nat →
  rearranged a b l (insertionSort_func less l a b)
  ∧ sorted_in a b (insertionSort_func less l a b).
Proof.
  intros Hab. unfold insertionSort_func.
  destruct (decide (b - (a + 1) = 0)%nat) as [E|E].
  - rewrite E. simpl. split; [apply rearranged_refl|].
    intros i j x y Hi Hij Hj Hx Hy. assert (j = i) as -> by lia.
    simplify_eq. apply leq_refl.
  - assert (∀ n, (a + 1 + n ≤ b)%nat →
              rearranged a b l
                (foldl (λ d i, insertionSort_shift less a i d) l (seq (a + 1) n))
              ∧ sorted_in a (a + 1 + n)
                  (foldl (λ d i, insertionSort_shift less a i d) l (seq (a + 1) n)))
      as Hloop.
    { induction n as [|n IH]; intros Hn.
      - simpl. split; [apply rearranged_refl|].
        intros i j x y Hi Hij Hj Hx Hy. assert (j = i) as -> by lia.
        simplify_eq. apply leq_refl.
      - rewrite seq_S, foldl_app. simpl.
        destruct IH as [Hre Hso]; [lia|].
        set (d := foldl (λ d i, insertionSort_shift less a i d) l (seq (a + 1) n)) in *.
        destruct (insertionSort_shift_spec a (a + 1 + n) (a + 1 + n) d) as [Hre' Hso'].
        + lia.
        + rewrite (rearranged_length _ _ _ _ Hre). lia.
        + split; [done| |].
          * intros p q x y Hp Hpq Hq Hx Hy. assert (q = p) as -> by lia.
            simplify_eq. apply leq_refl.
          * intros; lia.
        + split.
          * apply rearranged_trans with d; [done|].
            apply (rearranged_widen a (S (a + 1 + n))); [lia|lia|done].
          * replace (a + 1 + S n)%nat with (S (a + 1 + n)) by lia. done. }
    destruct (Hloop (b - (a + 1))%nat) as [Hre Hso]; [lia|].
    split; [done|]. by replace (a + 1 + (b - (a + 1)))%nat with b in Hso by lia.
Qed.

(** *** The two scans of a partition *)

Lemma scanUp_spec fuel (p : nat → bool) i j :
  (j + 1 - i ≤ fuel)%nat →
  (i ≤ scanUp fuel p i j)%nat
  ∧ ((i ≤ j + 1)%nat → (scanUp fuel p i j ≤ j + 1)%nat)
  ∧ (∀ k, (i ≤ k < scanUp fuel p i j)%nat → p k = true)
  ∧ ((scanUp fuel p i j ≤ j)%nat → p (scanUp fuel p i j) = false).
Proof.
  revert i. induction fuel as [|fuel IH]; intros i Hfuel; simpl.
  - repeat split; try (intros; lia).
  - destruct (Nat.leb_spec i j) as [Hij|Hij]; simpl.
    + destruct (p i) eqn:E.
      * destruct (IH (i + 1)%nat) as (H1 & H2 & H3 & H4); [lia|].
        repeat split; try lia.
        -- intros k Hk. destruct (decide (k = i)) as [->|]; [done|]. apply H3. lia.
        -- done.
      * repeat split; try lia. done.
    + repeat split; try (intros; lia).
Qed.

Lemma scanDown_spec fuel (p : nat → bool) i j :
  (1 ≤ i)%nat →
  (j + 1 - i ≤ fuel)%nat →
  (scanDown fuel p i j ≤ j)%nat
  ∧ ((i ≤ j + 1)%nat → (i ≤ scanDown fuel p i j + 1)%nat)
  ∧ (∀ k, (scanDown fuel p i j < k ≤ j)%nat → p k = true)
  ∧ ((i ≤ scanDown fuel p i j)%nat → p (scanDown fuel p i j) = false).
Proof.
  intros Hi. revert j. induction fuel as [|fuel IH]; intros j Hfuel; simpl.
  - repeat split; try (intros; lia).
  - destruct (Nat.leb_spec i j) as [Hij|Hij]; simpl.
    + destruct (p j) eqn:E.
      * destruct (IH (j - 1)%nat) as (H1 & H2 & H3 & H4); [lia|].
        repeat split; try lia.
        -- intros k Hk. destruct (decide (k = j)) as [->|]; [done|]. apply H3. lia.
        -- done.
      * repeat split; try lia. done.
    + repeat split; try (intros; lia).
Qed.

Lemma Less_lookup (l : list A) i j x y :
  l !! i = Some x → l !! j = Some y → Less less l i j = less x y.
Proof. intros Hx Hy. unfold Less. by rewrite Hx, Hy. Qed.

(** *** Partition *)

Lemma partition_loop_spec fuel (d : list A) a b i j p :
  (a + 1 ≤ i)%nat → (j < b)%nat → (b ≤ length d)%nat → (i ≤ j + 1)%nat →
  (j + 1 - i ≤ fuel)%nat →
  d !! a = Some p →
  (∀ k x, (a + 1 ≤ k < i)%nat → d !! k = Some x → less x p = true) →
  (∀ k x, (j < k < b)%nat → d !! k = Some x → less x p = false) →
  ∃ d' j',
    partition_loop less fuel d a i j = (d', j')
    ∧ rearranged (a + 1) b d d'
    ∧ (a ≤ j' < b)%nat
    ∧ (∀ k x, (a + 1 ≤ k ≤ j')%nat → d' !! k = Some x → less x p = true)
    ∧ (∀ k x, (j' < k < b)%nat → d' !! k = Some x → less x p = false).
Proof.
  revert d i j. induction fuel as [|fuel IH];
    intros d i j Hi Hj Hb Hij Hfuel Hp Hlo Hhi.
  - simpl. exists d, j. split; [done|]. split; [apply rearranged_refl|].
    split; [lia|]. split; [|done].
    intros k x Hk. apply Hlo. lia.
  - simpl.
    destruct (scanUp_spec (length d) (λ i, Less less d i a) i j)
      as (U1 & U2 & U3 & U4); [lia|].
    set (i' := scanUp (length d) (λ i, Less less d i a) i j) in *.
    specialize (U2 Hij).
    destruct (scanDown_spec (length d) (λ j, negb (Less less d j a)) i' j)
      as (D1 & D2 & D3 & D4); [lia|lia|].
    set (j' := scanDown (length d) (λ j, negb (Less less d j a)) i' j) in *.
    specialize (D2 U2).
    assert (∀ k x, (a + 1 ≤ k < i')%nat → d !! k = Some x → less x p = true) as Hlo'.
    { intros k x Hk Hx. destruct (decide (k < i)%nat); [apply (Hlo k); [lia|done]|].
      rewrite <- (Less_lookup d k a x p Hx Hp). apply U3. lia. }
    assert (∀ k x, (j' < k < b)%nat → d !! k = Some x → less x p = false) as Hhi'.
    { intros k x Hk Hx. destruct (decide (j < k)%nat); [apply (Hhi k); [lia|done]|].
      rewrite <- (Less_lookup d k a x p Hx Hp).
      apply negb_true_iff. apply D3. lia. }
    destruct (Nat.ltb_spec j' i') as [Hlt|Hge].
    + exists d, j'. split; [done|]. split; [apply rearranged_refl|].
      split; [lia|]. split; [|done].
      intros k x Hk. apply Hlo'. lia.
    + assert (Less less d i' a = false) as Ei by (apply U4; lia).
      assert (Less less d j' a = true) as Ej.
      { apply negb_false_iff, D4. lia. }
      assert (i' ≠ j') as Hne by (intros E; rewrite E in Ei; congruence).
      destruct (lookup_lt_is_Some_2 d i') as [xi Hxi]; [lia|].
      destruct (lookup_lt_is_Some_2 d j') as [xj Hxj]; [lia|].
      rewrite (Less_lookup d i' a xi p Hxi Hp) in Ei.
      rewrite (Less_lookup d j' a xj p Hxj Hp) in Ej.
      destruct (IH (Swap d i' j') (i' + 1)%nat (j' - 1)%nat)
        as (d' & j'' & E & Hre & Hj'' & Hlo'' & Hhi'').
      * lia.
      * lia.
      * by rewrite Swap_length.
      * lia.
      * lia.
      * rewrite Swap_lookup by lia. repeat case_decide; try lia. done.
      * intros k x Hk. rewrite Swap_lookup by lia.
        repeat case_decide; subst; try lia.
        -- intros Hx. by simplify_eq.
        -- apply Hlo'. lia.
      * intros k x Hk. rewrite Swap_lookup by lia.
        repeat case_decide; subst; try lia.
        -- intros Hx. by simplify_eq.
        -- apply Hhi'. lia.
      * exists d', j''. split; [done|]. split; [|done].
        apply rearranged_trans with (Swap d i' j'); [|done].
        apply Swap_rearranged; lia.
Qed.

Lemma partition_func_spec (l : list A) a b pivot p :
  (a < b)%nat → (b ≤ length l)%nat → (a ≤ pivot < b)%nat →
  l !! pivot = Some p →
  ∃ l' mid already,
    partition_func less l a b pivot = (l', mid, already)
    ∧ rearranged a b l l'
    ∧ (a ≤ mid < b)%nat
    ∧ l' !! mid = Some p
    ∧ (∀ k x, (a ≤ k < mid)%nat → l' !! k = Some x → less x p = true)
    ∧ (∀ k x, (mid < k < b)%nat → l' !! k = Some x → less x p = false).
Proof.
  intros Hab Hb Hpivot Hp. unfold partition_func. cbv zeta.
  set (d := Swap l a pivot).
  assert (rearranged a b l d) as Hd by (apply Swap_rearranged; lia).
  assert (length d = length l) as Ld by apply Swap_length.
  assert (d !! a = Some p) as Hpa.
  { unfold d. rewrite Swap_lookup by lia. by rewrite decide_True. }
  destruct (scanUp_spec (length d) (λ i, Less less d i a) (a + 1) (b - 1))
    as (U1 & U2 & U3 & U4); [lia|].
  set (i' := scanUp (length d) (λ i, Less less d i a) (a + 1) (b - 1)) in *.
  assert (i' ≤ b - 1 + 1)%nat as U2' by (apply U2; lia). clear U2.
  destruct (scanDown_spec (length d) (λ j, negb (Less less d j a)) i' (b - 1))
    as (D1 & D2 & D3 & D4); [lia|lia|].
  set (j' := scanDown (length d) (λ j, negb (Less less d j a)) i' (b - 1)) in *.
  specialize (D2 U2').
  assert (∀ k x, (a + 1 ≤ k < i')%nat → d !! k = Some x → less x p = true) as Hlo.
  { intros k x Hk Hx. rewrite <- (Less_lookup d k a x p Hx Hpa). apply U3. lia. }
  assert (∀ k x, (j' < k < b)%nat → d !! k = Some x → less x p = false) as Hhi.
  { intros k x Hk Hx. rewrite <- (Less_lookup d k a x p Hx Hpa).
    apply negb_true_iff. apply D3. lia. }
  assert (∀ (e : list A) m,
            rearranged (a + 1) b d e → (a ≤ m < b)%nat →
            (∀ k x, (a + 1 ≤ k ≤ m)%nat → e !! k = Some x → less x p = true) →
            (∀ k x, (m < k < b)%nat → e !! k = Some x → less x p = false) →
            rearranged a b l (Swap e m a)
            ∧ Swap e m a !! m = Some p
            ∧ (∀ k x, (a ≤ k < m)%nat → Swap e m a !! k = Some x → less x p = true)
            ∧ (∀ k x, (m < k < b)%nat → Swap e m a !! k = Some x → less x p = false))
    as Hfinal.
  { intros e m Hre Hm Hlo' Hhi'.
    assert (length e = length d) as Le by apply (rearranged_length _ _ _ _ Hre).
    assert (e !! a = Some p) as Hea.
    { rewrite (rearranged_outside _ _ _ _ Hre); [done|lia]. }
    split; [|split; [|split]].
    - apply rearranged_trans with d; [done|].
      apply rearranged_trans with e; [by apply (rearranged_widen (a + 1) b); try lia|].
      apply Swap_rearranged; lia.
    - rewrite Swap_lookup by lia. by rewrite decide_True.
    - intros k x Hk. rewrite Swap_lookup by lia.
      repeat case_decide; subst; try lia.
      + intros Hx. apply (Hlo' m); [lia|done].
      + apply Hlo'. lia.
    - intros k x Hk. rewrite Swap_lookup by lia.
      repeat case_decide; subst; try lia. apply Hhi'. lia. }
  destruct (Nat.ltb_spec j' i') as [Hlt|Hge].
  - destruct (Hfinal d j') as (F1 & F2 & F3 & F4).
    + apply rearranged_refl.
    + lia.
    + intros k x Hk. apply Hlo. lia.
    + done.
    + exists (Swap d j' a), j', true. split_and!; try done; lia.
  - assert (Less less d i' a = false) as Ei by (apply U4; lia).
    assert (Less less d j' a = true) as Ej.
    { apply negb_false_iff, D4. lia. }
    assert (i' ≠ j') as Hne by (intros E; rewrite E in Ei; congruence).
    destruct (lookup_lt_is_Some_2 d i') as [xi Hxi]; [lia|].
    destruct (lookup_lt_is_Some_2 d j') as [xj Hxj]; [lia|].
    rewrite (Less_lookup d i' a xi p Hxi Hpa) in Ei.
    rewrite (Less_lookup d j' a xj p Hxj Hpa) in Ej.
    destruct (partition_loop_spec (length (Swap d i' j')) (Swap d i' j') a b
                (i' + 1)%nat (j' - 1)%nat p)
      as (e & m & E & Hre & Hm & Hlo' & Hhi').
    + lia.
    + lia.
    + by rewrite Swap_length, Ld.
    + lia.
    + rewrite Swap_length. lia.
    + rewrite Swap_lookup by lia. repeat case_decide; try lia. done.
    + intros k x Hk. rewrite Swap_lookup by lia.
      repeat case_decide; subst; try lia.
      * intros Hx. by simplify_eq.
      * apply Hlo. lia.
    + intros k x Hk. rewrite Swap_lookup by lia.
      repeat case_decide; subst; try lia.
      * intros Hx. by simplify_eq.
      * apply Hhi. lia.
    + rewrite E.
      destruct (Hfinal e m) as (F1 & F2 & F3 & F4); try done.
      * apply rearranged_trans with (Swap d i' j'); [|done].
        apply Swap_rearranged; lia.
      * exists (Swap e m a), m, false. split_and!; try done; lia.
Qed.

Lemma partitionEqual_loop_spec fuel (d : list A) a b i j p :
  (a + 1 ≤ i)%nat → (j < b)%nat → (b ≤ length d)%nat → (i ≤ j + 1)%nat →
  (j + 1 - i ≤ fuel)%nat →
  d !! a = Some p →
  (∀ k x, (a + 1 ≤ k < i)%nat → d !! k = Some x → less p x = false) →
  (∀ k x, (j < k < b)%nat → d !! k = Some x → less p x = true) →
  ∃ d' mid,
    partitionEqual_loop less fuel d a i j = (d', mid)
    ∧ rearranged (a + 1) b d d'
    ∧ (a + 1 ≤ mid ≤ b)%nat
    ∧ (∀ k x, (a + 1 ≤ k < mid)%nat → d' !! k = Some x → less p x = false)
    ∧ (∀ k x, (mid ≤ k < b)%nat → d' !! k = Some x → less p x = true).
Proof.
  revert d i j. induction fuel as [|fuel IH];
    intros d i j Hi Hj Hb Hij Hfuel Hp Hlo Hhi.
  - simpl. exists d, i. split; [done|]. split; [apply rearranged_refl|].
    split; [lia|]. split; [done|].
    intros k x Hk. apply Hhi. lia.
  - simpl.
    destruct (scanUp_spec (length d) (λ i, negb (Less less d a i)) i j)
      as (U1 & U2 & U3 & U4); [lia|].
    set (i' := scanUp (length d) (λ i, negb (Less less d a i)) i j) in *.
    specialize (U2 Hij).
    destruct (scanDown_spec (length d) (λ j, Less less d a j) i' j)
      as (D1 & D2 & D3 & D4); [lia|lia|].
    set (j' := scanDown (length d) (λ j, Less less d a j) i' j) in *.
    specialize (D2 U2).
    assert (∀ k x, (a + 1 ≤ k < i')%nat → d !! k = Some x → less p x = false) as Hlo'.
    { intros k x Hk Hx. destruct (decide (k < i)%nat); [apply (Hlo k); [lia|done]|].
      rewrite <- (Less_lookup d a k p x Hp Hx).
      apply negb_true_iff. apply U3. lia. }
    assert (∀ k x, (j' < k < b)%nat → d !! k = Some x → less p x = true) as Hhi'.
    { intros k x Hk Hx. destruct (decide (j < k)%nat); [apply (Hhi k); [lia|done]|].
      rewrite <- (Less_lookup d a k p x Hp Hx). apply D3. lia. }
    destruct (Nat.ltb_spec j' i') as [Hlt|Hge].
    + exists d, i'. split; [done|]. split; [apply rearranged_refl|].
      split; [lia|]. split; [done|].
      intros k x Hk. apply Hhi'. lia.
    + assert (Less less d a i' = true) as Ei.
      { apply negb_false_iff, U4. lia. }
      assert (Less less d a j' = false) as Ej by (apply D4; lia).
      assert (i' ≠ j') as Hne by (intros E; rewrite E in Ei; congruence).
      destruct (lookup_lt_is_Some_2 d i') as [xi Hxi]; [lia|].
      destruct (lookup_lt_is_Some_2 d j') as [xj Hxj]; [lia|].
      rewrite (Less_lookup d a i' p xi Hp Hxi) in Ei.
      rewrite (Less_lookup d a j' p xj Hp Hxj) in Ej.
      destruct (IH (Swap d i' j') (i' + 1)%nat (j' - 1)%nat)
        as (d' & mid & E & Hre & Hmid & Hlo'' & Hhi'').
      * lia.
      * lia.
      * by rewrite Swap_length.
      * lia.
      * lia.
      * rewrite Swap_lookup by lia. repeat case_decide; try lia. done.
      * intros k x Hk. rewrite Swap_lookup by lia.
        repeat case_decide; subst; try lia.
        -- intros Hx. by simplify_eq.
        -- apply Hlo'. lia.
      * intros k x Hk. rewrite Swap_lookup by lia.
        repeat case_decide; subst; try lia.
        -- intros Hx. by simplify_eq.
        -- apply Hhi'. lia.
      * exists d', mid. split; [done|]. split; [|split; [lia|done]].
        apply rearranged_trans with (Swap d i' j'); [|done].
        apply Swap_rearranged; lia.
Qed.

Lemma partitionEqual_func_spec (l : list A) a b pivot p :
  (a < b)%nat → (b ≤ length l)%nat → (a ≤ pivot < b)%nat →
  l !! pivot = Some p →
  ∃ l' mid,
    partitionEqual_func less l a b pivot = (l', mid)
    ∧ rearranged a b l l'
    ∧ (a < mid ≤ b)%nat
    ∧ (∀ k x, (a ≤ k < mid)%nat → l' !! k = Some x → less p x = false)
    ∧ (∀ k x, (mid ≤ k < b)%nat → l' !! k = Some x → less p x = true).
Proof.
  intros Hab Hb Hpivot Hp. unfold partitionEqual_func. cbv zeta.
  set (d := Swap l a pivot).
  assert (rearranged a b l d) as Hd by (apply Swap_rearranged; lia).
  assert (length d = length l) as Ld by apply Swap_length.
  assert (d !! a = Some p) as Hpa.
  { unfold d. rewrite Swap_lookup by lia. by rewrite decide_True. }
  destruct (partitionEqual_loop_spec (length d) d a b (a + 1)%nat (b - 1)%nat p)
    as (d' & mid & E & Hre & Hmid & Hlo & Hhi); try done; try lia.
  exists d', mid. split; [done|]. split; [|split; [lia|split; [|done]]].
  - apply rearranged_trans with d; [done|].
    by apply (rearranged_widen (a + 1) b); try lia.
  - intros k x Hk Hx. destruct (decide (k = a)) as [->|Hne].
    + rewrite (rearranged_outside _ _ _ _ Hre) in Hx by lia.
      simplify_eq. apply (less_irrefl _ less_is_ok).
    + apply (Hlo k); [lia|done].
Qed.

(** *** The moves before a partition *)

Lemma reverseRange_loop_spec fuel (d : list A) a b i j :
  (a ≤ i)%nat → (j < b)%nat →
  rearranged a b d (reverseRange_loop fuel d i j).
Proof.
  revert d i j. induction fuel as [|fuel IH]; intros d i j Hi Hj; simpl.
  - apply rearranged_refl.
  - destruct (Nat.ltb_spec i j) as [Hlt|Hge]; [|apply rearranged_refl].
    apply rearranged_trans with (Swap d i j).
    + apply Swap_rearranged; lia.
    + apply IH; lia.
Qed.

Lemma reverseRange_func_spec (d : list A) a b :
  (a < b)%nat → rearranged a b d (reverseRange_func d a b).
Proof. intros Hab. apply reverseRange_loop_spec; lia. Qed.

Lemma nextPowerOfTwo_bound n :
  (1 ≤ n)%nat → (0 < nextPowerOfTwo n ≤ 2 * Z.of_nat n)%Z.
Proof.
  intros Hn. unfold nextPowerOfTwo, bitsLen. destruct n as [|n]; [lia|].
  rewrite Nat2Z.inj_succ, Z.pow_succ_r by lia.
  pose proof (Nat.log2_spec (S n)) as [Hlog _]; [lia|].
  apply Nat2Z.inj_le in Hlog. rewrite Nat2Z.inj_pow in Hlog.
  change (Z.of_nat 2) with 2%Z in Hlog.
  assert (0 < 2 ^ Z.of_nat (Nat.log2 (S n)))%Z by (apply Z.pow_pos_nonneg; lia).
  lia.
Qed.

Lemma breakPatterns_func_spec (d : list A) a b :
  (a ≤ b)%nat → rearranged a b d (breakPatterns_func d a b).
Proof.
  intros Hab. unfold breakPatterns_func. cbv zeta.
  destruct (Nat.leb_spec 8 (b - a)) as [Hlen|Hlen]; [|apply rearranged_refl].
  pose proof (nextPowerOfTwo_bound (b - a)) as [Hpos Hle]; [lia|].
  assert (Forall (λ i, i < 3)%nat (seq 0 3)) as Hjs
    by (apply Forall_forall; intros i Hi%elem_of_seq; lia).
  revert Hjs. generalize (seq 0 3) as js.
  change d with (Z.of_nat (b - a), d).2 at 1.
  generalize (Z.of_nat (b - a), d) as st.
  intros st js. revert st. induction js as [|i js IH]; intros st Hjs; cbn [foldl].
  - apply rearranged_refl.
  - apply Forall_cons in Hjs as [Hi Hjs].
    eapply rearranged_trans; [|by apply IH]. cbn [fst snd].
    set (r := Z.land (xorshift_Next st.1) (nextPowerOfTwo (b - a) - 1)).
    assert (0 ≤ r < nextPowerOfTwo (b - a))%Z as Hr.
    { unfold r, nextPowerOfTwo.
      replace (2 ^ Z.of_nat (bitsLen (b - a)) - 1)%Z
        with (Z.ones (Z.of_nat (bitsLen (b - a))))
        by (rewrite Z.ones_equiv; lia).
      rewrite Z.land_ones by lia. apply Z.mod_pos_bound.
      apply Z.pow_pos_nonneg; lia. }
    assert (4 ≤ (b - a) / 4 * 2)%nat as Hq.
    { pose proof (Nat.div_le_lower_bound (b - a) 4 2). lia. }
    assert ((b - a) / 4 * 4 ≤ b - a)%nat
      by (rewrite Nat.mul_comm; apply Nat.Div0.mul_div_le).
    apply Swap_rearranged; [lia|].
    destruct (Nat.leb_spec (b - a) (Z.to_nat r)); lia.
Qed.

Lemma order2_func_spec (d : list A) x y s u v s' :
  order2_func less d x y s = (u, v, s') → (u = x ∧ v = y) ∨ (u = y ∧ v = x).
Proof. unfold order2_func. case_match; intros [= <- <- <-]; tauto. Qed.

Lemma median_func_spec (d : list A) x y z s m s' :
  median_func less d x y z s = (m, s') → m = x ∨ m = y ∨ m = z.
Proof.
  unfold median_func.
  destruct (order2_func less d x y s) as [[x1 y1] s1] eqn:E1.
  destruct (order2_func less d y1 z s1) as [[y2 z2] s2] eqn:E2.
  destruct (order2_func less d x1 y2 s2) as [[x3 y3] s3] eqn:E3.
  intros [= <- <-].
  apply order2_func_spec in E1, E2, E3. lia.
Qed.

Lemma choosePivot_func_spec (d : list A) a b pivot hint :
  (8 ≤ b - a)%nat →
  choosePivot_func less d a b = (pivot, hint) → (a ≤ pivot < b)%nat.
Proof.
  intros Hlen. unfold choosePivot_func. cbv zeta.
  assert ((b - a) / 4 * 4 ≤ b - a)%nat as Hq
    by (rewrite Nat.mul_comm; apply Nat.Div0.mul_div_le).
  assert (2 ≤ (b - a) / 4)%nat as Hq'
    by (apply Nat.div_le_lower_bound; lia).
  destruct (Nat.leb_spec 8 (b - a)) as [_|?]; [|lia].
  destruct (Nat.leb_spec 50 (b - a)) as [Hbig|Hsmall].
  - unfold medianAdjacent_func.
    destruct (median_func less d (a + (b - a) / 4 * 1 - 1) (a + (b - a) / 4 * 1)
                (a + (b - a) / 4 * 1 + 1) 0) as [i s1] eqn:E1.
    destruct (median_func less d (a + (b - a) / 4 * 2 - 1) (a + (b - a) / 4 * 2)
                (a + (b - a) / 4 * 2 + 1) s1) as [j s2] eqn:E2.
    destruct (median_func less d (a + (b - a) / 4 * 3 - 1) (a + (b - a) / 4 * 3)
                (a + (b - a) / 4 * 3 + 1) s2) as [k s3] eqn:E3.
    destruct (median_func less d i j k s3) as [m s4] eqn:E4.
    apply median_func_spec in E1, E2, E3, E4.
    assert (12 ≤ (b - a) / 4)%nat by (apply Nat.div_le_lower_bound; lia).
    repeat case_match; intros [= <- <-]; lia.
  - destruct (median_func less d (a + (b - a) / 4 * 1) (a + (b - a) / 4 * 2)
                (a + (b - a) / 4 * 3) 0) as [m s4] eqn:E4.
    apply median_func_spec in E4.
    repeat case_match; intros [= <- <-]; lia.
Qed.

(** *** Heap sort *)

Lemma siftDown_loop_spec fuel (d : list A) lo root hi first :
  (first + hi ≤ length d)%nat → (lo ≤ root)%nat → (hi - root ≤ fuel)%nat →
  (∀ i, (lo ≤ i < hi)%nat → i ≠ root → heap_at d first hi i) →
  (root ≠ lo →
   ∃ p, (lo ≤ p)%nat ∧ (root = 2 * p + 1 ∨ root = 2 * p + 2)%nat
        ∧ ∀ c x y, (c = 2 * root + 1 ∨ c = 2 * root + 2)%nat → (c < hi)%nat →
                   d !! (first + p)%nat = Some x → d !! (first + c)%nat = Some y →
                   leq y x) →
  rearranged (first + lo) (first + hi) d (siftDown_loop less fuel d root hi first)
  ∧ ∀ i, (lo ≤ i < hi)%nat →
         heap_at (siftDown_loop less fuel d root hi first) first hi i.
Proof.
  revert d root. induction fuel as [|fuel IH]; intros d root Hlen Hroot Hfuel Hheap Hup;
    cbn [siftDown_loop]; cbv zeta.
  - split; [apply rearranged_refl|]. intros i Hi. apply Hheap; lia.
  - destruct (Nat.leb_spec hi (2 * root + 1)) as [Hleaf|Hchild].
    { split; [apply rearranged_refl|]. intros i Hi.
      destruct (decide (i = root)) as [->|Hne]; [|by apply Hheap].
      intros c x y Hc Hchi. lia. }
    set (child := if (2 * root + 1 + 1 <? hi)%nat
                      && Less less d (first + (2 * root + 1))
                           (first + (2 * root + 1) + 1)
                  then (2 * root + 1 + 1)%nat else (2 * root + 1)%nat).
    destruct (lookup_lt_is_Some_2 d (first + root)) as [xr Hxr]; [lia|].
    assert ((child = 2 * root + 1 ∨ child = 2 * root + 2)%nat ∧ (child < hi)%nat
            ∧ ∃ xc, d !! (first + child)%nat = Some xc
                ∧ ∀ c y, (c = 2 * root + 1 ∨ c = 2 * root + 2)%nat → (c < hi)%nat →
                         d !! (first + c)%nat = Some y → leq y xc)
      as (Hchild_is & Hchild_lt & xc & Hxc & Hlargest).
    { unfold child.
      destruct (Nat.ltb_spec (2 * root + 1 + 1) hi) as [H2|H2]; cbn [andb].
      - destruct (lookup_lt_is_Some_2 d (first + (2 * root + 1))) as [x1 Hx1]; [lia|].
        destruct (lookup_lt_is_Some_2 d (first + (2 * root + 1) + 1)) as [x2 Hx2]; [lia|].
        rewrite (Less_lookup d _ _ x1 x2 Hx1 Hx2).
        destruct (less x1 x2) eqn:E.
        + split; [lia|]. split; [lia|]. exists x2.
          replace (first + (2 * root + 1 + 1))%nat with (first + (2 * root + 1) + 1)%nat
            by lia.
          split; [done|]. intros c y [->| ->] Hc Hy.
          * rewrite Hx1 in Hy. injection Hy as <-. by apply less_leq.
          * replace (first + (2 * root + 2))%nat with (first + (2 * root + 1) + 1)%nat
              in Hy by lia.
            rewrite Hx2 in Hy. injection Hy as <-. apply leq_refl.
        + split; [lia|]. split; [lia|]. exists x1. split; [done|].
          intros c y [->| ->] Hc Hy.
          * rewrite Hx1 in Hy. injection Hy as <-. apply leq_refl.
          * replace (first + (2 * root + 2))%nat with (first + (2 * root + 1) + 1)%nat
              in Hy by lia.
            rewrite Hx2 in Hy. by injection Hy as <-.
      - destruct (lookup_lt_is_Some_2 d (first + (2 * root + 1))) as [x1 Hx1]; [lia|].
        split; [lia|]. split; [lia|]. exists x1. split; [done|].
        intros c y [->| ->] Hc Hy; [|lia].
        rewrite Hx1 in Hy. injection Hy as <-. apply leq_refl. }
    rewrite (Less_lookup d _ _ xr xc Hxr Hxc).
    destruct (less xr xc) eqn:E; cbn [negb].
    + destruct (IH (Swap d (first + root) (first + child)) child) as [Hre Hh].
      * by rewrite Swap_length.
      * lia.
      * lia.
      * intros i Hi Hne c x y Hc Hchi.
        rewrite !Swap_lookup by lia.
        destruct (decide (i = root)) as [->|Hiroot].
        -- rewrite decide_True by done.
           intros Hx. rewrite Hxc in Hx. injection Hx as <-.
           destruct (decide (c = child)) as [->|Hcc].
           ++ rewrite decide_False by lia. rewrite decide_True by done.
              intros Hy. rewrite Hxr in Hy. injection Hy as <-. by apply less_leq.
           ++ rewrite decide_False by lia. rewrite decide_False by lia.
              intros Hy. by apply (Hlargest c).
        -- rewrite decide_False by lia. rewrite decide_False by lia.
           intros Hx.
           destruct (decide (c = root)) as [->|Hcroot].
           ++ rewrite decide_True by done. intros Hy.
              rewrite Hxc in Hy. injection Hy as <-.
              destruct Hup as (p & Hp & Hpr & Hgrand); [lia|].
              assert (p = i) as -> by lia.
              by apply (Hgrand child x xc).
           ++ rewrite decide_False by lia.
              rewrite decide_False by lia.
              intros Hy. by apply (Hheap i Hi Hiroot c x y).
      * intros _. exists root. split; [lia|]. split; [lia|].
        intros c x y Hc Hchi. rewrite !Swap_lookup by lia.
        rewrite decide_True by done. rewrite decide_False by lia.
        rewrite decide_False by lia.
        intros Hx Hy. rewrite Hxc in Hx. injection Hx as <-.
        apply (Hheap child ltac:(lia) ltac:(lia) c xc y Hc Hchi Hxc Hy).
      * split; [|done].
        apply rearranged_trans with (Swap d (first + root) (first + child)); [|done].
        apply Swap_rearranged; lia.
    + split; [apply rearranged_refl|]. intros i Hi.
      destruct (decide (i = root)) as [->|Hne]; [|by apply Hheap].
      intros c x y Hc Hchi Hx Hy. rewrite Hxr in Hx. injection Hx as <-.
      apply leq_trans with xc; [by apply (Hlargest c)|done].
Qed.

Lemma child_parent k :
  (1 ≤ k)%nat → ∃ p, (p < k)%nat ∧ (k = 2 * p + 1 ∨ k = 2 * p + 2)%nat.
Proof.
  intros Hk. exists ((k - 1) / 2)%nat.
  pose proof (Nat.div_mod_eq (k - 1) 2) as E.
  pose proof (Nat.mod_upper_bound (k - 1) 2). lia.
Qed.

(** The first element of a heap sorts before none of the others. *)
Lemma heap_root_max (d : list A) first n r :
  (first + n ≤ length d)%nat →
  (∀ k, (k < n)%nat → heap_at d first n k) →
  d !! first = Some r →
  ∀ k x, (k < n)%nat → d !! (first + k)%nat = Some x → leq x r.
Proof.
  intros Hlen Hheap Hr k. induction (lt_wf k) as [k _ IH]. intros x Hk Hx.
  destruct (decide (k = 0)) as [->|Hpos].
  - rewrite Nat.add_0_r, Hr in Hx. injection Hx as <-. apply leq_refl.
  - destruct (child_parent k) as (p & Hp & Hkp); [lia|].
    destruct (lookup_lt_is_Some_2 d (first + p)) as [y Hy]; [lia|].
    apply leq_trans with y.
    + apply (Hheap p ltac:(lia) k y x Hkp Hk Hy Hx).
    + apply (IH p Hp y); [lia|done].
Qed.

Lemma heapSort_build (d : list A) first hi m :
  (first + hi ≤ length d)%nat →
  (∀ k, (m ≤ k < hi)%nat → heap_at d first hi k) →
  rearranged first (first + hi) d
    (foldl (λ d i, siftDown_func less d i hi first) d (reverse (seq 0 m)))
  ∧ ∀ k, (k < hi)%nat →
         heap_at (foldl (λ d i, siftDown_func less d i hi first) d
                    (reverse (seq 0 m))) first hi k.
Proof.
  revert d. induction m as [|m IH]; intros d Hlen Hheap.
  - simpl. split; [apply rearranged_refl|]. intros k Hk. apply Hheap. lia.
  - rewrite seq_S, reverse_app. simpl.
    destruct (siftDown_loop_spec hi d m m hi first) as [Hre Hh]; try done; try lia.
    { intros i Hi Hne. apply Hheap. lia. }
    destruct (IH (siftDown_func less d m hi first)) as [Hre' Hh'].
    + unfold siftDown_func. by rewrite (rearranged_length _ _ _ _ Hre).
    + done.
    + split; [|done].
      apply rearranged_trans with (siftDown_func less d m hi first); [|done].
      apply (rearranged_widen (first + m) (first + hi)); [lia|lia|done].
Qed.

Lemma heapSort_extract (d : list A) first hi n :
  (first + hi ≤ length d)%nat → (n ≤ hi)%nat →
  extracting first hi n d →
  rearranged first (first + hi) d
    (foldl (λ d i, siftDown_func less (Swap d first (first + i)) 0 i first) d
       (reverse (seq 0 n)))
  ∧ sorted_in first (first + hi)
      (foldl (λ d i, siftDown_func less (Swap d first (first + i)) 0 i first) d
         (reverse (seq 0 n))).
Proof.
  revert d. induction n as [|n IH]; intros d Hlen Hn [Hheap Hsorted Hacross].
  - simpl. split; [apply rearranged_refl|].
    by rewrite Nat.add_0_r in Hsorted.
  - rewrite seq_S, reverse_app. simpl.
    set (d1 := Swap d first (first + n)).
    assert (length d1 = length d) as L1 by apply Swap_length.
    assert (rearranged first (first + hi) d d1) as Hre1
      by (apply Swap_rearranged; lia).
    destruct (lookup_lt_is_Some_2 d first) as [r Hr]; [lia|].
    destruct (lookup_lt_is_Some_2 d (first + n)) as [z Hz]; [lia|].
    pose proof (heap_root_max d first (S n) r ltac:(lia) Hheap Hr) as Hmax.
    destruct (siftDown_loop_spec n d1 0 0 n first) as [Hre2 Hh2]; try lia.
    { intros i Hi Hne c x y Hc Hcn. unfold d1. rewrite !Swap_lookup by lia.
      rewrite decide_False by lia. rewrite decide_False by lia.
      rewrite decide_False by lia. rewrite decide_False by lia.
      apply (Hheap i ltac:(lia) c x y Hc ltac:(lia)). }
    fold (siftDown_func less d1 0 n first) in Hre2, Hh2.
    set (d2 := siftDown_func less d1 0 n first) in *.
    rewrite Nat.add_0_r in Hre2.
    assert (length d2 = length d) as L2
      by (rewrite (rearranged_length _ _ _ _ Hre2); done).
    assert (∀ q, (n < q)%nat → d2 !! (first + q)%nat = d !! (first + q)%nat) as Hsame.
    { intros q Hq. rewrite (rearranged_outside _ _ _ _ Hre2) by lia.
      unfold d1. rewrite Swap_lookup by lia.
      rewrite decide_False by lia. by rewrite decide_False by lia. }
    assert (d2 !! (first + n)%nat = Some r) as Hn2.
    { rewrite (rearranged_outside _ _ _ _ Hre2) by lia.
      unfold d1. rewrite Swap_lookup by lia.
      destruct (decide (first + n = first)%nat) as [E|_]; [by rewrite E|].
      by rewrite decide_True by done. }
    assert (∀ p x, (p < n)%nat → d2 !! (first + p)%nat = Some x →
                   ∃ p', (p' < S n)%nat ∧ d !! (first + p')%nat = Some x) as Hfrom.
    { intros p x Hp Hx.
      destruct (rearranged_inside _ _ _ _ Hre2 (first + p)%nat x ltac:(lia) Hx)
        as (k & Hk & Hxk).
      unfold d1 in Hxk. rewrite Swap_lookup in Hxk by lia.
      destruct (decide (k = first)) as [->|Hkf].
      - exists n. split; [lia|done].
      - rewrite decide_False in Hxk by lia.
        exists (k - first)%nat. split; [lia|].
        by replace (first + (k - first))%nat with k by lia. }
    destruct (IH d2) as [Hre3 Hso3].
    + lia.
    + lia.
    + split.
      * intros k Hk. apply Hh2. lia.
      * intros i j x y Hi Hij Hj Hx Hy.
        destruct (decide (i = first + n)%nat) as [->|Hin].
        -- rewrite Hn2 in Hx. injection Hx as <-.
           destruct (decide (j = first + n)%nat) as [->|Hjn].
           ++ rewrite Hn2 in Hy. injection Hy as <-. apply leq_refl.
           ++ replace j with (first + (j - first))%nat in Hy by lia.
              rewrite Hsame in Hy by lia.
              apply (Hacross 0%nat (j - first)%nat r y); [lia|lia| |done].
              by rewrite Nat.add_0_r.
        -- replace i with (first + (i - first))%nat in Hx by lia.
           replace j with (first + (j - first))%nat in Hy by lia.
           rewrite Hsame in Hx, Hy by lia.
           apply (Hsorted (first + (i - first))%nat (first + (j - first))%nat);
             try done; lia.
      * intros p q x y Hp Hq Hx Hy.
        destruct (Hfrom p x Hp Hx) as (p' & Hp' & Hx').
        destruct (decide (q = n)) as [->|Hqn].
        -- rewrite Hn2 in Hy. injection Hy as <-. by apply (Hmax p').
        -- rewrite Hsame in Hy by lia.
           apply (Hacross p' q x y); [lia|lia|done|done].
    + split; [|done].
      apply rearranged_trans with d1; [done|].
      apply rearranged_trans with d2; [|done].
      apply (rearranged_widen first (first + n)); [lia|lia|done].
Qed.

Lemma heapSort_func_spec (d : list A) a b :
  (a ≤ b ≤ length d)%nat →
  rearranged a b d (heapSort_func less d a b)
  ∧ sorted_in a b (heapSort_func less d a b).
Proof.
  intros Hab. unfold heapSort_func. cbv zeta.
  destruct (heapSort_build d a (b - a) ((b - a - 1) / 2 + 1)) as [Hre Hh].
  - lia.
  - intros k Hk c x y Hc Hchi.
    pose proof (Nat.div_mod_eq (b - a - 1) 2) as E.
    pose proof (Nat.mod_upper_bound (b - a - 1) 2). lia.
  - set (d1 := foldl (λ d i, siftDown_func less d i (b - a) a) d
                 (reverse (seq 0 ((b - a - 1) / 2 + 1)))) in *.
    destruct (heapSort_extract d1 a (b - a) (b - a)) as [Hre' Hso].
    + rewrite (rearranged_length _ _ _ _ Hre). lia.
    + lia.
    + split; [done| |].
      * intros i j x y Hi Hij Hj. lia.
      * intros p q x y Hp Hq. lia.
    + replace (a + (b - a))%nat with b in * by lia.
      split; [|done]. by apply rearranged_trans with d1.
Qed.

(** *** The attempt at an insertion sort *)

Lemma pred_ok_rearranged a b (d d' : list A) :
  rearranged a b d d' → pred_ok a b d → pred_ok a b d'.
Proof.
  intros Hre Hpred k x y Ha Hk Hx Hy.
  rewrite (rearranged_outside _ _ _ _ Hre) in Hx by lia.
  destruct (rearranged_inside _ _ _ _ Hre k y Hk Hy) as (k' & Hk' & Hy').
  by apply (Hpred k' x y).
Qed.

Lemma pred_ok_narrow a b b' (d : list A) :
  (b' ≤ b)%nat → pred_ok a b d → pred_ok a b' d.
Proof. intros Hb Hpred k x y Ha Hk. apply Hpred; lia. Qed.

(** With nothing smaller before the range, the shift to the left stops in
    the range, as the shift of the insertion sort does. *)
Lemma shiftLeft_insertionSort_shift a j (d : list A) :
  (a ≤ j)%nat → (j < length d)%nat → pred_ok a (S j) d →
  shiftLeft less j d = insertionSort_shift less a j d.
Proof.
  revert d. induction j as [|j IH]; intros d Haj Hj Hpred; [done|].
  cbn [shiftLeft insertionSort_shift].
  destruct (lookup_lt_is_Some_2 d (S j)) as [x Hx]; [lia|].
  destruct (lookup_lt_is_Some_2 d j) as [y Hy]; [lia|].
  rewrite (Less_lookup d _ _ x y Hx Hy).
  destruct (Nat.ltb_spec a (S j)) as [Hlt|Hge]; cbn [andb].
  - destruct (less x y) eqn:E; [|done]. apply IH; [lia| |].
    + rewrite Swap_length. lia.
    + apply (pred_ok_narrow a (S (S j))); [lia|].
      apply (pred_ok_rearranged a (S (S j)) d); [|done].
      apply Swap_rearranged; lia.
  - assert (a = S j) as -> by lia.
    replace (less x y) with false; [done|]. symmetry.
    apply (Hpred (S j) y x); [lia|lia| |done].
    by replace (S j - 1)%nat with j by lia.
Qed.

Lemma shiftRight_spec fuel j b (d : list A) :
  (1 ≤ j)%nat → rearranged (j - 1) b d (shiftRight less fuel j b d).
Proof.
  revert j d. induction fuel as [|fuel IH]; intros j d Hj; cbn [shiftRight].
  - apply rearranged_refl.
  - destruct (Nat.ltb_spec j b) as [Hlt|Hge]; cbn [andb]; [|apply rearranged_refl].
    destruct (Less less d j (j - 1)); [|apply rearranged_refl].
    apply rearranged_trans with (Swap d j (j - 1)).
    + apply Swap_rearranged; lia.
    + apply (rearranged_widen (j + 1 - 1) b); [lia|lia|]. apply IH. lia.
Qed.

Lemma partialInsertionSort_loop_spec steps (d : list A) a b i :
  (a < b)%nat → (b ≤ length d)%nat → (a + 1 ≤ i ≤ b)%nat →
  sorted_in a i d → pred_ok a b d →
  rearranged a b d (partialInsertionSort_loop less steps d a b i).1
  ∧ ((partialInsertionSort_loop less steps d a b i).2 = true →
     sorted_in a b (partialInsertionSort_loop less steps d a b i).1).
Proof.
  revert d i. induction steps as [|steps IH]; intros d i Hab Hb Hi Hsorted Hpred;
    cbn [partialInsertionSort_loop]; cbv zeta.
  - split; [apply rearranged_refl|done].
  - destruct (scanUp_spec (length d) (λ i, negb (Less less d i (i - 1))) i (b - 1))
      as (U1 & U2 & U3 & U4); [lia|].
    set (i' := scanUp (length d) (λ i, negb (Less less d i (i - 1))) i (b - 1)) in *.
    assert (i' ≤ b)%nat as Hi' by lia. clear U2.
    assert (sorted_in a i' d) as Hsorted'.
    { intros p q x y Hp Hpq Hq Hx Hy.
      assert (sorted_in a i' (take i' d)) as Htake.
      { apply sorted_in_adjacent.
        - rewrite length_take. lia.
        - intros k u v Hk HSk. rewrite !lookup_take_lt by lia. intros Hu Hv.
          destruct (decide (S k < i)%nat) as [Hlt|Hge].
          + apply (Hsorted k (S k)); try done; lia.
          + assert (negb (Less less d (S k) (S k - 1)) = true) as E
              by (apply U3; lia).
            replace (S k - 1)%nat with k in E by lia.
            rewrite (Less_lookup d _ _ v u Hv Hu) in E.
            by apply negb_true_iff in E. }
      apply (Htake p q); try done; by rewrite lookup_take_lt by lia. }
    destruct (Nat.eqb_spec i' b) as [->|Hne]; [split; [apply rearranged_refl|done]|].
    destruct (Nat.ltb_spec (b - a) 50) as [_|Hlong];
      [split; [apply rearranged_refl|done]|].
    assert (Less less d i' (i' - 1) = true) as Eless.
    { apply negb_false_iff, U4. lia. }
    set (d1 := Swap d i' (i' - 1)).
    assert (rearranged a b d d1) as Hre1 by (apply Swap_rearranged; lia).
    assert (length d1 = length d) as L1 by apply Swap_length.
    set (d2 := if (2 <=? i' - a)%nat then shiftLeft less (i' - 1) d1 else d1).
    assert (rearranged a b d1 d2 ∧ sorted_in a i' d2) as [Hre2 Hso2].
    { assert (shifting a (i' - 1) (i' - 1) d1) as Hshifting.
      { split.
        - intros p q x y Hp Hpq Hq. unfold d1. rewrite !Swap_lookup by lia.
          rewrite !decide_False by lia. apply Hsorted'; lia.
        - intros p q x y Hp Hpq Hq Hx Hy. assert (q = p) as -> by lia.
          simplify_eq. apply leq_refl.
        - intros; lia. }
      destruct (insertionSort_shift_spec a (i' - 1) (i' - 1) d1) as [Hre Hso];
        [lia|lia|done|].
      replace (S (i' - 1)) with i' in * by lia.
      unfold d2. destruct (Nat.leb_spec 2 (i' - a)) as [Hfar|Hnear].
      - assert (pred_ok a i' d1) as Hpred1.
        { apply (pred_ok_narrow a b); [lia|].
          by apply (pred_ok_rearranged a b d). }
        rewrite (shiftLeft_insertionSort_shift a); [|lia|lia|].
        + split; [|done]. apply (rearranged_widen a i'); [lia|lia|done].
        + by replace (S (i' - 1)) with i' by lia.
      - split; [apply rearranged_refl|].
        intros p q x y Hp Hpq Hq Hx Hy. assert (q = p) as -> by lia.
        simplify_eq. apply leq_refl. }
    assert (length d2 = length d) as L2
      by (rewrite (rearranged_length _ _ _ _ Hre2); done).
    set (d3 := if (2 <=? b - i')%nat then shiftRight less (length d2) (i' + 1) b d2
               else d2).
    assert (rearranged i' b d2 d3) as Hre3.
    { unfold d3. destruct (2 <=? b - i')%nat; [|apply rearranged_refl].
      pose proof (shiftRight_spec (length d2) (i' + 1) b d2 ltac:(lia)) as H.
      by replace (i' + 1 - 1)%nat with i' in H by lia. }
    assert (rearranged a b d d3) as Hre.
    { apply rearranged_trans with d1; [done|].
      apply rearranged_trans with d2; [done|].
      apply (rearranged_widen i' b); [lia|lia|done]. }
    destruct (IH d3 i') as [Hre' Hso'].
    + done.
    + by rewrite (rearranged_length _ _ _ _ Hre).
    + lia.
    + intros p q x y Hp Hpq Hq.
      rewrite !(rearranged_outside _ _ _ _ Hre3) by lia. apply Hso2; lia.
    + by apply (pred_ok_rearranged a b d).
    + split; [|done]. by apply rearranged_trans with d3.
Qed.

Lemma partialInsertionSort_func_spec (d : list A) a b :
  (a < b)%nat → (b ≤ length d)%nat → pred_ok a b d →
  rearranged a b d (partialInsertionSort_func less d a b).1
  ∧ ((partialInsertionSort_func less d a b).2 = true →
     sorted_in a b (partialInsertionSort_func less d a b).1).
Proof.
  intros Hab Hb Hpred. apply partialInsertionSort_loop_spec; try done; [lia|].
  intros p q x y Hp Hpq Hq Hx Hy. assert (q = p) as -> by lia.
  simplify_eq. apply leq_refl.
Qed.

(** *** The pattern-defeating quicksort *)

Lemma all_in_rearranged a b P (l l' : list A) :
  rearranged a b l l' → all_in a b P l → all_in a b P l'.
Proof.
  intros Hre Hall k x Hk Hx.
  destruct (rearranged_inside _ _ _ _ Hre k x Hk Hx) as (k' & Hk' & Hx').
  by apply (Hall k').
Qed.

Lemma all_in_untouched a b a' b' P (l l' : list A) :
  rearranged a' b' l l' → (b ≤ a' ∨ b' ≤ a)%nat →
  all_in a b P l → all_in a b P l'.
Proof.
  intros Hre Hd Hall k x Hk. rewrite (rearranged_outside _ _ _ _ Hre) by lia.
  by apply Hall.
Qed.

Lemma sorted_in_untouched a b a' b' (l l' : list A) :
  rearranged a' b' l l' → (b ≤ a' ∨ b' ≤ a)%nat →
  sorted_in a b l → sorted_in a b l'.
Proof.
  intros Hre Hd Hs i j x y Hi Hij Hj.
  rewrite !(rearranged_outside _ _ _ _ Hre) by lia. by apply Hs.
Qed.

Lemma sorted_in_join a m b (l : list A) :
  sorted_in a m l → sorted_in m b l →
  (∀ i j x y, (a ≤ i < m)%nat → (m ≤ j < b)%nat →
              l !! i = Some x → l !! j = Some y → leq x y) →
  sorted_in a b l.
Proof.
  intros H1 H2 H3 i j x y Hi Hij Hj Hx Hy.
  destruct (decide (j < m)%nat); [by apply (H1 i j)|].
  destruct (decide (m ≤ i)%nat); [apply (H2 i j); try done; lia|].
  apply (H3 i j); try done; lia.
Qed.

(** Two sorted ranges around a pivot between them are one sorted range. *)
Lemma sorted_in_around a mid b (l : list A) p :
  sorted_in a mid l → sorted_in (mid + 1) b l → l !! mid = Some p →
  all_in a mid (λ x, less x p = true) l →
  all_in (mid + 1) b (λ x, less x p = false) l →
  sorted_in a b l.
Proof.
  intros Hleft Hright Hp Hlt Hge.
  apply (sorted_in_join a mid); [done| |].
  - apply (sorted_in_join mid (mid + 1)); [|done|].
    + intros i j x y Hi Hij Hj Hx Hy. assert (j = i) as -> by lia.
      simplify_eq. apply leq_refl.
    + intros i j x y Hi Hj Hx Hy. assert (i = mid) as -> by lia.
      simplify_eq. by apply (Hge j).
  - intros i j x y Hi Hj Hx Hy.
    apply leq_trans with p; [apply less_leq; by apply (Hlt i)|].
    destruct (decide (j = mid)) as [->|Hne]; [simplify_eq; apply leq_refl|].
    apply (Hge j); [lia|done].
Qed.

Lemma pdqsort_loop_spec fuel (d : list A) a b limit wasBalanced wasPartitioned :
  (b - a < fuel)%nat → (a ≤ b ≤ length d)%nat → pred_ok a b d →
  rearranged a b d (pdqsort_loop less fuel d a b limit wasBalanced wasPartitioned)
  ∧ sorted_in a b (pdqsort_loop less fuel d a b limit wasBalanced wasPartitioned).
Proof.
  revert d a b limit wasBalanced wasPartitioned.
  induction fuel as [|fuel IH];
    intros d a b limit wasBalanced wasPartitioned Hfuel Hab Hpred; [lia|].
  cbn [pdqsort_loop]; cbv zeta.
  destruct (Nat.leb_spec (b - a) 12) as [Hshort|Hlong];
    [by apply insertionSort_func_spec|].
  destruct (Nat.eqb_spec limit 0) as [_|_]; [by apply heapSort_func_spec|].
  destruct (if negb wasBalanced then _ else _) as [d1 limit1] eqn:E1.
  assert (rearranged a b d d1) as Hre1.
  { destruct wasBalanced; simplify_eq/=;
      [apply rearranged_refl|apply breakPatterns_func_spec; lia]. }
  destruct (choosePivot_func less d1 a b) as [pivot hint] eqn:E2.
  pose proof (choosePivot_func_spec d1 a b pivot hint ltac:(lia) E2) as Hpivot.
  destruct (match hint with decreasingHint => _ | _ => _ end)
    as [[d2 pivot2] hint2] eqn:E3.
  assert (rearranged a b d1 d2 ∧ (a ≤ pivot2 < b)%nat) as [Hre2 Hpivot2].
  { destruct hint; simplify_eq/=;
      [split; [apply rearranged_refl|done]..|].
    split; [apply reverseRange_func_spec|]; lia. }
  assert (rearranged a b d d2) as Hre12
    by (by apply rearranged_trans with d1).
  destruct (match hint2 with increasingHint => _ | _ => _ end)
    as [d3 sorted] eqn:E4.
  assert (rearranged a b d2 d3 ∧ (sorted = true → sorted_in a b d3))
    as [Hre3 Hso3].
  { destruct (partialInsertionSort_func_spec d2 a b) as [Hre Hso].
    - lia.
    - rewrite (rearranged_length _ _ _ _ Hre12). lia.
    - by apply (pred_ok_rearranged a b d).
    - destruct hint2; [by simplify_eq; split; [apply rearranged_refl|]| |
                       by simplify_eq; split; [apply rearranged_refl|]].
      destruct (wasBalanced && wasPartitioned);
        [|by simplify_eq; split; [apply rearranged_refl|]].
      rewrite E4 in Hre, Hso. done. }
  assert (rearranged a b d d3) as Hre123
    by (by apply rearranged_trans with d2).
  destruct sorted; [by split; [|apply Hso3]|]. clear Hso3.
  assert (length d3 = length d) as L3 by apply (rearranged_length _ _ _ _ Hre123).
  assert (pred_ok a b d3) as Hpred3 by (by apply (pred_ok_rearranged a b d)).
  destruct (lookup_lt_is_Some_2 d3 pivot2) as [p Hp]; [lia|].
  destruct ((0 <? a)%nat && negb (Less less d3 (a - 1) pivot2)) eqn:Eeq.
  - (* many elements equal to the pivot *)
    apply andb_true_iff in Eeq as [Ha%Nat.ltb_lt Hn%negb_true_iff].
    destruct (lookup_lt_is_Some_2 d3 (a - 1)) as [q Hq]; [lia|].
    rewrite (Less_lookup d3 _ _ q p Hq Hp) in Hn.
    destruct (partitionEqual_func_spec d3 a b pivot2 p)
      as (d4 & mid & E5 & Hre4 & Hmid & Hleft & Hright); [lia|lia|done|done|].
    rewrite E5.
    assert (length d4 = length d) as L4
      by (by rewrite (rearranged_length _ _ _ _ Hre4)).
    assert (pred_ok a b d4) as Hpred4 by (by apply (pred_ok_rearranged a b d3)).
    assert (d4 !! (a - 1)%nat = Some q) as Hq4
      by (by rewrite (rearranged_outside _ _ _ _ Hre4) by lia).
    destruct (IH d4 mid b limit1 wasBalanced wasPartitioned) as [Hre5 Hso5].
    + lia.
    + lia.
    + intros k x y Hmid' Hk Hx Hy.
      assert (less p x = false) as Hpx by (apply (Hleft (mid - 1)%nat); [lia|done]).
      assert (less p y = true) as Hpy by (by apply (Hright k)).
      unfold GoSort.leq. destruct (less y x) eqn:Eyx; [|done].
      by rewrite (less_trans _ less_is_ok _ _ _ Hpy Eyx) in Hpx.
    + split.
      * apply rearranged_trans with d3; [done|].
        apply rearranged_trans with d4; [done|].
        apply (rearranged_widen mid b); [lia|lia|done].
      * apply (sorted_in_join a mid); [|done|].
        -- intros i j x y Hi Hij Hj.
           rewrite !(rearranged_outside _ _ _ _ Hre5) by lia. intros Hx Hy.
           apply leq_trans with p; [by apply (Hleft i); [lia|]|].
           apply leq_trans with q; [done|].
           apply (Hpred4 j); [lia|lia|done|done].
        -- intros i j x y Hi Hj.
           rewrite (rearranged_outside _ _ _ _ Hre5 i) by lia. intros Hx Hy.
           apply leq_trans with p; [by apply (Hleft i); [lia|]|].
           destruct (rearranged_inside _ _ _ _ Hre5 j y Hj Hy) as (j' & Hj' & Hy').
           apply less_leq. by apply (Hright j').
  - clear Eeq.
    destruct (partition_func_spec d3 a b pivot2 p)
      as (d4 & mid & already & E5 & Hre4 & Hmid & Hpm & Hleft & Hright);
      [lia|lia|done|done|].
    rewrite E5.
    assert (length d4 = length d) as L4
      by (by rewrite (rearranged_length _ _ _ _ Hre4)).
    assert (pred_ok a b d4) as Hpred4 by (by apply (pred_ok_rearranged a b d3)).
    assert (all_in a mid (λ x, less x p = true) d4) as Hleft4 by done.
    assert (all_in (mid + 1) b (λ x, less x p = false) d4) as Hright4
      by (intros k x Hk; apply Hright; lia).
    assert (rearranged a b d d4) as Hre1234
      by (by apply rearranged_trans with d3).
    destruct (Nat.ltb_spec (mid - a) (b - mid)) as [_|_].
    + set (wB := (_ <=? _)%nat). clearbody wB.
      destruct (IH d4 a mid limit1 true true) as [Hre5 Hso5];
        [lia|lia|by apply (pred_ok_narrow a b); [lia|]|].
      set (d5 := pdqsort_loop less fuel d4 a mid limit1 true true) in *.
      assert (d5 !! mid = Some p) as Hpm5
        by (by rewrite (rearranged_outside _ _ _ _ Hre5) by lia).
      assert (all_in (mid + 1) b (λ x, less x p = false) d5) as Hright5
        by (apply (all_in_untouched _ _ a mid _ d4); [done|lia|done]).
      destruct (IH d5 (mid + 1)%nat b limit1 wB already) as [Hre6 Hso6].
      * lia.
      * rewrite (rearranged_length _ _ _ _ Hre5). lia.
      * intros k x y _ Hk Hx Hy.
        replace (mid + 1 - 1)%nat with mid in Hx by lia. simplify_eq.
        by apply (Hright5 k).
      * split.
        -- apply rearranged_trans with d4; [done|].
           apply rearranged_trans with d5.
           ++ apply (rearranged_widen a mid); [lia|lia|done].
           ++ apply (rearranged_widen (mid + 1) b); [lia|lia|done].
        -- apply (sorted_in_around a mid b _ p).
           ++ apply (sorted_in_untouched _ _ (mid + 1) b d5); [done|lia|done].
           ++ done.
           ++ by rewrite (rearranged_outside _ _ _ _ Hre6) by lia.
           ++ apply (all_in_untouched _ _ (mid + 1) b _ d5); [done|lia|].
              by apply (all_in_rearranged _ _ _ d4).
           ++ by apply (all_in_rearranged _ _ _ d5).
    + set (wB := (_ <=? _)%nat). clearbody wB.
      destruct (IH d4 (mid + 1)%nat b limit1 true true) as [Hre5 Hso5].
      * lia.
      * lia.
      * intros k x y _ Hk Hx Hy.
        replace (mid + 1 - 1)%nat with mid in Hx by lia. simplify_eq.
        by apply (Hright4 k).
      * set (d5 := pdqsort_loop less fuel d4 (mid + 1) b limit1 true true) in *.
        assert (d5 !! mid = Some p) as Hpm5
          by (by rewrite (rearranged_outside _ _ _ _ Hre5) by lia).
        assert (all_in a mid (λ x, less x p = true) d5) as Hleft5
          by (apply (all_in_untouched _ _ (mid + 1) b _ d4); [done|lia|done]).
        destruct (IH d5 a mid limit1 wB already) as [Hre6 Hso6].
        -- lia.
        -- rewrite (rearranged_length _ _ _ _ Hre5). lia.
        -- apply (pred_ok_narrow a b); [lia|].
           apply (pred_ok_rearranged a b d4); [|done].
           apply (rearranged_widen (mid + 1) b); [lia|lia|done].
        -- split.
           ++ apply rearranged_trans with d4; [done|].
              apply rearranged_trans with d5.
              ** apply (rearranged_widen (mid + 1) b); [lia|lia|done].
              ** apply (rearranged_widen a mid); [lia|lia|done].
           ++ apply (sorted_in_around a mid b _ p).
              ** done.
              ** apply (sorted_in_untouched _ _ a mid d5); [done|lia|done].
              ** by rewrite (rearranged_outside _ _ _ _ Hre6) by lia.
              ** by apply (all_in_rearranged _ _ _ d5).
              ** apply (all_in_untouched _ _ a mid _ d5); [done|lia|].
                 by apply (all_in_rearranged _ _ _ d4).
Qed.

Lemma pdqsort_func_spec (d : list A) a b limit :
  (a ≤ b ≤ length d)%nat → pred_ok a b d →
  rearranged a b d (pdqsort_func less d a b limit)
  ∧ sorted_in a b (pdqsort_func less d a b limit).
Proof. intros Hab Hpred. apply pdqsort_loop_spec; [lia|done|done]. Qed.

(** [sort.Slice] returns a sorted rearrangement of the slice. *)
Lemma Slice_impl_spec (x : list A) :
  Slice_impl less x ≡ₚ x ∧ IsSorted less (Slice_impl less x).
Proof.
  unfold Slice_impl. cbv zeta.
  destruct (pdqsort_func_spec x 0 (length x) (bitsLen (length x))) as [Hre Hso].
  - lia.
  - intros k y z Hlt. lia.
  - split; [apply (rearranged_Permutation _ _ _ _ Hre)|].
    apply sorted_in_Sorted. by rewrite (rearranged_length _ _ _ _ Hre).
Qed.

End Sorting.

(** [sort.Slice] meets its contract. *)
Lemma Slice_meets_spec : Slice_spec Slice.
Proof. intros A less x Hok. by apply Slice_impl_spec. Qed.

End GoSortCorrect.

(** ** The engine *)

Section Engine.

Context (sort_Slice : GoSort.slice_sorter).
Context {eventRepo : EventRepository}.
Context {timeSlotRepo : TimeSlotRepository}.
Context {availabilityRepo : UserAvailabilityRepository}.

(** The engine's result when the four fetches succeed. *)
Lemma GetRecommendations_fetched eventID event timeSlots allAvailabilities users :
  FindByID eventID = Ok event →
  FindByEventID eventID = Ok timeSlots →
  FindByEvent eventID = Ok allAvailabilities →
  FindAllUsersByEvent eventID = Ok users →
  GetRecommendations sort_Slice eventID
  = Ok (sort_Slice _ byPercentage
          (produced (buildAvailabilityMap allAvailabilities) users
                    (Event.DurationMinutes event) timeSlots)).
Proof.
  intros H1 H2 H3 H4. unfold GetRecommendations. by rewrite H1, H2, H3, H4.
Qed.

Lemma elem_of_produced availabilityMap users durationMinutes timeSlots r :
  r ∈ produced availabilityMap users durationMinutes timeSlots
  ↔ ∃ slot, slot ∈ timeSlots
      ∧ recommendSlot availabilityMap users durationMinutes slot = Some r.
Proof. apply list_elem_of_omap. Qed.

Hypothesis sort_Slice_spec : GoSort.Slice_spec sort_Slice.

Lemma sorted_Permutation recs : sort_Slice _ byPercentage recs ≡ₚ recs.
Proof. by apply sort_Slice_spec, byPercentage_ok. Qed.

(** Every recommendation of the result was produced from a time slot. *)
Lemma GetRecommendations_elem eventID event timeSlots allAvailabilities users out r :
  FindByID eventID = Ok event →
  FindByEventID eventID = Ok timeSlots →
  FindByEvent eventID = Ok allAvailabilities →
  FindAllUsersByEvent eventID = Ok users →
  GetRecommendations sort_Slice eventID = Ok out →
  r ∈ out →
  ∃ slot, slot ∈ timeSlots
    ∧ recommendSlot (buildAvailabilityMap allAvailabilities) users
        (Event.DurationMinutes event) slot = Some r.
Proof.
  intros H1 H2 H3 H4 Hout Hr.
  rewrite (GetRecommendations_fetched _ _ _ _ _ H1 H2 H3 H4) in Hout.
  injection Hout as <-. rewrite sorted_Permutation in Hr.
  by apply elem_of_produced.
Qed.

End Engine.

(** ** Helper facts for the claims *)

(** A slot whose span is under the meeting's duration has no recommendation:
    either the length test passes it over, or (where [Sub] saturated) the
    walk has no start time. *)
Lemma recommendSlot_short availabilityMap users durationMinutes slot :
  TimeSlot.EndTime slot - TimeSlot.StartTime slot < durationMinutes * Minute →
  recommendSlot availabilityMap users durationMinutes slot = None.
Proof.
  intros Hshort. apply recommendSlot_None.
  destruct (tooShort durationMinutes slot) eqn:E; [by left|right].
  apply not_true_iff_false in E. rewrite tooShort_spec in E.
  assert (maxStartTime durationMinutes slot < TimeSlot.StartTime slot) as Hlt.
  { unfold maxStartTime, Add, mul at 1.
    pose proof (wrap64_range (neg (of_int durationMinutes) * Minute)) as R.
    unfold Sub, minDuration, maxDuration in *.
    repeat case_match; lia. }
  intros t Ht. unfold slotStartTimes in Ht.
  rewrite (startTimes_after _ _ Hlt) in Ht. inversion Ht.
Qed.

(** Where a slot passes the length test, the meeting's duration is the
    event's number of minutes (for a duration that is not negative). *)
Lemma examined_duration_exact durationMinutes slot :
  tooShort durationMinutes slot = false →
  0 ≤ durationMinutes →
  meetingDuration durationMinutes = durationMinutes * Minute.
Proof.
  intros E Hpos. apply meetingDuration_minutes.
  apply not_true_iff_false in E. rewrite tooShort_spec in E.
  rewrite Minute_ns in *. unfold Sub, minDuration, maxDuration in *.
  repeat case_match; lia.
Qed.

Lemma Sorted_lookup_adjacent {A} (R : A → A → Prop) l i a b :
  Sorted R l → l !! i = Some a → l !! S i = Some b → R a b.
Proof.
  intros Hs. revert i. induction Hs as [|x l Hs IH Hhd]; intros i Ha Hb; [done|].
  destruct i as [|i]; simpl in *.
  - injection Ha as ->. destruct Hhd as [|y l' Hxy]; simpl in *; [done|].
    by injection Hb as ->.
  - by apply (IH i).
Qed.

Lemma GetRecommendations_Ok_inv sort_Slice `{EventRepository}
    `{TimeSlotRepository} `{UserAvailabilityRepository} eventID out :
  GetRecommendations sort_Slice eventID = Ok out →
  ∃ event timeSlots allAvailabilities users,
    FindByID eventID = Ok event
    ∧ FindByEventID eventID = Ok timeSlots
    ∧ FindByEvent eventID = Ok allAvailabilities
    ∧ FindAllUsersByEvent eventID = Ok users
    ∧ out = sort_Slice _ byPercentage
              (produced (buildAvailabilityMap allAvailabilities) users
                        (Event.DurationMinutes event) timeSlots).
Proof.
  unfold GetRecommendations.
  destruct (FindByID eventID) as [event|]; simpl; [|done].
  destruct (FindByEventID eventID) as [timeSlots|]; simpl; [|done].
  destruct (FindByEvent eventID) as [allAvailabilities|]; simpl; [|done].
  destruct (FindAllUsersByEvent eventID) as [users|]; simpl; [|done].
  intros [= <-]. by exists event, timeSlots, allAvailabilities, users.
Qed.

(** Without users no slot has a recommendation. *)
Lemma produced_no_users availabilityMap durationMinutes timeSlots :
  produced availabilityMap [] durationMinutes timeSlots = [].
Proof.
  unfold produced. induction timeSlots as [|slot rest IH]; simpl; [done|].
  replace (recommendSlot availabilityMap [] durationMinutes slot) with
    (@None TimeSlotRecommendation.t); [done|].
  symmetry. apply recommendSlot_None. destruct (tooShort durationMinutes slot);
    [by left|right]. done.
Qed.

(** A start time up to the latest start of a slot that passes the length
    test leaves room for the event's minutes before the slot's end. *)
Lemma latest_start_exact durationMinutes slot t :
  tooShort durationMinutes slot = false →
  t ≤ maxStartTime durationMinutes slot →
  t + durationMinutes * Minute ≤ TimeSlot.EndTime slot.
Proof.
  intros E Hle. unfold maxStartTime, Add in Hle.
  destruct (Z_le_gt_dec 0 durationMinutes) as [Hpos|Hneg].
  - rewrite <- (examined_duration_exact _ _ E Hpos).
    pose proof (maxStartTime_offset durationMinutes). lia.
  - revert Hle. unfold mul, neg, of_int. rewrite Minute_ns.
    destruct (wrap64_congr durationMinutes) as [k1 E1].
    destruct (wrap64_congr (- wrap64 durationMinutes)) as [k2 E2].
    destruct (wrap64_congr (wrap64 (- wrap64 durationMinutes) * 60000000000))
      as [k4 E4].
    pose proof (wrap64_range (wrap64 (- wrap64 durationMinutes) * 60000000000)) as R4.
    unfold minDuration, maxDuration in *. lia.
Qed.


(** ** [sort.Slice] on a short slice

    Up to twelve elements the library's [sort.Slice] is its insertion sort,
    which only ever swaps two neighbours of which the later sorts before the
    earlier. Elements of which none sorts before another therefore keep their
    order. *)

Section ShortSlices.

Context {A : Type} (less : A → A → bool).
Context (P : A → Prop) `{∀ x, Decision (P x)}.
Hypothesis P_unordered : ∀ x y, P x → P y → less x y = false.

Lemma Swap_adjacent_filter (data : list A) j :
  GoSort.Less less data (S j) j = true →
  filter P (GoSort.Swap data (S j) j) = filter P data.
Proof.
  unfold GoSort.Less, GoSort.Swap.
  destruct (data !! S j) as [x|] eqn:Ex; [|done].
  destruct (data !! j) as [y|] eqn:Ey; [|done].
  intros Hless.
  apply list_elem_of_split_length in Ey as (pre & rest & -> & ->).
  rewrite lookup_app_r in Ex by lia.
  replace (S (length pre) - length pre)%nat with 1%nat in Ex by lia.
  destruct rest as [|x' post]; [done|]. simpl in Ex. injection Ex as ->.
  rewrite (insert_app_r_alt _ _ (length pre)) by lia.
  rewrite Nat.sub_diag. simpl.
  rewrite insert_app_r_alt by lia.
  replace (S (length pre) - length pre)%nat with 1%nat by lia. simpl.
  rewrite !filter_app, !filter_cons.
  destruct (decide (P x)) as [Hx|Hx], (decide (P y)) as [Hy|Hy]; try done.
  by rewrite (P_unordered x y Hx Hy) in Hless.
Qed.

Lemma insertionSort_shift_filter a j (data : list A) :
  filter P (GoSort.insertionSort_shift less a j data) = filter P data.
Proof.
  revert data. induction j as [|j IH]; intros data; simpl; [done|].
  destruct ((a <? S j)%nat && GoSort.Less less data (S j) j) eqn:E; [|done].
  apply andb_true_iff in E as [_ E].
  by rewrite IH, Swap_adjacent_filter.
Qed.

Lemma insertionSort_func_filter (data : list A) a b :
  filter P (GoSort.insertionSort_func less data a b) = filter P data.
Proof.
  unfold GoSort.insertionSort_func.
  generalize (seq (a + 1) (b - (a + 1))) as js. intros js. revert data.
  induction js as [|j js IH]; intros data; simpl; [done|].
  by rewrite IH, insertionSort_shift_filter.
Qed.

End ShortSlices.

Lemma Slice_short {A} (less : A → A → bool) (x : list A) :
  (length x ≤ 12)%nat →
  GoSort.Slice A less x = GoSort.insertionSort_func less x 0 (length x).
Proof.
  intros Hlen. unfold GoSort.Slice, GoSort.Slice_impl, GoSort.pdqsort_func.
  rewrite Nat.sub_0_r. cbn [GoSort.pdqsort_loop]. rewrite Nat.sub_0_r.
  by destruct (Nat.leb_spec (length x) 12); [|lia].
Qed.

Lemma filter_none {A} (P : A → Prop) `{∀ x, Decision (P x)} (l : list A) :
  (∀ x, x ∈ l → ¬ P x) → filter P l = [].
Proof.
  induction l as [|x l IH]; intros Hnot; [done|].
  rewrite filter_cons_False by (apply Hnot; left).
  apply IH. intros y Hy. apply Hnot. by right.
Qed.

(** ** The arithmetic of [float64] *)

Module Float64Facts.

Import float64.
Local Open Scope Q_scope.

Lemma pow2_pos k : 0 < 2 ^ k.
Proof. by apply Qpower_0_lt. Qed.

Lemma pow2_plus a b : 2 ^ (a + b) == 2 ^ a * 2 ^ b.
Proof. by apply Qpower_plus. Qed.

Lemma pow2_le a b : (a ≤ b)%Z → 2 ^ a <= 2 ^ b.
Proof. intros H. by apply Qpower_le_compat_l. Qed.

Lemma pow2_lt_inv a b : 2 ^ a < 2 ^ b → (a < b)%Z.
Proof. intros H. by apply (Qpower_lt_compat_l_inv 2). Qed.

Lemma pow2_Z k : (0 ≤ k)%Z → inject_Z (2 ^ k) == 2 ^ k.
Proof. intros H. by rewrite Zpower_Qpower. Qed.

Lemma exponent_spec x :
  0 < x → 2 ^ exponent x <= x ∧ x < 2 ^ (exponent x + 1).
Proof.
  intros Hpos. destruct x as [n d]. unfold exponent. cbn [Qnum Qden].
  assert (0 < n)%Z as Hn.
  { unfold Qlt in Hpos. simpl in Hpos. lia. }
  pose proof (Z.log2_spec n Hn) as [Hn1 Hn2].
  pose proof (Z.log2_spec (Z.pos d) (Pos2Z.is_pos d)) as [Hd1 Hd2].
  pose proof (Z.log2_nonneg n) as Ha.
  pose proof (Z.log2_nonneg (Z.pos d)) as Hb.
  set (a := Z.log2 n) in *. set (b := Z.log2 (Z.pos d)) in *.
  assert (n # d == inject_Z n / inject_Z (Z.pos d)) as Hx
    by apply Qmake_Qdiv.
  set (x := n # d) in *.
  assert (0 < inject_Z (Z.pos d)) as HD.
  { change 0 with (inject_Z 0). by rewrite <- Zlt_Qlt. }
  assert (x * inject_Z (Z.pos d) == inject_Z n) as Hxd.
  { rewrite Hx. field. intros E. rewrite E in HD. by apply Qlt_irrefl in HD. }
  rewrite Zle_Qle in Hn1, Hd1. rewrite Zlt_Qlt in Hn2, Hd2.
  rewrite pow2_Z in Hn1, Hn2, Hd1, Hd2 by (unfold Z.succ; lia).
  unfold Z.succ in *.
  destruct (Qle_bool (2 ^ (a - b)) x) eqn:E.
  - apply Qle_bool_iff in E. split; [exact E|].
    assert (2 ^ (a + 1) == 2 ^ (a - b + 1) * 2 ^ b) as Hp.
    { rewrite <- pow2_plus. by replace (a - b + 1 + b)%Z with (a + 1)%Z by lia. }
    pose proof (pow2_pos (a - b + 1)) as HP. pose proof (pow2_pos b) as HB.
    set (P := 2 ^ (a - b + 1)) in *. set (B := 2 ^ b) in *.
    set (D := inject_Z (Z.pos d)) in *. set (N := inject_Z n) in *.
    rewrite Hp in Hn2. nra.
  - assert (¬ 2 ^ (a - b) <= x) as E'.
    { intros H. apply Qle_bool_iff in H. congruence. }
    apply Qnot_le_lt in E'.
    replace (a - b - 1 + 1)%Z with (a - b)%Z by lia. split; [|exact E'].
    assert (2 ^ a == 2 ^ (a - b - 1) * 2 ^ (b + 1)) as Hp.
    { rewrite <- pow2_plus. by replace (a - b - 1 + (b + 1))%Z with a by lia. }
    pose proof (pow2_pos (a - b - 1)) as HP. pose proof (pow2_pos (b + 1)) as HB.
    set (P := 2 ^ (a - b - 1)) in *. set (B := 2 ^ (b + 1)) in *.
    set (D := inject_Z (Z.pos d)) in *. set (N := inject_Z n) in *.
    rewrite Hp in Hn1. nra.
Qed.

Lemma exponent_unique x k :
  0 < x → 2 ^ k <= x → x < 2 ^ (k + 1) → exponent x = k.
Proof.
  intros Hpos Hle Hlt. destruct (exponent_spec x Hpos) as [Hle' Hlt'].
  assert (2 ^ k < 2 ^ (exponent x + 1)) as H1%pow2_lt_inv
    by (eapply Qle_lt_trans; eassumption).
  assert (2 ^ exponent x < 2 ^ (k + 1)) as H2%pow2_lt_inv
    by (eapply Qle_lt_trans; eassumption).
  lia.
Qed.

Lemma exponent_comp x y : 0 < x → x == y → exponent x = exponent y.
Proof.
  intros Hpos Heq. symmetry.
  destruct (exponent_spec x Hpos) as [Hle Hlt].
  apply exponent_unique; by rewrite <- Heq.
Qed.

Lemma exponent_mono x y : 0 < x → x <= y → (exponent x ≤ exponent y)%Z.
Proof.
  intros Hpos Hle.
  destruct (exponent_spec x Hpos) as [Hx _].
  destruct (exponent_spec y) as [_ Hy]; [by eapply Qlt_le_trans|].
  assert (2 ^ exponent x < 2 ^ (exponent y + 1)) as H%pow2_lt_inv.
  { eapply Qle_lt_trans; [exact Hx|]. by eapply Qle_lt_trans. }
  lia.
Qed.

(** *** The nearest integer *)

Lemma nearestEven_floor x :
  (Qfloor x ≤ nearestEven x ≤ Qfloor x + 1)%Z.
Proof.
  unfold nearestEven.
  destruct (Qcompare _ _); [destruct (Z.even _)|..]; lia.
Qed.

Lemma nearestEven_near x :
  x - (1 # 2) <= inject_Z (nearestEven x)
  ∧ inject_Z (nearestEven x) <= x + (1 # 2).
Proof.
  pose proof (Qfloor_le x) as H1. pose proof (Qlt_floor x) as H2.
  rewrite inject_Z_plus in H2. change (inject_Z 1) with 1 in H2.
  unfold nearestEven.
  destruct (Qcompare_spec (x - inject_Z (Qfloor x)) (1 # 2)) as [E|E|E];
    [destruct (Z.even _)|..];
    rewrite ?inject_Z_plus; change (inject_Z 1) with 1; lra.
Qed.

Lemma nearestEven_Z k : nearestEven (inject_Z k) = k.
Proof.
  unfold nearestEven. rewrite Qfloor_Z.
  destruct (Qcompare_spec (inject_Z k - inject_Z k) (1 # 2)) as [E|E|E];
    [lra|done|lra].
Qed.

Lemma nearestEven_comp x y : x == y → nearestEven x = nearestEven y.
Proof.
  intros Heq. unfold nearestEven.
  rewrite (Qfloor_comp _ _ Heq).
  by rewrite (Qcompare_comp _ _ (Qminus_comp _ _ Heq _ _ (Qeq_refl _))
                _ _ (Qeq_refl (1 # 2))).
Qed.

Lemma nearestEven_mono x y : x <= y → (nearestEven x ≤ nearestEven y)%Z.
Proof.
  intros Hle. pose proof (Qfloor_resp_le _ _ Hle) as Hf.
  destruct (Z.eq_dec (Qfloor x) (Qfloor y)) as [E|E].
  - unfold nearestEven. rewrite E.
    destruct (Qcompare_spec (x - inject_Z (Qfloor y)) (1 # 2)) as [E1|E1|E1];
      destruct (Qcompare_spec (y - inject_Z (Qfloor y)) (1 # 2)) as [E2|E2|E2];
      try destruct (Z.even _); try lia; lra.
  - pose proof (nearestEven_floor x). pose proof (nearestEven_floor y). lia.
Qed.

(** *** Rounding *)

Lemma scaled_range x :
  0 < x →
  2 ^ 52 <= x * 2 ^ (52 - exponent x) ∧ x * 2 ^ (52 - exponent x) < 2 ^ 53.
Proof.
  intros Hpos. destruct (exponent_spec x Hpos) as [Hle Hlt].
  set (e := exponent x) in *.
  assert (2 ^ 52 == 2 ^ e * 2 ^ (52 - e)) as ->.
  { rewrite <- pow2_plus. by replace (e + (52 - e))%Z with 52%Z by lia. }
  assert (2 ^ 53 == 2 ^ (e + 1) * 2 ^ (52 - e)) as ->.
  { rewrite <- pow2_plus. by replace (e + 1 + (52 - e))%Z with 53%Z by lia. }
  pose proof (pow2_pos (52 - e)). split.
  - by apply Qmult_le_compat_r; [|apply Qlt_le_weak].
  - by apply Qmult_lt_compat_r.
Qed.

Lemma significand_range x :
  0 < x →
  (2 ^ 52 ≤ nearestEven (x * 2 ^ (52 - exponent x)) ≤ 2 ^ 53)%Z.
Proof.
  intros Hpos. destruct (scaled_range x Hpos) as [Hle Hlt].
  set (s := x * 2 ^ (52 - exponent x)) in *.
  pose proof (nearestEven_floor s) as [H1 H2].
  rewrite <- pow2_Z in Hle, Hlt by lia.
  apply Qfloor_resp_le in Hle. rewrite Qfloor_Z in Hle.
  pose proof (Qfloor_le s) as Hf.
  assert (inject_Z (Qfloor s) < inject_Z (2 ^ 53)) as Hlt'
    by (by eapply Qle_lt_trans).
  rewrite <- Zlt_Qlt in Hlt'. lia.
Qed.

Lemma roundPos_eq x :
  roundPos x
  == inject_Z (nearestEven (x * 2 ^ (52 - exponent x))) * 2 ^ (exponent x - 52).
Proof. unfold roundPos. apply Qred_correct. Qed.

Lemma unscale x : x * 2 ^ (52 - exponent x) * 2 ^ (exponent x - 52) == x.
Proof.
  rewrite <- Qmult_assoc, <- pow2_plus.
  replace (52 - exponent x + (exponent x - 52))%Z with 0%Z by lia.
  change (2 ^ 0) with 1. ring.
Qed.

Lemma roundPos_binade x :
  0 < x → 2 ^ exponent x <= roundPos x ∧ roundPos x <= 2 ^ (exponent x + 1).
Proof.
  intros Hpos. rewrite roundPos_eq.
  destruct (significand_range x Hpos) as [H1 H2].
  rewrite Zle_Qle in H1, H2. rewrite pow2_Z in H1, H2 by lia.
  set (e := exponent x) in *.
  assert (2 ^ e == 2 ^ 52 * 2 ^ (e - 52)) as ->.
  { rewrite <- pow2_plus. by replace (52 + (e - 52))%Z with e by lia. }
  assert (2 ^ (e + 1) == 2 ^ 53 * 2 ^ (e - 52)) as ->.
  { rewrite <- pow2_plus. by replace (53 + (e - 52))%Z with (e + 1)%Z by lia. }
  pose proof (pow2_pos (e - 52)).
  split; by apply Qmult_le_compat_r; [|apply Qlt_le_weak].
Qed.

Lemma roundPos_pos x : 0 < x → 0 < roundPos x.
Proof.
  intros Hpos. destruct (roundPos_binade x Hpos) as [H _].
  eapply Qlt_le_trans; [apply pow2_pos|exact H].
Qed.

Lemma roundPos_mono x y : 0 < x → x <= y → roundPos x <= roundPos y.
Proof.
  intros Hpos Hle.
  assert (0 < y) as Hpos' by (by eapply Qlt_le_trans).
  pose proof (exponent_mono x y Hpos Hle) as He.
  destruct (Z.eq_dec (exponent x) (exponent y)) as [E|E].
  - rewrite !roundPos_eq, E.
    pose proof (pow2_pos (exponent y - 52)).
    pose proof (pow2_pos (52 - exponent y)).
    apply Qmult_le_compat_r; [|by apply Qlt_le_weak].
    rewrite <- Zle_Qle. apply nearestEven_mono.
    by apply Qmult_le_compat_r; [|apply Qlt_le_weak].
  - destruct (roundPos_binade x Hpos) as [_ H1].
    destruct (roundPos_binade y Hpos') as [H2 _].
    eapply Qle_trans; [exact H1|]. eapply Qle_trans; [|exact H2].
    apply pow2_le. lia.
Qed.

Lemma roundPos_comp x y : 0 < x → x == y → roundPos x = roundPos y.
Proof.
  intros Hpos Heq. unfold roundPos.
  rewrite <- (exponent_comp x y Hpos Heq).
  apply Qred_complete.
  rewrite (nearestEven_comp (x * 2 ^ (52 - exponent x))
             (y * 2 ^ (52 - exponent x))); [reflexivity|].
  apply Qmult_comp; [exact Heq|reflexivity].
Qed.

(** The relative error of one rounding is [eps] at most. *)
Lemma roundPos_near x :
  0 < x → (1 - eps) * x <= roundPos x ∧ roundPos x <= (1 + eps) * x.
Proof.
  intros Hpos. rewrite roundPos_eq.
  destruct (exponent_spec x Hpos) as [Hle _].
  pose proof (unscale x) as Hx.
  set (e := exponent x) in *. set (s := x * 2 ^ (52 - e)) in *.
  destruct (nearestEven_near s) as [H1 H2].
  assert (2 ^ (e - 52) == 2 ^ e * (1 # 4503599627370496)) as Hp.
  { replace (e - 52)%Z with (e + - 52)%Z by lia. by rewrite pow2_plus. }
  pose proof (pow2_pos e) as HE.
  set (E := 2 ^ e) in *. set (m := inject_Z (nearestEven s)) in *.
  rewrite Hp in *. unfold eps. split; nra.
Qed.

(** An integer of 53 bits is a [float64]. *)
Lemma roundPos_Z n :
  (0 < n < 2 ^ 53)%Z → roundPos (inject_Z n) == inject_Z n.
Proof.
  intros [Hpos Hlt]. rewrite roundPos_eq.
  assert (0 < inject_Z n) as Hpos'.
  { change 0 with (inject_Z 0). by rewrite <- Zlt_Qlt. }
  destruct (exponent_spec _ Hpos') as [Hle _].
  set (e := exponent (inject_Z n)) in *.
  assert (e < 53)%Z as He.
  { apply pow2_lt_inv. eapply Qle_lt_trans; [exact Hle|].
    rewrite <- pow2_Z by lia. by rewrite <- Zlt_Qlt. }
  rewrite (nearestEven_comp _ (inject_Z (n * 2 ^ (52 - e)))).
  2: { rewrite inject_Z_mult, pow2_Z by lia. reflexivity. }
  rewrite nearestEven_Z, inject_Z_mult, pow2_Z by lia.
  rewrite <- Qmult_assoc, <- pow2_plus.
  replace (52 - e + (e - 52))%Z with 0%Z by lia.
  change (2 ^ 0) with 1. ring.
Qed.

Lemma round_pos_eq x : 0 < x → round x = roundPos x.
Proof. intros H. unfold round. apply Qgt_alt in H. by rewrite H. Qed.

Lemma round_zero x : x == 0 → round x = 0.
Proof. intros H. unfold round. apply Qeq_alt in H. by rewrite H. Qed.

Lemma round_pos x : 0 < x → 0 < round x.
Proof. intros H. rewrite round_pos_eq by done. by apply roundPos_pos. Qed.

Lemma round_comp x y : x == y → round x = round y.
Proof.
  intros Heq. unfold round. rewrite <- (Qcompare_comp _ _ Heq _ _ (Qeq_refl 0)).
  destruct (Qcompare_spec x 0) as [E|E|E]; [done|..].
  - f_equal. apply roundPos_comp; [lra|]. by rewrite Heq.
  - by apply roundPos_comp.
Qed.

Lemma round_mono x y : 0 <= x → x <= y → round x <= round y.
Proof.
  intros Hx Hle. destruct (Qlt_le_dec 0 x) as [Hpos|Hzero].
  - rewrite !round_pos_eq by lra. by apply roundPos_mono.
  - rewrite (round_zero x) by lra. destruct (Qlt_le_dec 0 y) as [Hy|Hy].
    + apply Qlt_le_weak. by apply round_pos.
    + rewrite (round_zero y) by lra. lra.
Qed.

Lemma round_nonneg x : 0 <= x → 0 <= round x.
Proof. intros H. apply (round_mono 0 x); [lra|done]. Qed.

Lemma round_near x :
  0 < x → (1 - eps) * x <= round x ∧ round x <= (1 + eps) * x.
Proof. intros H. rewrite round_pos_eq by done. by apply roundPos_near. Qed.

Lemma of_int_exact n : (0 ≤ n < 2 ^ 53)%Z → of_int n == inject_Z n.
Proof.
  intros [H0 H]. unfold of_int. destruct (Z.eq_dec n 0%Z) as [->|Hn]; [done|].
  assert (0 < inject_Z n).
  { change 0 with (inject_Z 0). rewrite <- Zlt_Qlt. lia. }
  rewrite round_pos_eq by done. apply roundPos_Z. lia.
Qed.

Lemma of_int_pos n : (0 < n)%Z → 0 < of_int n.
Proof.
  intros H. apply round_pos. change 0 with (inject_Z 0). by rewrite <- Zlt_Qlt.
Qed.

Lemma of_int_mono m n : (0 ≤ m ≤ n)%Z → of_int m <= of_int n.
Proof.
  intros [H0 H]. apply round_mono.
  - change 0 with (inject_Z 0). by rewrite <- Zle_Qle.
  - by rewrite <- Zle_Qle.
Qed.

Lemma div_le_1 x y : 0 <= x → 0 < y → x <= y → div x y <= 1.
Proof.
  intros Hx Hy Hle. unfold div. change 1 with (round 1).
  apply round_mono.
  - apply Qle_shift_div_l; lra.
  - apply Qle_shift_div_r; lra.
Qed.

Lemma div_pos x y : 0 < x → 0 < y → 0 < div x y.
Proof.
  intros Hx Hy. apply round_pos. apply Qlt_shift_div_l; lra.
Qed.

Lemma div_mono x x' y : 0 <= x → x <= x' → 0 < y → div x y <= div x' y.
Proof.
  intros Hx Hle Hy. unfold div.
  assert (0 < / y) by (by apply Qinv_lt_0_compat).
  apply round_mono.
  - apply Qle_shift_div_l; lra.
  - unfold Qdiv. apply Qmult_le_compat_r; lra.
Qed.

Lemma mul_100_mono x y : 0 <= x → x <= y → mul x 100 <= mul y 100.
Proof. intros Hx Hle. apply round_mono; lra. Qed.

End Float64Facts.

(** ** Percentages *)

Section Percentage.

Import float64 Float64Facts.
Local Open Scope Q_scope.

Lemma matchingPercentage_bounds (matching users : list User.t) :
  (0 < length matching ≤ length users)%nat →
  0 < matchingPercentage matching users
  ∧ matchingPercentage matching users <= 100.
Proof.
  intros [Hpos Hle]. unfold matchingPercentage.
  pose proof (of_int_pos (Z.of_nat (length matching)) ltac:(lia)) as Ha.
  pose proof (of_int_pos (Z.of_nat (length users)) ltac:(lia)) as Hb.
  pose proof (of_int_mono (Z.of_nat (length matching))
                (Z.of_nat (length users)) ltac:(lia)) as Hab.
  pose proof (div_pos _ _ Ha Hb) as Hq.
  pose proof (div_le_1 _ _ (Qlt_le_weak _ _ Ha) Hb Hab) as Hq1.
  split.
  - apply round_pos. lra.
  - change 100 with (round 100) at 2. apply round_mono; lra.
Qed.

Lemma matchingPercentage_mono (matching1 matching2 users : list User.t) :
  (0 < length users)%nat →
  (length matching1 ≤ length matching2)%nat →
  matchingPercentage matching1 users <= matchingPercentage matching2 users.
Proof.
  intros Hpos Hle. unfold matchingPercentage.
  pose proof (of_int_pos (Z.of_nat (length users)) ltac:(lia)) as Hb.
  pose proof (of_int_mono 0%Z (Z.of_nat (length matching1)) ltac:(lia)) as H0.
  pose proof (of_int_mono (Z.of_nat (length matching1))
                (Z.of_nat (length matching2)) ltac:(lia)) as H12.
  change (of_int 0%Z) with 0 in H0.
  apply mul_100_mono; [|by apply div_mono].
  apply round_nonneg. apply Qle_shift_div_l; lra.
Qed.

Lemma matchingPercentage_all (matching users : list User.t) :
  (0 < length users)%nat →
  length matching = length users →
  matchingPercentage matching users = 100.
Proof.
  intros Hpos Hlen. unfold matchingPercentage. rewrite Hlen.
  pose proof (of_int_pos (Z.of_nat (length users)) ltac:(lia)) as Hb.
  unfold div at 1. rewrite (round_comp _ 1) by (field; lra). done.
Qed.

Lemma matchingPercentage_not_all (matching users : list User.t) :
  (length matching < length users)%nat →
  (Z.of_nat (length users) < 2 ^ 53)%Z →
  matchingPercentage matching users < 100.
Proof.
  intros Hlt Hsmall. unfold matchingPercentage.
  set (a := Z.of_nat (length matching)). set (b := Z.of_nat (length users)).
  assert (0 ≤ a < b)%Z as Hab by lia.
  assert (div (of_int a) (of_int b) <= 1 - eps) as Hq.
  { unfold div. rewrite (round_comp _ (inject_Z a / inject_Z b)).
    2: { by rewrite !of_int_exact by lia. }
    change (1 - eps) with (round (1 - eps)).
    assert (0 < inject_Z b) as Hb.
    { change 0 with (inject_Z 0). rewrite <- Zlt_Qlt. lia. }
    assert (0 <= inject_Z a) as Ha.
    { change 0 with (inject_Z 0). rewrite <- Zle_Qle. lia. }
    assert (inject_Z a + 1 <= inject_Z b) as Hab'.
    { change 1 with (inject_Z 1). rewrite <- inject_Z_plus, <- Zle_Qle. lia. }
    assert (inject_Z b < inject_Z (2 ^ 53)) as Hb' by (rewrite <- Zlt_Qlt; lia).
    change (inject_Z (2 ^ 53)) with (/ eps) in Hb'.
    apply round_mono.
    - apply Qle_shift_div_l; lra.
    - apply Qle_shift_div_r; [done|]. unfold eps in *.
      change (/ (1 # 9007199254740992)) with 9007199254740992 in Hb'. nra. }
  assert (0 <= div (of_int a) (of_int b)) as Hq0.
  { unfold div. destruct (Z.eq_dec a 0%Z) as [E|E].
    - rewrite E. change (of_int 0%Z) with 0. rewrite (round_zero _); [lra|].
      unfold Qdiv. ring.
    - apply Qlt_le_weak, div_pos; apply of_int_pos; lia. }
  eapply Qle_lt_trans.
  - apply (round_mono _ ((1 - eps) * 100)); [lra|lra].
  - by vm_compute.
Qed.

Lemma matchingPercentage_near (matching users : list User.t) :
  (0 < length matching ≤ length users)%nat →
  (Z.of_nat (length users) < 2 ^ 53)%Z →
  let exact := 100 * inject_Z (Z.of_nat (length matching))
               / inject_Z (Z.of_nat (length users)) in
  (1 - eps) * (1 - eps) * exact <= matchingPercentage matching users
  ∧ matchingPercentage matching users <= (1 + eps) * (1 + eps) * exact.
Proof.
  intros [Hpos Hle] Hsmall. unfold matchingPercentage.
  set (a := Z.of_nat (length matching)). set (b := Z.of_nat (length users)).
  cbv zeta.
  assert (0 < inject_Z a) as Ha.
  { change 0 with (inject_Z 0). rewrite <- Zlt_Qlt. lia. }
  assert (0 < inject_Z b) as Hb.
  { change 0 with (inject_Z 0). rewrite <- Zlt_Qlt. lia. }
  assert (0 < inject_Z a / inject_Z b) as Hq by (apply Qlt_shift_div_l; lra).
  unfold div. rewrite (round_comp (of_int a / of_int b) (inject_Z a / inject_Z b)).
  2: { by rewrite !of_int_exact by lia. }
  destruct (round_near _ Hq) as [H1 H2].
  pose proof (round_pos _ Hq) as Hq'.
  set (q := round (inject_Z a / inject_Z b)) in *.
  unfold mul. destruct (round_near (q * 100)) as [H3 H4]; [lra|].
  set (p := round (q * 100)) in *.
  assert (100 * inject_Z a / inject_Z b == 100 * (inject_Z a / inject_Z b)) as ->
    by (field; lra).
  set (x := inject_Z a / inject_Z b) in *.
  unfold eps in *. split; nra.
Qed.

End Percentage.

(** * The claims *)

Section Claims.

Context (sort_Slice : GoSort.slice_sorter).
Context {eventRepo : EventRepository}.
Context {timeSlotRepo : TimeSlotRepository}.
Context {availabilityRepo : UserAvailabilityRepository}.

Hypothesis sort_Slice_spec : GoSort.Slice_spec sort_Slice.

(** The slot a recommendation of the result was produced from. *)
Ltac slot_of Hr H1 H2 H3 H4 Hout slot Hsome :=
  destruct (GetRecommendations_elem sort_Slice sort_Slice_spec _ _ _ _ _ _ _
              H1 H2 H3 H4 Hout Hr) as (slot & _ & Hsome).

(** C1. A time slot whose span, end time minus start time, is strictly less
    than the event's required duration in minutes has no recommendation in
    the result of [GetRecommendations], whatever the availabilities and the
    users are: its turn of the loop appends nothing, and no recommendation of
    the result refers to it. *)
Theorem short_slot_not_recommended
    eventID event timeSlots allAvailabilities users out slot :
  FindByID eventID = Ok event →
  FindByEventID eventID = Ok timeSlots →
  FindByEvent eventID = Ok allAvailabilities →
  FindAllUsersByEvent eventID = Ok users →
  GetRecommendations sort_Slice eventID = Ok out →
  TimeSlot.EndTime slot - TimeSlot.StartTime slot
    < Event.DurationMinutes event * Minute →
  recommendSlot (buildAvailabilityMap allAvailabilities) users
    (Event.DurationMinutes event) slot = None
  ∧ ∀ r, r ∈ out → TimeSlotRecommendation.TimeSlot r ≠ slot.
Proof.
  intros H1 H2 H3 H4 Hout Hshort.
  pose proof (recommendSlot_short (buildAvailabilityMap allAvailabilities) users
                _ _ Hshort) as Hnone.
  split; [done|]. intros r Hr Heq.
  slot_of Hr H1 H2 H3 H4 Hout slot' Hsome.
  pose proof Hsome as Hsome'.
  apply recommendSlot_Some in Hsome' as (_ & Hslot & _).
  rewrite Heq in Hslot. subst slot'. congruence.
Qed.

(** C2. At a start time, a user of the users list is put in [matchingUsers]
    exactly when one of the availabilities fetched for the event is the
    user's and has [avail.StartTime ≤ startTime] and
    [startTime + required duration ≤ avail.EndTime]; both comparisons admit
    equality. The required duration is the [time.Duration] that the walk adds
    to the start time; for the start times of a slot that passes the length
    test it is the event's number of minutes. *)
Theorem attending_iff_available
    allAvailabilities users durationMinutes startTime user :
  user ∈ users →
  (user ∈ matchingUsersAt (buildAvailabilityMap allAvailabilities) users
            durationMinutes startTime
   ↔ ∃ avail, avail ∈ allAvailabilities
       ∧ UserAvailability.UserID avail = User.ID user
       ∧ UserAvailability.StartTime avail ≤ startTime
       ∧ startTime + meetingDuration durationMinutes
         ≤ UserAvailability.EndTime avail)
  ∧ (∀ slot,
       tooShort durationMinutes slot = false →
       0 ≤ durationMinutes →
       (user ∈ matchingUsersAt (buildAvailabilityMap allAvailabilities) users
                 durationMinutes startTime
        ↔ ∃ avail, avail ∈ allAvailabilities
            ∧ UserAvailability.UserID avail = User.ID user
            ∧ UserAvailability.StartTime avail ≤ startTime
            ∧ startTime + durationMinutes * Minute
              ≤ UserAvailability.EndTime avail)).
Proof.
  intros Huser.
  assert (user ∈ matchingUsersAt (buildAvailabilityMap allAvailabilities) users
                   durationMinutes startTime
          ↔ ∃ avail, avail ∈ allAvailabilities
              ∧ UserAvailability.UserID avail = User.ID user
              ∧ UserAvailability.StartTime avail ≤ startTime
              ∧ startTime + meetingDuration durationMinutes
                ≤ UserAvailability.EndTime avail) as Hiff.
  { rewrite matchingUsersAt_filter, list_elem_of_filter.
    rewrite <- (available_spec allAvailabilities startTime
                  (Add startTime (meetingDuration durationMinutes)) user).
    rewrite Is_true_true. tauto. }
  split; [done|]. intros slot E Hpos.
  by rewrite <- (examined_duration_exact _ _ E Hpos).
Qed.

(** C3, as amended. The percentage of a recommendation of the result is the
    [float64] that the code computes: the number of its matching users over
    the number of users, rounded to a [float64], then times 100, rounded
    again, with at least one user. With fewer than 2^53 users it lies within
    the factors (1 - 2^-53)^2 and (1 + 2^-53)^2 of 100 times the matching
    users over the users. There is no recommendation at all without users,
    and none for a slot whose start times all have no matching user. *)
Theorem percentage_of_recommendation
    eventID event timeSlots allAvailabilities users out :
  FindByID eventID = Ok event →
  FindByEventID eventID = Ok timeSlots →
  FindByEvent eventID = Ok allAvailabilities →
  FindAllUsersByEvent eventID = Ok users →
  GetRecommendations sort_Slice eventID = Ok out →
  (∀ r, r ∈ out →
     (0 < length users)%nat
     ∧ TimeSlotRecommendation.MatchingPercentage r
       = float64.mul
           (float64.div
              (float64.of_int
                 (Z.of_nat (length (TimeSlotRecommendation.MatchingUsers r))))
              (float64.of_int (Z.of_nat (length users))))
           100
     ∧ (Z.of_nat (length users) < 2 ^ 53 →
        let exact :=
          (100 * inject_Z (Z.of_nat (length (TimeSlotRecommendation.MatchingUsers r)))
           / inject_Z (Z.of_nat (length users)))%Q in
        ((1 - float64.eps) * (1 - float64.eps) * exact
         <= TimeSlotRecommendation.MatchingPercentage r)%Q
        ∧ (TimeSlotRecommendation.MatchingPercentage r
           <= (1 + float64.eps) * (1 + float64.eps) * exact)%Q))
  ∧ (users = [] → out = [])
  ∧ (∀ slot,
       (∀ t, t ∈ slotStartTimes (Event.DurationMinutes event) slot →
             matchingUsersAt (buildAvailabilityMap allAvailabilities) users
               (Event.DurationMinutes event) t = []) →
       ∀ r, r ∈ out → TimeSlotRecommendation.TimeSlot r ≠ slot).
Proof.
  intros H1 H2 H3 H4 Hout. split; [|split].
  - intros r Hr.
    slot_of Hr H1 H2 H3 H4 Hout slot Hsome.
    apply recommendSlot_Some in Hsome
      as (_ & _ & _ & Hpct & before & t & after & _ & Hpos & _ & _ & HM & _).
    assert (length (TimeSlotRecommendation.MatchingUsers r) ≤ length users)%nat
      as Hle.
    { rewrite HM, matchingUsersAt_filter. apply length_filter. }
    rewrite <- HM in Hpos.
    split; [lia|]. split; [exact Hpct|].
    intros Hsmall. rewrite Hpct.
    by apply matchingPercentage_near.
  - intros ->. rewrite (GetRecommendations_fetched _ _ _ _ _ _ H1 H2 H3 H4) in Hout.
    injection Hout as <-. apply Permutation_nil_r.
    rewrite (sorted_Permutation sort_Slice sort_Slice_spec).
    by rewrite produced_no_users.
  - intros slot Hnone r Hr Heq.
    slot_of Hr H1 H2 H3 H4 Hout slot' Hsome.
    pose proof Hsome as Hsome'.
    apply recommendSlot_Some in Hsome' as (_ & Hslot & _).
    rewrite Heq in Hslot. subst slot'.
    assert (recommendSlot (buildAvailabilityMap allAvailabilities) users
              (Event.DurationMinutes event) slot = None) as E
      by (apply recommendSlot_None; by right).
    congruence.
Qed.

(** C4. The result of [GetRecommendations] is sorted by percentage in
    descending order: of two adjacent recommendations, the earlier one's
    percentage is greater than or equal to the later one's. *)
Theorem recommendations_sorted eventID out i r1 r2 :
  GetRecommendations sort_Slice eventID = Ok out →
  out !! i = Some r1 →
  out !! S i = Some r2 →
  (TimeSlotRecommendation.MatchingPercentage r2
   <= TimeSlotRecommendation.MatchingPercentage r1)%Q.
Proof.
  intros Hout Hi HSi.
  apply GetRecommendations_Ok_inv in Hout
    as (event & timeSlots & allAvailabilities & users & _ & _ & _ & _ & ->).
  destruct (sort_Slice_spec _ byPercentage
              (produced (buildAvailabilityMap allAvailabilities) users
                 (Event.DurationMinutes event) timeSlots) byPercentage_ok)
    as [_ Hsorted].
  apply byPercentage_false.
  apply (Sorted_lookup_adjacent _ _ _ _ _ Hsorted Hi HSi).
Qed.

(** C5, as amended. The recommendations of one percentage in the result
    are those that were produced with that percentage, in an order that
    [sort.Slice] does not promise to be the order of production. With the
    [sort.Slice] of the Go library they do keep the order of production
    where at most twelve recommendations are produced. [less] compares
    nothing but the percentage: it orders two recommendations of equal
    percentage in neither direction. *)
Theorem equal_percentages_order
    eventID event timeSlots allAvailabilities users :
  FindByID eventID = Ok event →
  FindByEventID eventID = Ok timeSlots →
  FindByEvent eventID = Ok allAvailabilities →
  FindAllUsersByEvent eventID = Ok users →
  (∀ out (p : Q),
     GetRecommendations sort_Slice eventID = Ok out →
     filter (λ r, Qeq_bool (TimeSlotRecommendation.MatchingPercentage r) p) out
     ≡ₚ filter (λ r, Qeq_bool (TimeSlotRecommendation.MatchingPercentage r) p)
          (produced (buildAvailabilityMap allAvailabilities) users
             (Event.DurationMinutes event) timeSlots))
  ∧ (∀ out,
       GetRecommendations GoSort.Slice eventID = Ok out →
       (length (produced (buildAvailabilityMap allAvailabilities) users
                  (Event.DurationMinutes event) timeSlots) ≤ 12)%nat →
       tiesKeepOrder
         (produced (buildAvailabilityMap allAvailabilities) users
            (Event.DurationMinutes event) timeSlots)
         out)
  ∧ (∀ r1 r2,
       (TimeSlotRecommendation.MatchingPercentage r1
        == TimeSlotRecommendation.MatchingPercentage r2)%Q →
       byPercentage r1 r2 = false ∧ byPercentage r2 r1 = false).
Proof.
  intros H1 H2 H3 H4. split; [|split].
  - intros out p Hout.
    rewrite (GetRecommendations_fetched _ _ _ _ _ _ H1 H2 H3 H4) in Hout.
    injection Hout as <-.
    by rewrite (sorted_Permutation sort_Slice sort_Slice_spec).
  - intros out Hout Hlen p.
    rewrite (GetRecommendations_fetched _ _ _ _ _ _ H1 H2 H3 H4) in Hout.
    injection Hout as <-. rewrite Slice_short by done.
    apply insertionSort_func_filter. intros x y Hx Hy.
    apply Is_true_true, Qeq_bool_iff in Hx, Hy.
    apply byPercentage_false. rewrite Hx, Hy. apply Qle_refl.
  - intros r1 r2 Heq. rewrite !byPercentage_false, Heq. split; apply Qle_refl.
Qed.


(** C7. A start time [t] among the [StartOptions] of a recommendation of the
    result lies in the slot with the meeting after it:
    [slot.StartTime ≤ t] and [t + required duration ≤ slot.EndTime], for the
    event's number of minutes and for the [time.Duration] the walk adds;
    and [t] is the slot's start time plus a whole number of steps of 15
    minutes. *)
Theorem start_options_within_slot
    eventID event timeSlots allAvailabilities users out r t :
  FindByID eventID = Ok event →
  FindByEventID eventID = Ok timeSlots →
  FindByEvent eventID = Ok allAvailabilities →
  FindAllUsersByEvent eventID = Ok users →
  GetRecommendations sort_Slice eventID = Ok out →
  r ∈ out →
  t ∈ TimeSlotRecommendation.StartOptions r →
  TimeSlot.StartTime (TimeSlotRecommendation.TimeSlot r) ≤ t
  ∧ t + Event.DurationMinutes event * Minute
    ≤ TimeSlot.EndTime (TimeSlotRecommendation.TimeSlot r)
  ∧ t + meetingDuration (Event.DurationMinutes event)
    ≤ TimeSlot.EndTime (TimeSlotRecommendation.TimeSlot r)
  ∧ ∃ k : nat,
      t = TimeSlot.StartTime (TimeSlotRecommendation.TimeSlot r)
          + Z.of_nat k * (15 * Minute).
Proof.
  intros H1 H2 H3 H4 Hout Hr Ht.
  slot_of Hr H1 H2 H3 H4 Hout slot Hsome.
  apply recommendSlot_Some in Hsome
    as (E & <- & _ & _ & before & t0 & after & Hts & _ & _ & _ & _ & _ & Hopts).
  assert (t ∈ slotStartTimes (Event.DurationMinutes event)
                (TimeSlotRecommendation.TimeSlot r)) as Hin.
  { rewrite Hts, elem_of_app, elem_of_cons. rewrite Hopts in Ht.
    apply elem_of_cons in Ht as [->|Ht]; [tauto|].
    apply list_elem_of_filter in Ht. tauto. }
  apply elem_of_startTimes in Hin as (k & -> & Hle).
  pose proof (latest_start_exact _ _ _ E Hle) as Hexact.
  rewrite step_ns in *. rewrite Minute_ns in *.
  pose proof (maxStartTime_offset (Event.DurationMinutes event)) as Hoff.
  unfold maxStartTime, Add in Hle.
  split; [lia|]. split; [lia|]. split; [lia|]. exists k. lia.
Qed.

(** C9. The [MatchingUsers] and [NonMatchingUsers] of a recommendation of
    the result are the two lists of the earliest start time of the slot's
    walk that matches the largest number of users: no start time matches
    more, and every earlier one matches fewer. The start times that match as
    many make up [StartOptions], and leave the two lists as they are. *)
Theorem best_is_earliest_maximum
    eventID event timeSlots allAvailabilities users out r :
  FindByID eventID = Ok event →
  FindByEventID eventID = Ok timeSlots →
  FindByEvent eventID = Ok allAvailabilities →
  FindAllUsersByEvent eventID = Ok users →
  GetRecommendations sort_Slice eventID = Ok out →
  r ∈ out →
  ∃ t,
    t ∈ slotStartTimes (Event.DurationMinutes event)
          (TimeSlotRecommendation.TimeSlot r)
    ∧ TimeSlotRecommendation.MatchingUsers r
      = matchingUsersAt (buildAvailabilityMap allAvailabilities) users
          (Event.DurationMinutes event) t
    ∧ TimeSlotRecommendation.NonMatchingUsers r
      = nonMatchingUsersAt (buildAvailabilityMap allAvailabilities) users
          (Event.DurationMinutes event) t
    ∧ (∀ t', t' ∈ slotStartTimes (Event.DurationMinutes event)
                   (TimeSlotRecommendation.TimeSlot r) →
         (length (matchingUsersAt (buildAvailabilityMap allAvailabilities) users
                    (Event.DurationMinutes event) t')
          ≤ length (TimeSlotRecommendation.MatchingUsers r))%nat)
    ∧ (∀ t', t' ∈ slotStartTimes (Event.DurationMinutes event)
                   (TimeSlotRecommendation.TimeSlot r) →
         t' < t →
         (length (matchingUsersAt (buildAvailabilityMap allAvailabilities) users
                    (Event.DurationMinutes event) t')
          < length (TimeSlotRecommendation.MatchingUsers r))%nat)
    ∧ TimeSlotRecommendation.StartOptions r
      = filter (λ t',
                  length (matchingUsersAt (buildAvailabilityMap allAvailabilities)
                            users (Event.DurationMinutes event) t')
                  = length (TimeSlotRecommendation.MatchingUsers r))
          (slotStartTimes (Event.DurationMinutes event)
             (TimeSlotRecommendation.TimeSlot r)).
Proof.
  intros H1 H2 H3 H4 Hout Hr.
  slot_of Hr H1 H2 H3 H4 Hout slot Hsome.
  apply recommendSlot_Some in Hsome
    as (_ & <- & _ & _ & before & t & after & Hts & Hpos & Hb & Ha & HM & HN & Hopts).
  pose proof (startTimes_increasing
                (TimeSlot.StartTime (TimeSlotRecommendation.TimeSlot r))
                (maxStartTime (Event.DurationMinutes event)
                   (TimeSlotRecommendation.TimeSlot r))) as Hinc.
  fold (slotStartTimes (Event.DurationMinutes event)
          (TimeSlotRecommendation.TimeSlot r)) in Hinc.
  rewrite Hts in *. rewrite HM.
  apply StronglySorted_app in Hinc as (_ & _ & Hinc).
  apply StronglySorted_inv in Hinc as [_ Hafter]. rewrite Forall_forall in Hafter.
  exists t. repeat split; try done.
  - rewrite elem_of_app, elem_of_cons. tauto.
  - intros t' Ht'. apply elem_of_app in Ht' as [Ht'|Ht'].
    + specialize (Hb t' Ht'). lia.
    + apply elem_of_cons in Ht' as [->|Ht']; [done|]. by apply Ha.
  - intros t' Ht' Hlt. apply elem_of_app in Ht' as [Ht'|Ht']; [by apply Hb|].
    apply elem_of_cons in Ht' as [->|Ht']; [lia|].
    specialize (Hafter t' Ht'). lia.
  - rewrite Hopts, filter_app, filter_cons_True by done.
    replace (filter _ before) with (@nil Time); [done|].
    symmetry. apply filter_none. intros t' Ht'.
    specialize (Hb t' Ht'). lia.
Qed.

(** C10. The division of the percentage is behind the test
    [len(bestMatchingUsers) == 0]: where a slot's walk leaves a best list
    that is not empty, the users list is not empty either, and the divisor,
    its length, is strictly positive. *)
Theorem percentage_divisor_positive availabilityMap users durationMinutes slot :
  (length (bestMatchingUsers (walkSlot availabilityMap users durationMinutes slot))
   =? 0)%nat = false →
  (0 < length users)%nat
  ∧ (0 < inject_Z (Z.of_nat (length users)))%Q.
Proof.
  intros Hguard. apply Nat.eqb_neq in Hguard.
  assert (0 < length users)%nat as Hpos.
  { destruct (walkSlot_walked availabilityMap users durationMinutes slot)
      as [E _ | before t after _ _ _ _ E]; rewrite E in Hguard; simpl in Hguard;
      [done|].
    rewrite matchingUsersAt_filter in Hguard.
    pose proof (length_filter
      (λ user, available availabilityMap t
                 (Add t (meetingDuration durationMinutes)) user) users).
    lia. }
  split; [done|]. unfold Qlt, inject_Z. simpl. lia.
Qed.

(** C8, as amended. [GetRecommendations] fails exactly when one of its four
    fetches fails, with the error of the first fetch that fails: the event,
    the time slots, the availabilities, the users. When the four succeed it
    returns a result, which is empty for an empty list of time slots and for
    an empty list of users. *)
Theorem failure_only_from_fetches eventID :
  (∀ e,
     GetRecommendations sort_Slice eventID = Err e
     ↔ FindByID eventID = Err e
       ∨ (∃ event,
            FindByID eventID = Ok event
            ∧ FindByEventID eventID = Err e)
       ∨ (∃ event timeSlots,
            FindByID eventID = Ok event
            ∧ FindByEventID eventID = Ok timeSlots
            ∧ FindByEvent eventID = Err e)
       ∨ (∃ event timeSlots allAvailabilities,
            FindByID eventID = Ok event
            ∧ FindByEventID eventID = Ok timeSlots
            ∧ FindByEvent eventID = Ok allAvailabilities
            ∧ FindAllUsersByEvent eventID = Err e))
  ∧ (∀ event timeSlots allAvailabilities users,
       FindByID eventID = Ok event →
       FindByEventID eventID = Ok timeSlots →
       FindByEvent eventID = Ok allAvailabilities →
       FindAllUsersByEvent eventID = Ok users →
       ∃ out,
         GetRecommendations sort_Slice eventID = Ok out
         ∧ (timeSlots = [] → out = [])
         ∧ (users = [] → out = [])).
Proof.
  split.
  - intros e. unfold GetRecommendations.
    destruct (FindByID eventID) as [event|e1]; simpl;
      [|split; [intros H; left; congruence
               |intros H; decompose [or ex and] H; congruence]].
    destruct (FindByEventID eventID) as [timeSlots|e2]; simpl;
      [|split; [intros H; right; left; exists event; split; congruence
               |intros H; decompose [or ex and] H; congruence]].
    destruct (FindByEvent eventID) as [allAvailabilities|e3]; simpl;
      [|split; [intros H; right; right; left; exists event, timeSlots;
                repeat split; congruence
               |intros H; decompose [or ex and] H; congruence]].
    destruct (FindAllUsersByEvent eventID) as [users|e4]; simpl;
      split; try done.
    + intros H; decompose [or ex and] H; congruence.
    + intros H; right; right; right.
      exists event, timeSlots, allAvailabilities. repeat split; congruence.
    + intros H; decompose [or ex and] H; congruence.
  - intros event timeSlots allAvailabilities users H1 H2 H3 H4.
    eexists. split; [by apply GetRecommendations_fetched|].
    split; intros ->; apply Permutation_nil_r;
      rewrite (sorted_Permutation sort_Slice sort_Slice_spec).
    + done.
    + by rewrite produced_no_users.
Qed.

End Claims.

(** ** The claims on the store of [Scenario] *)

Import Scenario.

Lemma short_slot_not_recommended_witness :
  recommendSlot (buildAvailabilityMap availabilities1) [alice; bob] 60
    (slot 2 1 (at_ 14 0) (at_ 14 30)) = None
  ∧ ∀ r, r ∈ [rec1; rec3] →
         TimeSlotRecommendation.TimeSlot r ≠ slot 2 1 (at_ 14 0) (at_ 14 30).
Proof.
  apply (short_slot_not_recommended GoSort.Slice GoSortCorrect.Slice_meets_spec
           1%N (event 1) slots1 availabilities1 [alice; bob] [rec1; rec3]);
    vm_compute; reflexivity.
Defined.

Lemma attending_iff_available_witness :
  alice ∈ [alice; bob]
  ∧ (alice ∈ matchingUsersAt (buildAvailabilityMap availabilities1)
               [alice; bob] 60 (at_ 10 30)
     ↔ ∃ avail, avail ∈ availabilities1
         ∧ UserAvailability.UserID avail = User.ID alice
         ∧ UserAvailability.StartTime avail ≤ at_ 10 30
         ∧ at_ 10 30 + meetingDuration 60 ≤ UserAvailability.EndTime avail)
  ∧ tooShort 60 (slot 1 1 (at_ 10 0) (at_ 12 0)) = false
  ∧ (alice ∈ matchingUsersAt (buildAvailabilityMap availabilities1)
               [alice; bob] 60 (at_ 10 30)
     ↔ ∃ avail, avail ∈ availabilities1
         ∧ UserAvailability.UserID avail = User.ID alice
         ∧ UserAvailability.StartTime avail ≤ at_ 10 30
         ∧ at_ 10 30 + 60 * Minute ≤ UserAvailability.EndTime avail).
Proof.
  assert (alice ∈ [alice; bob]) as Hin by left.
  destruct (attending_iff_available availabilities1 [alice; bob] 60 (at_ 10 30)
              alice Hin) as [Hcode Hminutes].
  split; [exact Hin|]. split; [exact Hcode|]. split; [reflexivity|].
  apply (Hminutes (slot 1 1 (at_ 10 0) (at_ 12 0))); [reflexivity|lia].
Defined.

Lemma percentage_of_recommendation_witness :
  (∀ r, r ∈ [rec1; rec3] →
     (0 < length [alice; bob])%nat
     ∧ TimeSlotRecommendation.MatchingPercentage r
       = float64.mul
           (float64.div
              (float64.of_int
                 (Z.of_nat (length (TimeSlotRecommendation.MatchingUsers r))))
              (float64.of_int (Z.of_nat (length [alice; bob]))))
           100
     ∧ (Z.of_nat (length [alice; bob]) < 2 ^ 53 →
        let exact :=
          (100 * inject_Z (Z.of_nat (length (TimeSlotRecommendation.MatchingUsers r)))
           / inject_Z (Z.of_nat (length [alice; bob])))%Q in
        ((1 - float64.eps) * (1 - float64.eps) * exact
         <= TimeSlotRecommendation.MatchingPercentage r)%Q
        ∧ (TimeSlotRecommendation.MatchingPercentage r
           <= (1 + float64.eps) * (1 + float64.eps) * exact)%Q))
  ∧ ([alice; bob] = [] → [rec1; rec3] = [])
  ∧ (∀ slot,
       (∀ t, t ∈ slotStartTimes (Event.DurationMinutes (event 1)) slot →
             matchingUsersAt (buildAvailabilityMap availabilities1) [alice; bob]
               (Event.DurationMinutes (event 1)) t = []) →
       ∀ r, r ∈ [rec1; rec3] → TimeSlotRecommendation.TimeSlot r ≠ slot).
Proof.
  apply (percentage_of_recommendation GoSort.Slice GoSortCorrect.Slice_meets_spec
           1%N (event 1) slots1 availabilities1 [alice; bob] [rec1; rec3]);
    vm_compute; reflexivity.
Defined.

Lemma recommendations_sorted_witness :
  [rec1; rec3] !! 0%nat = Some rec1
  ∧ (TimeSlotRecommendation.MatchingPercentage rec3
     <= TimeSlotRecommendation.MatchingPercentage rec1)%Q.
Proof.
  split; [reflexivity|].
  apply (recommendations_sorted GoSort.Slice GoSortCorrect.Slice_meets_spec
           1%N [rec1; rec3] 0 rec1 rec3);
    vm_compute; reflexivity.
Defined.

Lemma equal_percentages_order_witness :
  GetRecommendations GoSort.Slice 1 = Ok [rec1; rec3]
  ∧ filter (λ r, Qeq_bool (TimeSlotRecommendation.MatchingPercentage r) (100 # 2))
      [rec1; rec3]
    ≡ₚ filter (λ r, Qeq_bool (TimeSlotRecommendation.MatchingPercentage r) (100 # 2))
         (produced (buildAvailabilityMap availabilities1) [alice; bob]
            (Event.DurationMinutes (event 1)) slots1)
  ∧ tiesKeepOrder
      (produced (buildAvailabilityMap availabilities1) [alice; bob]
         (Event.DurationMinutes (event 1)) slots1)
      [rec1; rec3]
  ∧ (∀ r1 r2,
       (TimeSlotRecommendation.MatchingPercentage r1
        == TimeSlotRecommendation.MatchingPercentage r2)%Q →
       byPercentage r1 r2 = false ∧ byPercentage r2 r1 = false).
Proof.
  assert (GetRecommendations GoSort.Slice 1 = Ok [rec1; rec3]) as Hgo
    by (vm_compute; reflexivity).
  destruct (equal_percentages_order GoSort.Slice GoSortCorrect.Slice_meets_spec
              1%N (event 1) slots1 availabilities1 [alice; bob])
    as (Hperm & Hshort & Hkey); try (vm_compute; reflexivity).
  split; [exact Hgo|].
  split; [exact (Hperm _ (100 # 2) Hgo)|].
  split; [|exact Hkey].
  apply (Hshort _ Hgo). vm_compute. lia.
Defined.


Lemma start_options_within_slot_witness :
  at_ 10 30 ∈ TimeSlotRecommendation.StartOptions rec1
  ∧ TimeSlot.StartTime (TimeSlotRecommendation.TimeSlot rec1) ≤ at_ 10 30
  ∧ at_ 10 30 + Event.DurationMinutes (event 1) * Minute
    ≤ TimeSlot.EndTime (TimeSlotRecommendation.TimeSlot rec1)
  ∧ at_ 10 30 + meetingDuration (Event.DurationMinutes (event 1))
    ≤ TimeSlot.EndTime (TimeSlotRecommendation.TimeSlot rec1)
  ∧ ∃ k : nat,
      at_ 10 30 = TimeSlot.StartTime (TimeSlotRecommendation.TimeSlot rec1)
                  + Z.of_nat k * (15 * Minute).
Proof.
  split; [left|].
  apply (start_options_within_slot GoSort.Slice GoSortCorrect.Slice_meets_spec
           1%N (event 1) slots1 availabilities1 [alice; bob] [rec1; rec3] rec1);
    try (vm_compute; reflexivity); left.
Defined.

Lemma failure_only_from_fetches_witness :
  (∀ e,
     GetRecommendations GoSort.Slice 3 = Err e
     ↔ FindByID 3%N = Err e
       ∨ (∃ event,
            FindByID 3%N = Ok event
            ∧ FindByEventID 3%N = Err e)
       ∨ (∃ event timeSlots,
            FindByID 3%N = Ok event
            ∧ FindByEventID 3%N = Ok timeSlots
            ∧ FindByEvent 3%N = Err e)
       ∨ (∃ event timeSlots allAvailabilities,
            FindByID 3%N = Ok event
            ∧ FindByEventID 3%N = Ok timeSlots
            ∧ FindByEvent 3%N = Ok allAvailabilities
            ∧ FindAllUsersByEvent 3%N = Err e))
  ∧ (∃ out,
       GetRecommendations GoSort.Slice 1 = Ok out
       ∧ (slots1 = [] → out = [])
       ∧ ([alice; bob] = [] → out = [])).
Proof.
  split.
  - exact (proj1 (failure_only_from_fetches GoSort.Slice GoSortCorrect.Slice_meets_spec 3%N)).
  - apply (proj2 (failure_only_from_fetches GoSort.Slice GoSortCorrect.Slice_meets_spec 1%N)
             (event 1) slots1 availabilities1 [alice; bob]);
      vm_compute; reflexivity.
Defined.

Lemma best_is_earliest_maximum_witness :
  rec1 ∈ [rec1; rec3]
  ∧ ∃ t,
      t ∈ slotStartTimes (Event.DurationMinutes (event 1))
            (TimeSlotRecommendation.TimeSlot rec1)
      ∧ TimeSlotRecommendation.MatchingUsers rec1
        = matchingUsersAt (buildAvailabilityMap availabilities1) [alice; bob]
            (Event.DurationMinutes (event 1)) t
      ∧ TimeSlotRecommendation.NonMatchingUsers rec1
        = nonMatchingUsersAt (buildAvailabilityMap availabilities1) [alice; bob]
            (Event.DurationMinutes (event 1)) t
      ∧ (∀ t', t' ∈ slotStartTimes (Event.DurationMinutes (event 1))
                     (TimeSlotRecommendation.TimeSlot rec1) →
           (length (matchingUsersAt (buildAvailabilityMap availabilities1)
                      [alice; bob] (Event.DurationMinutes (event 1)) t')
            ≤ length (TimeSlotRecommendation.MatchingUsers rec1))%nat)
      ∧ (∀ t', t' ∈ slotStartTimes (Event.DurationMinutes (event 1))
                     (TimeSlotRecommendation.TimeSlot rec1) →
           t' < t →
           (length (matchingUsersAt (buildAvailabilityMap availabilities1)
                      [alice; bob] (Event.DurationMinutes (event 1)) t')
            < length (TimeSlotRecommendation.MatchingUsers rec1))%nat)
      ∧ TimeSlotRecommendation.StartOptions rec1
        = filter (λ t',
                    length (matchingUsersAt (buildAvailabilityMap availabilities1)
                              [alice; bob] (Event.DurationMinutes (event 1)) t')
                    = length (TimeSlotRecommendation.MatchingUsers rec1))
            (slotStartTimes (Event.DurationMinutes (event 1))
               (TimeSlotRecommendation.TimeSlot rec1)).
Proof.
  split; [left|].
  apply (best_is_earliest_maximum GoSort.Slice GoSortCorrect.Slice_meets_spec
           1%N (event 1) slots1 availabilities1 [alice; bob] [rec1; rec3] rec1);
    try (vm_compute; reflexivity); left.
Defined.

Lemma percentage_divisor_positive_witness :
  (length (bestMatchingUsers
             (walkSlot (buildAvailabilityMap availabilities1) [alice; bob] 60
                (slot 1 1 (at_ 10 0) (at_ 12 0)))) =? 0)%nat = false
  ∧ (0 < length [alice; bob])%nat
  ∧ (0 < inject_Z (Z.of_nat (length [alice; bob])))%Q.
Proof.
  split; [vm_compute; reflexivity|].
  apply (percentage_divisor_positive (buildAvailabilityMap availabilities1)
           [alice; bob] 60 (slot 1 1 (at_ 10 0) (at_ 12 0))).
  vm_compute; reflexivity.
Defined.

(** ** Counterexamples to the claims as stated *)

(** C5 as stated fails. For event 2 the thirteen recommendations are
    produced in the order of their slots, 1 to 13, the first twelve with
    the same percentage; [sort.Slice] returns those twelve in the order
    7, 3, 4, 5, 6, 1, 8, 9, 10, 11, 12, 2. *)
Lemma equal_percentages_reordered :
  ∃ out,
    GetRecommendations GoSort.Slice 2 = Ok out
    ∧ (λ r, TimeSlot.ID (TimeSlotRecommendation.TimeSlot r))
        <$> produced (buildAvailabilityMap availabilities2) [alice; bob] 60 slots2
      = [1; 2; 3; 4; 5; 6; 7; 8; 9; 10; 11; 12; 13]%N
    ∧ (λ r, TimeSlot.ID (TimeSlotRecommendation.TimeSlot r)) <$> out
      = [13; 7; 3; 4; 5; 6; 1; 8; 9; 10; 11; 12; 2]%N
    ∧ ¬ tiesKeepOrder
          (produced (buildAvailabilityMap availabilities2) [alice; bob] 60 slots2)
          out.
Proof.
  eexists. split; [vm_compute; reflexivity|].
  split; [vm_compute; reflexivity|]. split; [vm_compute; reflexivity|].
  intros Hkeep. specialize (Hkeep (100 # 2)).
  vm_compute in Hkeep. discriminate Hkeep.
Qed.

(** C8 as stated fails. The lookup of event 3 succeeds, the fetch of its
    time slots fails, and [GetRecommendations] fails with that error. *)
Lemma failure_without_event_lookup_failure :
  FindByID 3%N = Ok (event 3)
  ∧ GetRecommendations GoSort.Slice 3 = Err "connection refused".
Proof. split; reflexivity. Qed.

(** C3 as stated fails. With seven matching users of 25 the percentage is
    not 100 * 7 / 25 = 28: the quotient 7 / 25 is no [float64], and the
    rounded quotient times 100, rounded, is 28 + 2^-48, which Go prints as
    28.000000000000004. *)
Lemma percentage_not_exact :
  ∃ r,
    @FindAllUsersByEvent ScenarioRounding.availabilityRepo 1
    = Ok ScenarioRounding.users
    ∧ @GetRecommendations GoSort.Slice ScenarioRounding.eventRepo
        ScenarioRounding.timeSlotRepo ScenarioRounding.availabilityRepo 1
      = Ok [r]
    ∧ length ScenarioRounding.users = 25%nat
    ∧ length (TimeSlotRecommendation.MatchingUsers r) = 7%nat
    ∧ TimeSlotRecommendation.MatchingPercentage r
      = (28 + (1 # 281474976710656))%Q
    ∧ ¬ (TimeSlotRecommendation.MatchingPercentage r
         == 100 * inject_Z (Z.of_nat 7) / inject_Z (Z.of_nat 25))%Q.
Proof.
  eexists. split; [reflexivity|]. split; [vm_compute; reflexivity|].
  split; [reflexivity|]. split; [reflexivity|]. split; [by vm_compute|].
  by vm_compute.
Qed.

(** * Further properties of the engine *)

(** ** Slots of a span that a [time.Duration] holds *)

Lemma Sub_exact t u : minDuration ≤ t - u ≤ maxDuration → Sub t u = t - u.
Proof.
  unfold Sub. intros [Hlo Hhi].
  destruct (Z.ltb_spec maxDuration (t - u)); [lia|].
  by destruct (Z.ltb_spec (t - u) minDuration); [lia|].
Qed.

Lemma maxStartTime_exact durationMinutes slot :
  0 ≤ durationMinutes →
  durationMinutes * Minute ≤ maxDuration →
  maxStartTime durationMinutes slot
  = TimeSlot.EndTime slot - durationMinutes * Minute.
Proof.
  intros Hpos Hfit. unfold maxStartTime, Add, mul, neg, of_int.
  rewrite Minute_ns in *. unfold maxDuration in Hfit.
  rewrite (wrap64_id durationMinutes) by (unfold minDuration, maxDuration; lia).
  rewrite (wrap64_id (- durationMinutes)) by (unfold minDuration, maxDuration; lia).
  rewrite wrap64_id by (unfold minDuration, maxDuration; lia). lia.
Qed.

Lemma fitting_not_tooShort durationMinutes slot :
  durationMinutes * Minute ≤ TimeSlot.EndTime slot - TimeSlot.StartTime slot →
  TimeSlot.EndTime slot - TimeSlot.StartTime slot ≤ maxDuration →
  0 ≤ durationMinutes →
  tooShort durationMinutes slot = false.
Proof.
  intros Hfit Hspan Hpos. destruct (tooShort durationMinutes slot) eqn:E; [|done].
  apply tooShort_spec in E. rewrite Sub_exact in E; [lia|].
  rewrite Minute_ns in Hfit. unfold minDuration. lia.
Qed.

(** The start times of a slot's walk are the instants on the grid of 15
    minutes from the slot's start that leave room for the meeting. *)
Lemma elem_of_slotStartTimes_fitting durationMinutes slot t :
  0 ≤ durationMinutes →
  durationMinutes * Minute ≤ maxDuration →
  t ∈ slotStartTimes durationMinutes slot
  ↔ ∃ k : nat,
      t = TimeSlot.StartTime slot + Z.of_nat k * (15 * Minute)
      ∧ t + durationMinutes * Minute ≤ TimeSlot.EndTime slot.
Proof.
  intros Hpos Hfit. unfold slotStartTimes.
  rewrite elem_of_startTimes, maxStartTime_exact, step_ns, Minute_ns by done.
  split; intros (k & -> & Hk); exists k; (split; [lia|lia]).
Qed.

(** ** Filters *)

Lemma filter_ext_elem_of {A} (P Q : A → Prop)
    `{∀ x, Decision (P x)} `{∀ x, Decision (Q x)} (l : list A) :
  (∀ x, x ∈ l → P x ↔ Q x) → filter P l = filter Q l.
Proof.
  induction l as [|x l IH]; intros Hext; [done|].
  rewrite !filter_cons.
  rewrite IH by (intros y Hy; apply Hext; by right).
  destruct (decide (P x)) as [HP|HP], (decide (Q x)) as [HQ|HQ]; try done;
    exfalso; apply (Hext x) in HP || apply (Hext x) in HQ; try done; by left.
Qed.

Lemma filter_length_mono {A} (P Q : A → Prop)
    `{∀ x, Decision (P x)} `{∀ x, Decision (Q x)} (l : list A) :
  (∀ x, x ∈ l → P x → Q x) →
  (length (filter P l) ≤ length (filter Q l))%nat.
Proof.
  induction l as [|x l IH]; intros Himp; [done|].
  rewrite !filter_cons.
  assert (length (filter P l) ≤ length (filter Q l))%nat as Hle
    by (apply IH; intros y Hy; apply Himp; by right).
  destruct (decide (P x)) as [HP|HP], (decide (Q x)) as [HQ|HQ]; simpl; try lia.
  exfalso. apply HQ, Himp; [by left|done].
Qed.

Lemma StronglySorted_filter {A} (R : A → A → Prop) (P : A → Prop)
    `{∀ x, Decision (P x)} (l : list A) :
  StronglySorted R l → StronglySorted R (filter P l).
Proof.
  induction 1 as [|x l Hl IH Hx]; [constructor|].
  rewrite filter_cons. destruct (decide (P x)); [|done].
  constructor; [done|].
  apply Forall_forall. intros y Hy%list_elem_of_filter.
  rewrite Forall_forall in Hx. apply Hx, Hy.
Qed.

(** ** The best option, read on the start times *)

Section BestOfSlot.

Context (availabilityMap : gmap N (list UserAvailability.t)).
Context (users : list User.t) (durationMinutes : Z).

Local Abbreviation matching := (matchingUsersAt availabilityMap users durationMinutes).

Lemma matchingUsersAt_length t : (length (matching t) ≤ length users)%nat.
Proof. rewrite matchingUsersAt_filter. apply length_filter. Qed.

(** The recommendation of a slot matches as many users as any start time
    of the slot's walk does, with its lists taken at the first start time
    that matches as many, and its start options filtered from the walk. *)
Lemma recommendSlot_best slot r :
  recommendSlot availabilityMap users durationMinutes slot = Some r →
  (0 < length (TimeSlotRecommendation.MatchingUsers r))%nat
  ∧ (∀ t, t ∈ slotStartTimes durationMinutes slot →
          (length (matching t)
           ≤ length (TimeSlotRecommendation.MatchingUsers r))%nat)
  ∧ ∃ t rest,
      t ∈ slotStartTimes durationMinutes slot
      ∧ TimeSlotRecommendation.StartOptions r = t :: rest
      ∧ TimeSlotRecommendation.MatchingUsers r = matching t
      ∧ TimeSlotRecommendation.NonMatchingUsers r
        = nonMatchingUsersAt availabilityMap users durationMinutes t
      ∧ StronglySorted Z.lt (t :: rest).
Proof.
  intros Hsome.
  apply recommendSlot_Some in Hsome
    as (_ & _ & _ & _ & before & t & after & Hts & Hpos & Hbefore & Hafter
        & HM & HN & HS).
  rewrite HM. split; [done|]. split.
  - intros t' Ht'. rewrite Hts in Ht'.
    apply elem_of_app in Ht' as [Ht'|Ht']; [apply Hbefore in Ht'; lia|].
    apply elem_of_cons in Ht' as [->|Ht']; [done|by apply Hafter].
  - exists t, (filter (λ t', length (matching t') = length (matching t)) after).
    split; [rewrite Hts; set_solver|]. split; [done|]. split; [done|].
    split; [done|].
    pose proof (startTimes_increasing (TimeSlot.StartTime slot)
                  (maxStartTime durationMinutes slot)) as Hinc.
    fold (slotStartTimes durationMinutes slot) in Hinc. rewrite Hts in Hinc.
    apply StronglySorted_app_1_r, StronglySorted_cons in Hinc as [Ht Hafter'].
    constructor; [by apply StronglySorted_filter|].
    apply Forall_forall. intros y Hy%list_elem_of_filter.
    rewrite Forall_forall in Ht. apply Ht, Hy.
Qed.

(** A slot that is long enough and has a start time with a matching user
    has a recommendation. *)
Lemma recommendSlot_is_Some slot t :
  tooShort durationMinutes slot = false →
  t ∈ slotStartTimes durationMinutes slot →
  (0 < length (matching t))%nat →
  ∃ r, recommendSlot availabilityMap users durationMinutes slot = Some r.
Proof.
  intros Hlong Ht Hpos.
  destruct (recommendSlot availabilityMap users durationMinutes slot) as [r|] eqn:E;
    [by exists r|].
  apply recommendSlot_None in E as [E|E]; [congruence|].
  rewrite (E t Ht) in Hpos. simpl in Hpos. lia.
Qed.

End BestOfSlot.

(** The time slots of the produced recommendations, in their order. *)
Lemma produced_slots availabilityMap users durationMinutes timeSlots :
  TimeSlotRecommendation.TimeSlot
    <$> produced availabilityMap users durationMinutes timeSlots
  = filter (λ slot, is_Some (recommendSlot availabilityMap users
                               durationMinutes slot))
      timeSlots.
Proof.
  unfold produced. induction timeSlots as [|slot timeSlots' IH]; [done|].
  rewrite filter_cons. cbn [omap list_omap].
  destruct (recommendSlot _ _ _ slot) as [r|] eqn:E.
  - rewrite decide_True by eauto. cbn [fmap list_fmap]. f_equal; [|apply IH].
    by apply recommendSlot_Some in E as (_ & ? & _).
  - rewrite decide_False by (by intros [? ?]). apply IH.
Qed.

(** ** Two availability maps *)

Section TwoMaps.

Context (m m' : gmap N (list UserAvailability.t)).
Context (users : list User.t) (durationMinutes : Z).

(** Where the users of the list are available under [m'] whenever they are
    under [m], a start time matches as many users under [m'] at least. *)
Lemma matchingUsersAt_more t :
  (∀ startTime endTime user,
     user ∈ users →
     available m startTime endTime user → available m' startTime endTime user) →
  (length (matchingUsersAt m users durationMinutes t)
   ≤ length (matchingUsersAt m' users durationMinutes t))%nat.
Proof.
  intros Hmore. rewrite !matchingUsersAt_filter.
  apply filter_length_mono. intros user Huser. by apply Hmore.
Qed.

Hypothesis same :
  ∀ startTime endTime user,
    user ∈ users →
    available m startTime endTime user = available m' startTime endTime user.

Lemma splitUsers_same startTime endTime :
  splitUsers m startTime endTime users = splitUsers m' startTime endTime users.
Proof.
  rewrite !splitUsers_filter. f_equal; apply filter_ext_elem_of;
    intros user Huser; by rewrite same.
Qed.

Lemma visit_same b startTime :
  visit m users durationMinutes b startTime
  = visit m' users durationMinutes b startTime.
Proof. unfold visit. by rewrite splitUsers_same. Qed.

Lemma walk_same fuel maxStartTime startTime b :
  walk fuel m users durationMinutes maxStartTime startTime b
  = walk fuel m' users durationMinutes maxStartTime startTime b.
Proof.
  revert startTime b. induction fuel as [|fuel IH]; intros startTime b; [done|].
  cbn [walk]. destruct (After startTime maxStartTime); [done|].
  by rewrite visit_same, IH.
Qed.

Lemma recommendSlot_same slot :
  recommendSlot m users durationMinutes slot
  = recommendSlot m' users durationMinutes slot.
Proof. unfold recommendSlot, walkSlot. by rewrite walk_same. Qed.

Lemma produced_same timeSlots :
  produced m users durationMinutes timeSlots
  = produced m' users durationMinutes timeSlots.
Proof.
  unfold produced. induction timeSlots as [|slot timeSlots IH]; [done|].
  cbn [omap list_omap]. by rewrite recommendSlot_same, IH.
Qed.

End TwoMaps.

(** ** The result of the engine *)

Section Result.

Context (sort_Slice : GoSort.slice_sorter).
Context {eventRepo : EventRepository}.
Context {timeSlotRepo : TimeSlotRepository}.
Context {availabilityRepo : UserAvailabilityRepository}.

Hypothesis sort_Slice_spec : GoSort.Slice_spec sort_Slice.

(** The recommendations of the result are those of the time slots. *)
Lemma GetRecommendations_elem_iff
    eventID event timeSlots allAvailabilities users out r :
  FindByID eventID = Ok event →
  FindByEventID eventID = Ok timeSlots →
  FindByEvent eventID = Ok allAvailabilities →
  FindAllUsersByEvent eventID = Ok users →
  GetRecommendations sort_Slice eventID = Ok out →
  r ∈ out
  ↔ ∃ slot, slot ∈ timeSlots
      ∧ recommendSlot (buildAvailabilityMap allAvailabilities) users
          (Event.DurationMinutes event) slot = Some r.
Proof.
  intros H1 H2 H3 H4 Hout.
  rewrite (GetRecommendations_fetched _ _ _ _ _ _ H1 H2 H3 H4) in Hout.
  injection Hout as <-.
  rewrite (sorted_Permutation sort_Slice sort_Slice_spec).
  apply elem_of_produced.
Qed.

(** X1. A time slot has a recommendation in the result as soon as the meeting
    fits at one instant of the slot's grid of 15 minutes at which a user is
    available. The slot's span is one that a [time.Duration] holds, and the
    event's duration is not negative. *)
Theorem viable_slot_recommended
    eventID event timeSlots allAvailabilities users out slot (k : nat) user avail :
  FindByID eventID = Ok event →
  FindByEventID eventID = Ok timeSlots →
  FindByEvent eventID = Ok allAvailabilities →
  FindAllUsersByEvent eventID = Ok users →
  GetRecommendations sort_Slice eventID = Ok out →
  slot ∈ timeSlots →
  0 ≤ Event.DurationMinutes event →
  TimeSlot.EndTime slot - TimeSlot.StartTime slot ≤ maxDuration →
  TimeSlot.StartTime slot + Z.of_nat k * (15 * Minute)
    + Event.DurationMinutes event * Minute ≤ TimeSlot.EndTime slot →
  user ∈ users →
  avail ∈ allAvailabilities →
  UserAvailability.UserID avail = User.ID user →
  UserAvailability.StartTime avail
    ≤ TimeSlot.StartTime slot + Z.of_nat k * (15 * Minute) →
  TimeSlot.StartTime slot + Z.of_nat k * (15 * Minute)
    + Event.DurationMinutes event * Minute ≤ UserAvailability.EndTime avail →
  ∃ r, r ∈ out
    ∧ TimeSlotRecommendation.TimeSlot r = slot
    ∧ (0 < length (TimeSlotRecommendation.MatchingUsers r))%nat.
Proof.
  intros H1 H2 H3 H4 Hout Hslot Hpos Hspan Hfit Huser Havail Hid Hfrom Hto.
  assert (Event.DurationMinutes event * Minute ≤ maxDuration) as Hdur.
  { rewrite Minute_ns in *. lia. }
  assert (tooShort (Event.DurationMinutes event) slot = false) as Hlong.
  { apply fitting_not_tooShort; [|done..]. rewrite Minute_ns in *. lia. }
  assert (minDuration ≤ Event.DurationMinutes event * Minute) as Hdur'.
  { rewrite Minute_ns. unfold minDuration. lia. }
  set (t := TimeSlot.StartTime slot + Z.of_nat k * (15 * Minute)) in *.
  assert (t ∈ slotStartTimes (Event.DurationMinutes event) slot) as Ht.
  { apply elem_of_slotStartTimes_fitting; [done..|]. by exists k. }
  assert (user ∈ matchingUsersAt (buildAvailabilityMap allAvailabilities) users
                   (Event.DurationMinutes event) t) as Hin.
  { rewrite matchingUsersAt_filter. apply list_elem_of_filter. split; [|done].
    apply Is_true_true, available_spec. exists avail.
    by rewrite meetingDuration_minutes. }
  destruct (recommendSlot_is_Some (buildAvailabilityMap allAvailabilities) users
              (Event.DurationMinutes event) slot t Hlong Ht) as [r Hr].
  { destruct (matchingUsersAt _ _ _ _); [by apply elem_of_nil in Hin|simpl; lia]. }
  exists r. split.
  - apply (GetRecommendations_elem_iff _ _ _ _ _ _ _ H1 H2 H3 H4 Hout). by exists slot.
  - apply recommendSlot_best in Hr as Hbest. destruct Hbest as (Hpos' & _).
    apply recommendSlot_Some in Hr as (_ & Hslot' & _). done.
Qed.

(** X2. The percentage of a recommendation lies above 0 and at most at 100. *)
Theorem percentage_bounds
    eventID event timeSlots allAvailabilities users out r :
  FindByID eventID = Ok event →
  FindByEventID eventID = Ok timeSlots →
  FindByEvent eventID = Ok allAvailabilities →
  FindAllUsersByEvent eventID = Ok users →
  GetRecommendations sort_Slice eventID = Ok out →
  r ∈ out →
  (0 < TimeSlotRecommendation.MatchingPercentage r)%Q
  ∧ (TimeSlotRecommendation.MatchingPercentage r <= 100)%Q.
Proof.
  intros H1 H2 H3 H4 Hout Hr.
  apply (GetRecommendations_elem_iff _ _ _ _ _ _ _ H1 H2 H3 H4 Hout) in Hr
    as (slot & _ & Hsome).
  pose proof (recommendSlot_best _ _ _ _ _ Hsome) as (Hpos & _ & t & _ & _ & _ & HM & _).
  apply recommendSlot_Some in Hsome as (_ & _ & _ & -> & _).
  apply matchingPercentage_bounds. split; [done|].
  rewrite HM. apply matchingUsersAt_length.
Qed.

(** X3. A recommendation has the percentage 100 exactly when it leaves no user
    out, for fewer than 2^53 users: from there on the [float64] of the number
    of users can be that of a smaller number. *)
Theorem full_attendance_iff
    eventID event timeSlots allAvailabilities users out r :
  FindByID eventID = Ok event →
  FindByEventID eventID = Ok timeSlots →
  FindByEvent eventID = Ok allAvailabilities →
  FindAllUsersByEvent eventID = Ok users →
  GetRecommendations sort_Slice eventID = Ok out →
  r ∈ out →
  Z.of_nat (length users) < 2 ^ 53 →
  (TimeSlotRecommendation.MatchingPercentage r == 100)%Q
  ↔ TimeSlotRecommendation.NonMatchingUsers r = [].
Proof.
  intros H1 H2 H3 H4 Hout Hr Hsmall.
  apply (GetRecommendations_elem_iff _ _ _ _ _ _ _ H1 H2 H3 H4 Hout) in Hr
    as (slot & _ & Hsome).
  pose proof (recommendSlot_best _ _ _ _ _ Hsome)
    as (Hpos & _ & t & _ & _ & _ & HM & HN & _).
  apply recommendSlot_Some in Hsome as (_ & _ & _ & -> & _).
  pose proof (split_partition (buildAvailabilityMap allAvailabilities) users
                (Event.DurationMinutes event) t) as [Hperm _].
  apply Permutation_length in Hperm. rewrite length_app, <- HM, <- HN in Hperm.
  split.
  - intros Heq. apply length_zero_iff_nil.
    destruct (length (TimeSlotRecommendation.NonMatchingUsers r)) eqn:E; [done|].
    pose proof (matchingPercentage_not_all
                  (TimeSlotRecommendation.MatchingUsers r) users) as Hlt.
    rewrite Heq in Hlt. exfalso. apply (Qlt_irrefl 100), Hlt; [lia|done].
  - intros Hnil. rewrite Hnil in Hperm. simpl in Hperm.
    rewrite matchingPercentage_all; [done|lia|lia].
Qed.

(** X4. A user of the users list without an availability record of the event
    is among the non-matching users of every recommendation. *)
Theorem user_without_availability_never_matches
    eventID event timeSlots allAvailabilities users out r user :
  FindByID eventID = Ok event →
  FindByEventID eventID = Ok timeSlots →
  FindByEvent eventID = Ok allAvailabilities →
  FindAllUsersByEvent eventID = Ok users →
  GetRecommendations sort_Slice eventID = Ok out →
  r ∈ out →
  user ∈ users →
  (∀ avail, avail ∈ allAvailabilities →
            UserAvailability.UserID avail ≠ User.ID user) →
  (user ∉ TimeSlotRecommendation.MatchingUsers r)
  ∧ user ∈ TimeSlotRecommendation.NonMatchingUsers r.
Proof.
  intros H1 H2 H3 H4 Hout Hr Huser Hnone.
  apply (GetRecommendations_elem_iff _ _ _ _ _ _ _ H1 H2 H3 H4 Hout) in Hr
    as (slot & _ & Hsome).
  pose proof (recommendSlot_best _ _ _ _ _ Hsome)
    as (_ & _ & t & _ & _ & _ & -> & -> & _).
  assert (¬ available (buildAvailabilityMap allAvailabilities) t
              (Add t (meetingDuration (Event.DurationMinutes event))) user)
    as Hnot.
  { intros Hav. apply Is_true_true, available_spec in Hav.
    destruct Hav as (avail & Hin & Hid & _). by apply (Hnone avail). }
  rewrite matchingUsersAt_filter, nonMatchingUsersAt_filter.
  rewrite !list_elem_of_filter. tauto.
Qed.

(** X5. Without an availability record the result is empty. *)
Theorem no_availability_no_recommendation
    eventID event timeSlots users out :
  FindByID eventID = Ok event →
  FindByEventID eventID = Ok timeSlots →
  FindByEvent eventID = Ok [] →
  FindAllUsersByEvent eventID = Ok users →
  GetRecommendations sort_Slice eventID = Ok out →
  out = [].
Proof.
  intros H1 H2 H3 H4 Hout.
  destruct out as [|r out]; [done|]. exfalso.
  assert (r ∈ r :: out) as Hr by left.
  apply (GetRecommendations_elem_iff _ _ _ _ _ _ _ H1 H2 H3 H4 Hout) in Hr
    as (slot & _ & Hsome).
  pose proof (recommendSlot_best _ _ _ _ _ Hsome)
    as (Hpos & _ & t & _ & _ & _ & HM & _).
  rewrite HM, matchingUsersAt_filter in Hpos.
  rewrite filter_none in Hpos; [simpl in Hpos; lia|].
  intros user _ Hav. apply Is_true_true, available_spec in Hav.
  destruct Hav as (avail & Hin & _). by apply elem_of_nil in Hin.
Qed.

(** X6. Of two recommendations of the result, the one that comes first has the
    percentage that is not lower; the first of the result has the highest
    percentage of all. *)
Theorem earlier_is_not_lower eventID out (i j : nat) ri rj :
  GetRecommendations sort_Slice eventID = Ok out →
  (i ≤ j)%nat →
  out !! i = Some ri →
  out !! j = Some rj →
  (TimeSlotRecommendation.MatchingPercentage rj
   <= TimeSlotRecommendation.MatchingPercentage ri)%Q.
Proof.
  intros Hout Hij Hi Hj.
  apply GetRecommendations_Ok_inv in Hout
    as (event & timeSlots & allAvailabilities & users & _ & _ & _ & _ & ->).
  destruct (sort_Slice_spec _ byPercentage
              (produced (buildAvailabilityMap allAvailabilities) users
                 (Event.DurationMinutes event) timeSlots) byPercentage_ok)
    as [_ Hsorted].
  unfold GoSort.IsSorted in Hsorted.
  apply Sorted_StronglySorted in Hsorted.
  2:{ intros x y z Hxy Hyz. apply byPercentage_false.
      apply byPercentage_false in Hxy, Hyz.
      by apply Qle_trans with (TimeSlotRecommendation.MatchingPercentage y). }
  destruct (decide (i = j)) as [->|Hne].
  { assert (ri = rj) as -> by congruence. apply Qle_refl. }
  revert Hsorted Hi Hj.
  generalize (sort_Slice _ byPercentage
                (produced (buildAvailabilityMap allAvailabilities) users
                   (Event.DurationMinutes event) timeSlots)).
  intros l Hsorted Hi Hj.
  rewrite <- (take_drop j l) in Hsorted, Hi, Hj.
  assert (j ≤ length l)%nat
    by (apply Nat.lt_le_incl, lookup_lt_is_Some_1; rewrite <- (take_drop j l); eauto).
  rewrite lookup_app_l in Hi by (rewrite length_take; lia).
  rewrite lookup_app_r in Hj by (rewrite length_take; lia).
  apply byPercentage_false.
  apply (StronglySorted_app_1_elem_of _ _ _ _ _ Hsorted).
  - by apply list_elem_of_lookup_2 in Hi.
  - by apply list_elem_of_lookup_2 in Hj.
Qed.

(** X7. The time slots of the recommendations are, up to the order, the fetched
    time slots that have a recommendation, each as often as it is fetched:
    a slot is recommended once at most, and no other slot is. *)
Theorem one_recommendation_per_slot
    eventID event timeSlots allAvailabilities users out :
  FindByID eventID = Ok event →
  FindByEventID eventID = Ok timeSlots →
  FindByEvent eventID = Ok allAvailabilities →
  FindAllUsersByEvent eventID = Ok users →
  GetRecommendations sort_Slice eventID = Ok out →
  TimeSlotRecommendation.TimeSlot <$> out
    ≡ₚ filter (λ slot, is_Some (recommendSlot (buildAvailabilityMap allAvailabilities)
                                 users (Event.DurationMinutes event) slot))
         timeSlots
  ∧ (length out ≤ length timeSlots)%nat.
Proof.
  intros H1 H2 H3 H4 Hout.
  rewrite (GetRecommendations_fetched _ _ _ _ _ _ H1 H2 H3 H4) in Hout.
  injection Hout as <-.
  rewrite (sorted_Permutation sort_Slice sort_Slice_spec).
  pose proof (produced_slots (buildAvailabilityMap allAvailabilities) users
                (Event.DurationMinutes event) timeSlots) as Heq.
  split; [by rewrite Heq|].
  rewrite <- (length_fmap TimeSlotRecommendation.TimeSlot), Heq.
  apply length_filter.
Qed.

(** X8. A recommendation has a start option; its start options ascend
    strictly, and the two lists of users are those of the first one. *)
Theorem start_options_ascend
    eventID event timeSlots allAvailabilities users out r :
  FindByID eventID = Ok event →
  FindByEventID eventID = Ok timeSlots →
  FindByEvent eventID = Ok allAvailabilities →
  FindAllUsersByEvent eventID = Ok users →
  GetRecommendations sort_Slice eventID = Ok out →
  r ∈ out →
  StronglySorted Z.lt (TimeSlotRecommendation.StartOptions r)
  ∧ ∃ t rest,
      TimeSlotRecommendation.StartOptions r = t :: rest
      ∧ TimeSlotRecommendation.MatchingUsers r
        = matchingUsersAt (buildAvailabilityMap allAvailabilities) users
            (Event.DurationMinutes event) t
      ∧ TimeSlotRecommendation.NonMatchingUsers r
        = nonMatchingUsersAt (buildAvailabilityMap allAvailabilities) users
            (Event.DurationMinutes event) t.
Proof.
  intros H1 H2 H3 H4 Hout Hr.
  apply (GetRecommendations_elem_iff _ _ _ _ _ _ _ H1 H2 H3 H4 Hout) in Hr
    as (slot & _ & Hsome).
  pose proof (recommendSlot_best _ _ _ _ _ Hsome)
    as (_ & _ & t & rest & _ & HS & HM & HN & Hinc).
  rewrite HS. split; [done|]. by exists t, rest.
Qed.

(** X9. The matching users and the non-matching users of a recommendation
    stand in the order of the users list. *)
Theorem users_keep_order
    eventID event timeSlots allAvailabilities users out r :
  FindByID eventID = Ok event →
  FindByEventID eventID = Ok timeSlots →
  FindByEvent eventID = Ok allAvailabilities →
  FindAllUsersByEvent eventID = Ok users →
  GetRecommendations sort_Slice eventID = Ok out →
  r ∈ out →
  TimeSlotRecommendation.MatchingUsers r `sublist_of` users
  ∧ TimeSlotRecommendation.NonMatchingUsers r `sublist_of` users.
Proof.
  intros H1 H2 H3 H4 Hout Hr.
  apply (GetRecommendations_elem_iff _ _ _ _ _ _ _ H1 H2 H3 H4 Hout) in Hr
    as (slot & _ & Hsome).
  pose proof (recommendSlot_best _ _ _ _ _ Hsome)
    as (_ & _ & t & _ & _ & _ & -> & -> & _).
  rewrite matchingUsersAt_filter, nonMatchingUsersAt_filter.
  split; apply sublist_filter.
Qed.

(** X10. The result does not depend on the order of the availability records,
    on their repetition, or on the records of users that are not in the
    users list: it is the result for any list that holds the same records
    of the listed users. *)
Theorem availability_order_irrelevant
    eventID event timeSlots allAvailabilities users allAvailabilities' :
  FindByID eventID = Ok event →
  FindByEventID eventID = Ok timeSlots →
  FindByEvent eventID = Ok allAvailabilities →
  FindAllUsersByEvent eventID = Ok users →
  (∀ avail user,
     user ∈ users →
     UserAvailability.UserID avail = User.ID user →
     avail ∈ allAvailabilities ↔ avail ∈ allAvailabilities') →
  GetRecommendations sort_Slice eventID
  = Ok (sort_Slice _ byPercentage
          (produced (buildAvailabilityMap allAvailabilities') users
             (Event.DurationMinutes event) timeSlots)).
Proof.
  intros H1 H2 H3 H4 Hsame.
  rewrite (GetRecommendations_fetched _ _ _ _ _ _ H1 H2 H3 H4).
  do 2 f_equal. apply produced_same. intros startTime endTime user Huser.
  apply eq_true_iff_eq. rewrite !available_spec.
  split; intros (avail & Hin & Hid & Hcovers); exists avail;
    (split; [by apply (Hsame avail user)|done]).
Qed.

End Result.

(** X11. For a slot, more availability records mean a recommendation that
    matches as many users at least, with a percentage that is not lower. *)
Theorem more_availability_never_hurts
    allAvailabilities allAvailabilities' users durationMinutes slot r :
  allAvailabilities ⊆ allAvailabilities' →
  recommendSlot (buildAvailabilityMap allAvailabilities) users
    durationMinutes slot = Some r →
  ∃ r',
    recommendSlot (buildAvailabilityMap allAvailabilities') users
      durationMinutes slot = Some r'
    ∧ (length (TimeSlotRecommendation.MatchingUsers r)
       ≤ length (TimeSlotRecommendation.MatchingUsers r'))%nat
    ∧ (TimeSlotRecommendation.MatchingPercentage r
       <= TimeSlotRecommendation.MatchingPercentage r')%Q.
Proof.
  intros Hsub Hsome.
  pose proof (recommendSlot_best _ _ _ _ _ Hsome)
    as (Hpos & _ & t & _ & Ht & _ & HM & _).
  assert (∀ t, (length (matchingUsersAt (buildAvailabilityMap allAvailabilities)
                          users durationMinutes t)
                ≤ length (matchingUsersAt (buildAvailabilityMap allAvailabilities')
                            users durationMinutes t))%nat) as Hmore.
  { intros t'. apply matchingUsersAt_more. intros startTime endTime user _ Hav.
    apply Is_true_true, available_spec in Hav as (avail & Hin & Hrest).
    apply Is_true_true, available_spec. exists avail. split; [by apply Hsub|done]. }
  apply recommendSlot_Some in Hsome as Hr. destruct Hr as (Hlong & _ & _ & Hpct & _).
  destruct (recommendSlot_is_Some (buildAvailabilityMap allAvailabilities') users
              durationMinutes slot t Hlong Ht) as [r' Hsome'].
  { specialize (Hmore t). rewrite <- HM in Hmore. lia. }
  exists r'. split; [done|].
  pose proof (recommendSlot_best _ _ _ _ _ Hsome') as (_ & Hmax & t' & _ & _ & _ & HM' & _).
  assert (length (TimeSlotRecommendation.MatchingUsers r)
          ≤ length (TimeSlotRecommendation.MatchingUsers r'))%nat as Hle.
  { rewrite HM. etrans; [apply Hmore|]. by apply Hmax. }
  split; [done|].
  apply recommendSlot_Some in Hsome' as (_ & _ & _ & Hpct' & _).
  rewrite Hpct, Hpct'. apply matchingPercentage_mono; [|done].
  pose proof (matchingUsersAt_length (buildAvailabilityMap allAvailabilities)
                users durationMinutes t). rewrite <- HM in *. lia.
Qed.

(** X12. The availability map holds, under a user's identifier, the records of
    that user in the order of the fetched list, and no entry for a user
    without a record. *)
Theorem availability_map_groups_by_user allAvailabilities userID :
  buildAvailabilityMap allAvailabilities !!! userID
  = filter (λ avail, UserAvailability.UserID avail = userID) allAvailabilities
  ∧ (buildAvailabilityMap allAvailabilities !! userID = None
     ↔ ∀ avail, avail ∈ allAvailabilities →
                UserAvailability.UserID avail ≠ userID).
Proof.
  split; [apply buildAvailabilityMap_lookup|].
  unfold buildAvailabilityMap.
  assert (∀ m : gmap N (list UserAvailability.t),
            foldl (λ availabilityMap avail,
                     <[UserAvailability.UserID avail :=
                         (availabilityMap !!! UserAvailability.UserID avail)
                           ++ [avail]]> availabilityMap)
                  m allAvailabilities !! userID = None
            ↔ m !! userID = None
              ∧ ∀ avail, avail ∈ allAvailabilities →
                         UserAvailability.UserID avail ≠ userID) as Hgen.
  { induction allAvailabilities as [|avail avs IH]; intros m.
    - cbn [foldl]. split; [|tauto]. intros Hm. split; [done|].
      intros avail Hin. by apply elem_of_nil in Hin.
    - cbn [foldl]. rewrite IH, lookup_insert_None. split.
      + intros [[Hm Hne] Havs]. split; [done|].
        intros avail' [->|Hin]%elem_of_cons; [done|by apply Havs].
      + intros [Hm Havs]. split; [split; [done|]|].
        * apply Havs. by left.
        * intros avail' Hin. apply Havs. by right. }
  rewrite Hgen, lookup_empty. tauto.
Qed.

(** X13. The walk of a slot visits the instants of the grid of 15 minutes from
    the slot's start that leave room for the meeting, in ascending order,
    and no other: as many as the quotient of the span less the meeting by
    15 minutes, plus one. Where the span exceeds the meeting by less than
    15 minutes, the slot's start is the one instant visited. *)
Theorem walk_visits_grid availabilityMap users durationMinutes slot :
  0 ≤ durationMinutes →
  durationMinutes * Minute ≤ maxDuration →
  walkSlot availabilityMap users durationMinutes slot
  = foldl (visit availabilityMap users durationMinutes) noBest
      ((λ k : nat, TimeSlot.StartTime slot + Z.of_nat k * (15 * Minute))
         <$> seq 0 (Z.to_nat
                      ((TimeSlot.EndTime slot - TimeSlot.StartTime slot
                        - durationMinutes * Minute) `div` (15 * Minute) + 1)))
  ∧ (durationMinutes * Minute
       ≤ TimeSlot.EndTime slot - TimeSlot.StartTime slot
       < durationMinutes * Minute + 15 * Minute →
     walkSlot availabilityMap users durationMinutes slot
     = visit availabilityMap users durationMinutes noBest
         (TimeSlot.StartTime slot)).
Proof.
  intros Hpos Hfit.
  assert (walkSlot availabilityMap users durationMinutes slot
          = foldl (visit availabilityMap users durationMinutes) noBest
              ((λ k : nat, TimeSlot.StartTime slot + Z.of_nat k * (15 * Minute))
                 <$> seq 0 (Z.to_nat
                              ((TimeSlot.EndTime slot - TimeSlot.StartTime slot
                                - durationMinutes * Minute) `div` (15 * Minute)
                               + 1)))) as Hgrid.
  { unfold walkSlot. rewrite walk_startTimes by done.
    unfold startTimes, walkFuel.
    rewrite maxStartTime_exact, step_ns by done. rewrite Minute_ns.
    change (15 * 60000000000) with 900000000000.
    replace (TimeSlot.EndTime slot - durationMinutes * 60000000000
             - TimeSlot.StartTime slot)
      with (TimeSlot.EndTime slot - TimeSlot.StartTime slot
            - durationMinutes * 60000000000) by lia.
    done. }
  split; [done|]. intros Hspan. rewrite Hgrid.
  rewrite Z.div_small by lia.
  change (Z.to_nat (0 + 1)) with 1%nat. cbn [seq fmap list_fmap foldl].
  f_equal. lia.
Qed.

(** ** The order of the fetched rows *)

(** The queries of the repositories give no order to their rows. What the
    engine returns depends on the order of the time slots and of the users
    only in the order of its lists. *)

(** The start options of a recommendation are the start times of the slot's
    walk that match as many users as the recommendation does. *)
Lemma recommendSlot_StartOptions availabilityMap users durationMinutes slot r :
  recommendSlot availabilityMap users durationMinutes slot = Some r →
  TimeSlotRecommendation.StartOptions r
  = filter (λ t, length (matchingUsersAt availabilityMap users durationMinutes t)
                 = length (TimeSlotRecommendation.MatchingUsers r))
      (slotStartTimes durationMinutes slot).
Proof.
  intros Hsome.
  apply recommendSlot_Some in Hsome
    as (_ & _ & _ & _ & before & t & after & -> & _ & Hbefore & _
        & -> & _ & ->).
  rewrite filter_app, filter_cons_True by done.
  rewrite (filter_none _ before); [done|].
  intros t' Ht'%Hbefore. lia.
Qed.

(** The users that a start time matches, for a reordered users list. *)
Lemma matchingUsersAt_Permutation availabilityMap users users' durationMinutes t :
  users' ≡ₚ users →
  matchingUsersAt availabilityMap users' durationMinutes t
  ≡ₚ matchingUsersAt availabilityMap users durationMinutes t.
Proof. intros Hperm. rewrite !matchingUsersAt_filter. by rewrite Hperm. Qed.

Lemma nonMatchingUsersAt_Permutation availabilityMap users users' durationMinutes t :
  users' ≡ₚ users →
  nonMatchingUsersAt availabilityMap users' durationMinutes t
  ≡ₚ nonMatchingUsersAt availabilityMap users durationMinutes t.
Proof. intros Hperm. rewrite !nonMatchingUsersAt_filter. by rewrite Hperm. Qed.

Section SlotOrder.

Context (sort_Slice : GoSort.slice_sorter).
Context {eventRepo : EventRepository}.
Context {timeSlotRepo : TimeSlotRepository}.
Context {availabilityRepo : UserAvailabilityRepository}.

Hypothesis sort_Slice_spec : GoSort.Slice_spec sort_Slice.

(** X23. The order in which the time slots are fetched changes the result in
    its order only: for the slots in another order the engine returns the
    same recommendations, rearranged. *)
Theorem slot_order_irrelevant
    eventID event timeSlots allAvailabilities users out timeSlots' :
  FindByID eventID = Ok event →
  FindByEventID eventID = Ok timeSlots →
  FindByEvent eventID = Ok allAvailabilities →
  FindAllUsersByEvent eventID = Ok users →
  GetRecommendations sort_Slice eventID = Ok out →
  timeSlots' ≡ₚ timeSlots →
  sort_Slice _ byPercentage
    (produced (buildAvailabilityMap allAvailabilities) users
       (Event.DurationMinutes event) timeSlots')
  ≡ₚ out.
Proof.
  intros H1 H2 H3 H4 Hout Hperm.
  rewrite (GetRecommendations_fetched _ _ _ _ _ _ H1 H2 H3 H4) in Hout.
  injection Hout as <-.
  rewrite !(sorted_Permutation sort_Slice sort_Slice_spec).
  unfold produced. by rewrite Hperm.
Qed.

End SlotOrder.

(** X24. The order in which the users are fetched changes the recommendation
    of a slot in the order of its two lists of users only: the slot, the
    event's duration, the percentage and the start options are the same, and
    the lists hold the same users. *)
Theorem user_order_irrelevant
    availabilityMap users users' durationMinutes slot r :
  users' ≡ₚ users →
  recommendSlot availabilityMap users durationMinutes slot = Some r →
  ∃ r',
    recommendSlot availabilityMap users' durationMinutes slot = Some r'
    ∧ TimeSlotRecommendation.TimeSlot r' = TimeSlotRecommendation.TimeSlot r
    ∧ TimeSlotRecommendation.EventDuration r'
      = TimeSlotRecommendation.EventDuration r
    ∧ TimeSlotRecommendation.MatchingPercentage r'
      = TimeSlotRecommendation.MatchingPercentage r
    ∧ TimeSlotRecommendation.StartOptions r'
      = TimeSlotRecommendation.StartOptions r
    ∧ TimeSlotRecommendation.MatchingUsers r'
      ≡ₚ TimeSlotRecommendation.MatchingUsers r
    ∧ TimeSlotRecommendation.NonMatchingUsers r'
      ≡ₚ TimeSlotRecommendation.NonMatchingUsers r.
Proof.
  intros Hperm Hsome.
  assert (∀ t, length (matchingUsersAt availabilityMap users' durationMinutes t)
               = length (matchingUsersAt availabilityMap users durationMinutes t))
    as Hcount.
  { intros t. by rewrite (matchingUsersAt_Permutation _ _ _ _ _ Hperm). }
  pose proof (recommendSlot_Some _ _ _ _ _ Hsome)
    as (Hlong & Hslot & Hdur & Hpct & _).
  pose proof (recommendSlot_best _ _ _ _ _ Hsome)
    as (Hpos & Hmax & t & rest & Ht & Hopts & HM & HN & _).
  destruct (recommendSlot_is_Some availabilityMap users' durationMinutes slot t)
    as [r' Hsome']; [done|done|rewrite Hcount, <- HM; done|].
  exists r'. split; [done|].
  pose proof (recommendSlot_Some _ _ _ _ _ Hsome')
    as (_ & Hslot' & Hdur' & Hpct' & _).
  pose proof (recommendSlot_best _ _ _ _ _ Hsome')
    as (_ & Hmax' & t' & rest' & Ht' & Hopts' & HM' & HN' & _).
  assert (length (TimeSlotRecommendation.MatchingUsers r')
          = length (TimeSlotRecommendation.MatchingUsers r)) as Hlen.
  { apply Nat.le_antisymm.
    - rewrite HM', Hcount. by apply Hmax.
    - rewrite HM, <- Hcount. by apply Hmax'. }
  assert (TimeSlotRecommendation.StartOptions r'
          = TimeSlotRecommendation.StartOptions r) as Hsame.
  { rewrite (recommendSlot_StartOptions _ _ _ _ _ Hsome),
      (recommendSlot_StartOptions _ _ _ _ _ Hsome').
    apply list_filter_iff. intros t0. by rewrite Hcount, Hlen. }
  assert (t' = t) as -> by congruence.
  split_and!.
  - congruence.
  - congruence.
  - rewrite Hpct, Hpct'. unfold matchingPercentage.
    by rewrite Hlen, (Permutation_length Hperm).
  - done.
  - rewrite HM, HM'. by apply matchingUsersAt_Permutation.
  - rewrite HN, HN'. by apply nonMatchingUsersAt_Permutation.
Qed.

(** ** The library's sort *)

(** X14. [sort.Slice], as the Go library implements it, returns the elements of
    the slice, sorted by [less], for every [less] that is a strict weak
    ordering. *)
Theorem library_sort_sorts {A} (less : A → A → bool) (x : list A) :
  GoSort.less_ok less →
  GoSort.Slice A less x ≡ₚ x ∧ GoSort.IsSorted less (GoSort.Slice A less x).
Proof. intros Hok. by apply GoSortCorrect.Slice_impl_spec. Qed.

(** * The controllers *)

(** ** [strconv.ParseUint] *)

Section ParseUint.

Local Open Scope N_scope.

Lemma decimal_from_ge cs n :
  n ≤ foldl (λ n c, 10 * n + (c - 48)) n cs.
Proof.
  revert n. induction cs as [|c cs IH]; intros n; cbn [foldl]; [lia|].
  etrans; [|apply IH]. lia.
Qed.

Lemma isDigit_spec c : strconv.isDigit c = true ↔ 48 ≤ c ≤ 57.
Proof.
  unfold strconv.isDigit. rewrite andb_true_iff, !N.leb_le. tauto.
Qed.

(** A letter is no digit of the base 10. *)
Lemma lower_letter c :
  97 ≤ strconv.lower c ≤ 122 → 10 ≤ strconv.lower c - 97 + 10.
Proof. lia. Qed.

Lemma ParseUint_loop_digits cs maxVal n :
  maxVal ≤ 4294967295 →
  n ≤ maxVal →
  Forall (λ c, strconv.isDigit c = true) cs →
  foldl (λ n c, 10 * n + (c - 48)) n cs ≤ maxVal →
  strconv.ParseUint_loop cs (strconv.maxUint64 `div` 10 + 1) maxVal n
  = (foldl (λ n c, 10 * n + (c - 48)) n cs, None).
Proof.
  intros Hmax. revert n. induction cs as [|c cs IH]; intros n Hn Hdigits Hval;
    [done|].
  apply Forall_cons in Hdigits as [Hc%isDigit_spec Hdigits].
  cbn [strconv.ParseUint_loop foldl] in *.
  destruct (N.leb_spec 48 c); [|lia]. destruct (N.leb_spec c 57); [|lia].
  cbn [andb]. destruct (N.leb_spec 10 (c - 48)); [lia|].
  assert (strconv.maxUint64 `div` 10 + 1 = 1844674407370955162) as Hcut
    by (by vm_compute).
  rewrite Hcut in *.
  destruct (N.leb_spec 1844674407370955162 n); [lia|].
  pose proof (decimal_from_ge cs (10 * n + (c - 48))) as Hge.
  change (2 ^ 64) with 18446744073709551616.
  rewrite (N.mod_small (n * 10)) by lia.
  rewrite (N.mod_small (n * 10 + (c - 48))) by lia.
  destruct (N.ltb_spec (n * 10 + (c - 48)) (n * 10)); [lia|].
  destruct (N.ltb_spec maxVal (n * 10 + (c - 48))); [lia|].
  cbn [orb]. replace (n * 10 + (c - 48)) with (10 * n + (c - 48)) by lia.
  apply IH; [lia|done|done].
Qed.

Lemma ParseUint_loop_accepts cs maxVal n v :
  maxVal ≤ 4294967295 →
  n ≤ maxVal →
  strconv.ParseUint_loop cs (strconv.maxUint64 `div` 10 + 1) maxVal n = (v, None) →
  Forall (λ c, strconv.isDigit c = true) cs
  ∧ v = foldl (λ n c, 10 * n + (c - 48)) n cs
  ∧ v ≤ maxVal.
Proof.
  intros Hmax. revert n. induction cs as [|c cs IH]; intros n Hn Hloop.
  - cbn in Hloop. injection Hloop as <-. by split; [constructor|].
  - cbn [strconv.ParseUint_loop foldl] in *.
    assert (strconv.maxUint64 `div` 10 + 1 = 1844674407370955162) as Hcut
      by (by vm_compute).
    rewrite Hcut in *.
    destruct (N.leb_spec 48 c) as [H48|H48]; cbn [andb] in Hloop.
    + destruct (N.leb_spec c 57) as [H57|H57].
      * destruct (N.leb_spec 10 (c - 48)); [lia|].
        destruct (N.leb_spec 1844674407370955162 n); [lia|].
        change (2 ^ 64) with 18446744073709551616 in Hloop.
        rewrite (N.mod_small (n * 10)) in Hloop by lia.
        rewrite (N.mod_small (n * 10 + (c - 48))) in Hloop by lia.
        destruct (N.ltb_spec (n * 10 + (c - 48)) (n * 10)); [lia|].
        destruct (N.ltb_spec maxVal (n * 10 + (c - 48))); [done|].
        cbn [orb] in Hloop.
        apply IH in Hloop as (Hdigits & -> & Hle); [|lia].
        replace (10 * n + (c - 48)) with (n * 10 + (c - 48)) by lia.
        split; [|done]. constructor; [|done]. apply isDigit_spec. lia.
      * destruct ((97 <=? strconv.lower c) && (strconv.lower c <=? 122)) eqn:E;
          [|done].
        apply andb_true_iff in E as [E1%N.leb_le E2%N.leb_le].
        by destruct (N.leb_spec 10 (strconv.lower c - 97 + 10)); [|lia].
    + destruct ((97 <=? strconv.lower c) && (strconv.lower c <=? 122)) eqn:E;
        [|done].
      apply andb_true_iff in E as [E1%N.leb_le E2%N.leb_le].
      by destruct (N.leb_spec 10 (strconv.lower c - 97 + 10)); [|lia].
Qed.

End ParseUint.

Lemma ParseUint_32 s :
  strconv.ParseUint s 32
  = if String.eqb s "" then (0%N, Some strconv.ErrSyntax)
    else strconv.ParseUint_loop (strconv.bytes s)
           (strconv.maxUint64 `div` 10 + 1)%N 4294967295%N 0%N.
Proof. unfold strconv.ParseUint. by destruct (String.eqb s ""). Qed.

Lemma ParseUint_valid s :
  strconv.isUint32 s = true →
  strconv.ParseUint s 32 = (strconv.decimal (strconv.bytes s), None).
Proof.
  rewrite ParseUint_32. unfold strconv.isUint32.
  intros Hvalid. apply andb_true_iff in Hvalid as [Hvalid Hlt%N.ltb_lt].
  apply andb_true_iff in Hvalid as [Hne%negb_true_iff Hdigits].
  rewrite Hne. apply ParseUint_loop_digits; [lia|lia| |].
  - apply Forall_forall. intros c Hc.
    rewrite forallb_forall in Hdigits. apply Hdigits.
    by apply list_elem_of_In.
  - unfold strconv.decimal in Hlt. change (2 ^ 32)%N with 4294967296%N in Hlt. lia.
Qed.

Lemma ParseUint_invalid s :
  strconv.isUint32 s = false →
  ∃ n err, strconv.ParseUint s 32 = (n, Some err).
Proof.
  rewrite ParseUint_32. unfold strconv.isUint32.
  intros Hinvalid. destruct (String.eqb s "") eqn:Hne; [by eexists _, _|].
  destruct (strconv.ParseUint_loop _ _ _ _) as [n [err|]] eqn:Hloop;
    [by exists n, err|]. exfalso.
  apply ParseUint_loop_accepts in Hloop as (Hdigits & -> & Hle); [|lia|lia].
  cbn [negb andb] in Hinvalid.
  apply andb_false_iff in Hinvalid as [Hinvalid|Hinvalid].
  - apply not_true_iff_false in Hinvalid. apply Hinvalid.
    apply forallb_forall. intros c Hc%list_elem_of_In.
    rewrite Forall_forall in Hdigits. by apply Hdigits.
  - apply N.ltb_ge in Hinvalid. unfold strconv.decimal in Hinvalid.
    change (2 ^ 32)%N with 4294967296%N in Hinvalid. lia.
Qed.

(** X15. [strconv.ParseUint(s, 10, 32)] accepts the strings of decimal digits,
    one at least, that denote a number below 2^32, with that number, and
    fails on every other string. *)
Theorem ParseUint_accepts_decimal_uint32 s :
  (strconv.isUint32 s = true →
   strconv.ParseUint s 32 = (strconv.decimal (strconv.bytes s), None))
  ∧ (strconv.isUint32 s = false →
     ∃ n err, strconv.ParseUint s 32 = (n, Some err)).
Proof. split; [apply ParseUint_valid|apply ParseUint_invalid]. Qed.

(** ** [strconv.Atoi] *)

Section Atoi.

Local Open Scope N_scope.

Lemma decimal_from_lt cs n :
  Forall (λ c, strconv.isDigit c = true) cs →
  foldl (λ n c, 10 * n + (c - 48)) n cs < (n + 1) * 10 ^ N.of_nat (length cs).
Proof.
  revert n. induction cs as [|c cs IH]; intros n Hdigits; cbn [foldl length].
  - change (N.of_nat 0) with 0. lia.
  - apply Forall_cons in Hdigits as [Hc%isDigit_spec Hdigits].
    eapply N.lt_le_trans; [by apply IH|].
    rewrite Nat2N.inj_succ, N.pow_succ_r'. nia.
Qed.

Lemma Atoi_loop_digits cs n :
  Forall (λ c, strconv.isDigit c = true) cs →
  foldl (λ n c, 10 * n + (c - 48)) n cs < 2 ^ 63 →
  strconv.Atoi_loop cs (Z.of_N n)
  = Some (Z.of_N (foldl (λ n c, 10 * n + (c - 48)) n cs)).
Proof.
  revert n. induction cs as [|c cs IH]; intros n Hdigits Hval; [done|].
  apply Forall_cons in Hdigits as [Hc%isDigit_spec Hdigits].
  cbn [strconv.Atoi_loop foldl] in *.
  pose proof (decimal_from_ge cs (10 * n + (c - 48))) as Hge.
  assert ((c + 256 - 48) mod 256 = c - 48) as ->.
  { replace (c + 256 - 48) with (c - 48 + 1 * 256) by lia.
    rewrite N.Div0.mod_add. apply N.mod_small. lia. }
  destruct (N.ltb_spec 9 (c - 48)); [lia|].
  change (2 ^ 63) with 9223372036854775808 in Hval.
  unfold strconv.int64.
  rewrite (wrap64_id (Z.of_N n * 10)) by (unfold minDuration, maxDuration; lia).
  rewrite wrap64_id by (unfold minDuration, maxDuration; lia).
  replace (Z.of_N n * 10 + Z.of_N (c - 48))%Z
    with (Z.of_N (10 * n + (c - 48))) by lia.
  by apply IH.
Qed.

Lemma length_bytes s : length (strconv.bytes s) = String.length s.
Proof.
  unfold strconv.bytes. rewrite length_fmap.
  induction s as [|c s IH]; [done|]. cbn. by rewrite IH.
Qed.

(** [Atoi] reads a string of 1 to 18 decimal digits as the number it
    denotes. *)
Lemma Atoi_decimal s :
  String.eqb s "" = false →
  forallb strconv.isDigit (strconv.bytes s) = true →
  (String.length s < 19)%nat →
  strconv.Atoi s = (Z.of_N (strconv.decimal (strconv.bytes s)), None).
Proof.
  intros Hne Hdigits Hlen. unfold strconv.Atoi.
  assert (Forall (λ c, strconv.isDigit c = true) (strconv.bytes s)) as Hall.
  { apply Forall_forall. intros c Hc. rewrite forallb_forall in Hdigits.
    apply Hdigits. by apply list_elem_of_In. }
  destruct (Nat.ltb_spec 0 (String.length s)) as [_|H0].
  2: { destruct s; [done|simpl in H0; lia]. }
  destruct (Nat.ltb_spec (String.length s) 19) as [_|]; [|lia].
  cbn [andb]. unfold strconv.decimal.
  pose proof (Atoi_loop_digits (strconv.bytes s) 0 Hall) as Hloop.
  pose proof (decimal_from_lt (strconv.bytes s) 0 Hall) as Hlt.
  rewrite length_bytes in Hlt.
  assert (10 ^ N.of_nat (String.length s) ≤ 10 ^ 18) as Hpow
    by (apply N.pow_le_mono_r; lia).
  change (2 ^ 63) with 9223372036854775808 in Hloop.
  change (10 ^ 18) with 1000000000000000000 in Hpow.
  change (Z.of_N 0) with 0%Z in Hloop.
  destruct (strconv.bytes s) as [|c cs] eqn:Hbytes.
  { destruct s; [done|discriminate Hbytes]. }
  pose proof Hall as [Hc%isDigit_spec _]%Forall_cons.
  destruct (N.eqb_spec c 45); [lia|]. destruct (N.eqb_spec c 43); [lia|].
  cbn [orb andb]. rewrite Hloop by lia. done.
Qed.

End Atoi.

(** ** The test of an interval *)

Lemma interval_rejected startTime endTime :
  After startTime endTime || Equal startTime endTime = true
  ↔ endTime ≤ startTime.
Proof.
  unfold After, Equal.
  rewrite orb_true_iff, Z.ltb_lt, Z.eqb_eq. lia.
Qed.

Lemma interval_accepted startTime endTime :
  After startTime endTime || Equal startTime endTime = false
  ↔ startTime < endTime.
Proof.
  rewrite <- not_true_iff_false, interval_rejected. lia.
Qed.

(** ** The handlers *)

Section Handlers.

Context {DB : Type}.
Context {eventStore : store.EventRepository.t DB}.
Context {timeSlotStore : store.TimeSlotRepository.t DB}.
Context {userStore : store.UserRepository.t DB}.
Context {availabilityStore : store.UserAvailabilityRepository.t DB}.
Context (sort_Slice : GoSort.slice_sorter).
Context {eventRepo : EventRepository}.
Context {timeSlotRepo : TimeSlotRepository}.
Context {availabilityRepo : UserAvailabilityRepository}.

(** X16. An identifier of the path that is not a decimal number below 2^32 is
    answered with the status 400 by every handler that reads one, and the
    database is left as it is. Of the two identifiers of an availability,
    the user's is read first. *)
Theorem malformed_id_is_bad_request
    (param query : string → string) (db : DB)
    (boundEvent : result Event.t) (boundTimeSlot : result TimeSlot.t)
    (boundUser : result User.t) (boundAvailability : result UserAvailability.t) :
  let ctx {A} (bound : result A) : gin.Context A :=
    {| gin.Param := param; gin.Query := query; gin.ShouldBindJSON := bound |} in
  let badRequest {A} (message : string) : gin.response A :=
    gin.JSON http.StatusBadRequest (gin.H "error" message) in
  (strconv.isUint32 (param "id") = false →
   EventController.GetEvent (ctx boundEvent) db
   = badRequest "Invalid event ID format"
   ∧ EventController.UpdateEvent (ctx boundEvent) db
     = (badRequest "Invalid event ID format", db)
   ∧ EventController.DeleteEvent (ctx boundEvent) db
     = (badRequest "Invalid event ID format", db)
   ∧ TimeSlotController.CreateTimeSlot (ctx boundTimeSlot) db
     = (badRequest "Invalid event ID format", db)
   ∧ TimeSlotController.GetTimeSlotsByEvent (ctx boundTimeSlot) db
     = badRequest "Invalid event ID format"
   ∧ UserController.GetUser (ctx boundUser) db
     = badRequest "Invalid user ID format"
   ∧ UserController.UpdateUser (ctx boundUser) db
     = (badRequest "Invalid user ID format", db)
   ∧ UserController.DeleteUser (ctx boundUser) db
     = (badRequest "Invalid user ID format", db)
   ∧ AvailabilityController.CreateAvailability (ctx boundAvailability) db
     = (badRequest "Invalid user ID format", db)
   ∧ AvailabilityController.GetUserAvailability (ctx boundAvailability) db
     = badRequest "Invalid user ID format"
   ∧ RecommendationController.GetRecommendations sort_Slice (ctx boundEvent)
     = badRequest "Invalid event ID format")
  ∧ (strconv.isUint32 (param "id") = true →
     strconv.isUint32 (param "eventId") = false →
     AvailabilityController.CreateAvailability (ctx boundAvailability) db
     = (badRequest "Invalid event ID format", db)
     ∧ AvailabilityController.GetUserAvailability (ctx boundAvailability) db
       = badRequest "Invalid event ID format")
  ∧ (strconv.isUint32 (param "slotId") = false →
     TimeSlotController.UpdateTimeSlot (ctx boundTimeSlot) db
     = (badRequest "Invalid time slot ID format", db)
     ∧ TimeSlotController.DeleteTimeSlot (ctx boundTimeSlot) db
       = (badRequest "Invalid time slot ID format", db))
  ∧ (strconv.isUint32 (param "availId") = false →
     AvailabilityController.UpdateAvailability (ctx boundAvailability) db
     = (badRequest "Invalid availability ID format", db)
     ∧ AvailabilityController.DeleteAvailability (ctx boundAvailability) db
       = (badRequest "Invalid availability ID format", db)).
Proof.
  cbv zeta. split; [|split; [|split]].
  - intros Hid.
    unfold EventController.GetEvent, EventController.UpdateEvent,
      EventController.DeleteEvent, TimeSlotController.CreateTimeSlot,
      TimeSlotController.GetTimeSlotsByEvent, UserController.GetUser,
      UserController.UpdateUser, UserController.DeleteUser,
      AvailabilityController.CreateAvailability,
      AvailabilityController.GetUserAvailability,
      RecommendationController.GetRecommendations.
    cbn [gin.Param].
    destruct (ParseUint_invalid _ Hid) as (n & err & ->). by repeat split.
  - intros Hid HeventId.
    unfold AvailabilityController.CreateAvailability,
      AvailabilityController.GetUserAvailability.
    cbn [gin.Param]. rewrite (ParseUint_valid _ Hid).
    destruct (ParseUint_invalid _ HeventId) as (n & err & ->). by split.
  - intros Hid.
    unfold TimeSlotController.UpdateTimeSlot, TimeSlotController.DeleteTimeSlot.
    cbn [gin.Param].
    destruct (ParseUint_invalid _ Hid) as (n & err & ->). by split.
  - intros Hid.
    unfold AvailabilityController.UpdateAvailability,
      AvailabilityController.DeleteAvailability.
    cbn [gin.Param].
    destruct (ParseUint_invalid _ Hid) as (n & err & ->). by split.
Qed.


(** X17. An event reaches the repository through [CreateEvent] or [UpdateEvent]
    only with a title that is not empty and a duration above zero. The
    service rejects every other event and leaves the database as it is; so
    does the handler, with the status 400, before it calls the service. The
    service rejects no event that the handler lets through: a status 500
    carries an error of the repository. *)
Theorem event_writes_are_validated (ctx : gin.Context Event.t) (db : DB) event :
  gin.ShouldBindJSON ctx = Ok event →
  (Event.Title event = "" ∨ Event.DurationMinutes event ≤ 0 →
   (∃ err, EventService.CreateEvent event db = (Err err, db))
   ∧ (∀ id, ∃ err, EventService.UpdateEvent id event db = (Some err, db))
   ∧ gin.code (EventController.CreateEvent ctx db).1 = http.StatusBadRequest
   ∧ (EventController.CreateEvent ctx db).2 = db
   ∧ gin.code (EventController.UpdateEvent ctx db).1 = http.StatusBadRequest
   ∧ (EventController.UpdateEvent ctx db).2 = db)
  ∧ (Event.Title event ≠ "" → 0 < Event.DurationMinutes event →
     EventService.CreateEvent event db = store.EventRepository.Create event db
     ∧ (∀ id, EventService.UpdateEvent id event db
              = store.EventRepository.Update id event db)
     ∧ EventController.CreateEvent ctx db
       = match store.EventRepository.Create event db with
         | (Ok stored, db') =>
             (gin.JSON http.StatusCreated (gin.value stored), db')
         | (Err err, db') =>
             (gin.JSON http.StatusInternalServerError
                (gin.H "error" ("Error creating event: " +:+ err)), db')
         end
     ∧ (strconv.isUint32 (gin.Param ctx "id") = true →
        EventController.UpdateEvent ctx db
        = match store.EventRepository.Update
                  (strconv.decimal (strconv.bytes (gin.Param ctx "id"))) event db with
          | (None, db') =>
              (gin.JSON http.StatusOK
                 (gin.H "message" "Event updated successfully"), db')
          | (Some err, db') =>
              (gin.JSON http.StatusInternalServerError
                 (gin.H "error" ("Error updating event: " +:+ err)), db')
          end)).
Proof.
  intros Hbound. split.
  - intros Hinvalid.
    assert (String.eqb (Event.Title event) "" = true
            ∨ String.eqb (Event.Title event) "" = false
              ∧ (Event.DurationMinutes event <=? 0) = true) as Hcase.
    { destruct (String.eqb_spec (Event.Title event) ""); [by left|right].
      split; [done|]. apply Z.leb_le. by destruct Hinvalid. }
    unfold EventController.CreateEvent, EventController.UpdateEvent,
      EventService.CreateEvent, EventService.UpdateEvent.
    rewrite Hbound.
    destruct (strconv.ParseUint (gin.Param ctx "id") 32) as [id [err|]];
      destruct Hcase as [->|[-> ->]]; split_and!; try done; eauto.
  - intros Htitle Hduration.
    assert (String.eqb (Event.Title event) "" = false) as Et
      by (by apply String.eqb_neq).
    assert ((Event.DurationMinutes event <=? 0) = false) as Ed
      by (apply Z.leb_gt; lia).
    unfold EventController.CreateEvent, EventController.UpdateEvent,
      EventService.CreateEvent, EventService.UpdateEvent.
    rewrite Hbound, Et, Ed. split; [done|]. split; [done|]. split.
    + by destruct (store.EventRepository.Create event db) as [[stored|err] db'].
    + intros Hvalid. rewrite (ParseUint_valid _ Hvalid).
      by destruct (store.EventRepository.Update _ event db) as [[err|] db'].
Qed.

(** X18. A time slot whose end is not after its start is not stored: the
    service rejects it, and the handlers of [CreateTimeSlot] and
    [UpdateTimeSlot] answer with the status 500 and the message of the
    service, the database left as it is. Any other time slot goes to the
    repository, on creation under the event identifier of the path,
    whatever the body of the request says. *)
Theorem time_slot_writes_are_validated
    (ctx : gin.Context TimeSlot.t) (db : DB) timeSlot :
  gin.ShouldBindJSON ctx = Ok timeSlot →
  (TimeSlot.EndTime timeSlot ≤ TimeSlot.StartTime timeSlot →
   TimeSlotService.CreateTimeSlot timeSlot db
   = (Err "start time must be before end time", db)
   ∧ (∀ id, TimeSlotService.UpdateTimeSlot id timeSlot db
            = (Some "start time must be before end time", db))
   ∧ (strconv.isUint32 (gin.Param ctx "id") = true →
    TimeSlotController.CreateTimeSlot ctx db
    = (gin.JSON http.StatusInternalServerError
         (gin.H "error"
            "Error creating time slot: start time must be before end time"),
       db))
   ∧ (strconv.isUint32 (gin.Param ctx "slotId") = true →
      TimeSlotController.UpdateTimeSlot ctx db
      = (gin.JSON http.StatusInternalServerError
           (gin.H "error"
              "Error updating time slot: start time must be before end time"),
         db)))
  ∧ (TimeSlot.StartTime timeSlot < TimeSlot.EndTime timeSlot →
     TimeSlotService.CreateTimeSlot timeSlot db
     = store.TimeSlotRepository.Create timeSlot db
     ∧ (∀ id, TimeSlotService.UpdateTimeSlot id timeSlot db
              = store.TimeSlotRepository.Update id timeSlot db)
     ∧ (strconv.isUint32 (gin.Param ctx "id") = true →
      TimeSlotController.CreateTimeSlot ctx db
      = match store.TimeSlotRepository.Create
                (TimeSlotController.withEventID timeSlot
                   (strconv.decimal (strconv.bytes (gin.Param ctx "id")))) db with
        | (Ok stored, db') =>
            (gin.JSON http.StatusCreated (gin.value stored), db')
        | (Err err, db') =>
            (gin.JSON http.StatusInternalServerError
               (gin.H "error" ("Error creating time slot: " +:+ err)), db')
        end)
     ∧ (strconv.isUint32 (gin.Param ctx "slotId") = true →
        TimeSlotController.UpdateTimeSlot ctx db
        = match store.TimeSlotRepository.Update
                  (strconv.decimal (strconv.bytes (gin.Param ctx "slotId")))
                  timeSlot db with
          | (None, db') =>
              (gin.JSON http.StatusOK
                 (gin.H "message" "Time slot updated successfully"), db')
          | (Some err, db') =>
              (gin.JSON http.StatusInternalServerError
                 (gin.H "error" ("Error updating time slot: " +:+ err)), db')
          end)).
Proof.
  intros Hbound.
  unfold TimeSlotController.CreateTimeSlot, TimeSlotController.UpdateTimeSlot,
    TimeSlotService.CreateTimeSlot, TimeSlotService.UpdateTimeSlot.
  rewrite Hbound. cbn [TimeSlotController.withEventID TimeSlot.StartTime
                       TimeSlot.EndTime].
  split.
  - intros Hinterval%interval_rejected. rewrite Hinterval.
    split; [done|]. split; [done|].
    split; intros Hvalid; by rewrite (ParseUint_valid _ Hvalid).
  - intros Hinterval%interval_accepted. rewrite Hinterval.
    split; [done|]. split; [done|].
    split; intros Hvalid; rewrite (ParseUint_valid _ Hvalid).
    + by destruct (store.TimeSlotRepository.Create _ db) as [[stored|err] db'].
    + by destruct (store.TimeSlotRepository.Update _ timeSlot db) as [[err|] db'].
Qed.

(** X19. An availability whose end is not after its start is not stored: the
    service rejects it, and the handlers of [CreateAvailability] and
    [UpdateAvailability] answer with the status 500 and the message of the
    service, the database left as it is. Any other availability goes to the
    repository, on creation under the user and event identifiers of the
    path. *)
Theorem availability_writes_are_validated
    (ctx : gin.Context UserAvailability.t) (db : DB) availability :
  gin.ShouldBindJSON ctx = Ok availability →
  (UserAvailability.EndTime availability
     ≤ UserAvailability.StartTime availability →
   AvailabilityService.CreateAvailability availability db
   = (Err "start time must be before end time", db)
   ∧ (∀ id, AvailabilityService.UpdateAvailability id availability db
            = (Some "start time must be before end time", db))
   ∧ (strconv.isUint32 (gin.Param ctx "id") = true →
    strconv.isUint32 (gin.Param ctx "eventId") = true →
    AvailabilityController.CreateAvailability ctx db
    = (gin.JSON http.StatusInternalServerError
         (gin.H "error"
            "Error creating availability: start time must be before end time"),
       db))
   ∧ (strconv.isUint32 (gin.Param ctx "availId") = true →
      AvailabilityController.UpdateAvailability ctx db
      = (gin.JSON http.StatusInternalServerError
           (gin.H "error"
              "Error updating availability: start time must be before end time"),
         db)))
  ∧ (UserAvailability.StartTime availability
       < UserAvailability.EndTime availability →
     AvailabilityService.CreateAvailability availability db
     = store.UserAvailabilityRepository.Create availability db
     ∧ (∀ id, AvailabilityService.UpdateAvailability id availability db
              = store.UserAvailabilityRepository.Update id availability db)
     ∧ (strconv.isUint32 (gin.Param ctx "id") = true →
      strconv.isUint32 (gin.Param ctx "eventId") = true →
      AvailabilityController.CreateAvailability ctx db
      = match store.UserAvailabilityRepository.Create
                (AvailabilityController.withIDs availability
                   (strconv.decimal (strconv.bytes (gin.Param ctx "id")))
                   (strconv.decimal (strconv.bytes (gin.Param ctx "eventId"))))
                db with
        | (Ok stored, db') =>
            (gin.JSON http.StatusCreated (gin.value stored), db')
        | (Err err, db') =>
            (gin.JSON http.StatusInternalServerError
               (gin.H "error" ("Error creating availability: " +:+ err)), db')
        end)
     ∧ (strconv.isUint32 (gin.Param ctx "availId") = true →
        AvailabilityController.UpdateAvailability ctx db
        = match store.UserAvailabilityRepository.Update
                  (strconv.decimal (strconv.bytes (gin.Param ctx "availId")))
                  availability db with
          | (None, db') =>
              (gin.JSON http.StatusOK
                 (gin.H "message" "Availability updated successfully"), db')
          | (Some err, db') =>
              (gin.JSON http.StatusInternalServerError
                 (gin.H "error" ("Error updating availability: " +:+ err)), db')
          end)).
Proof.
  intros Hbound.
  unfold AvailabilityController.CreateAvailability,
    AvailabilityController.UpdateAvailability,
    AvailabilityService.CreateAvailability,
    AvailabilityService.UpdateAvailability.
  rewrite Hbound. cbn [AvailabilityController.withIDs UserAvailability.StartTime
                       UserAvailability.EndTime].
  split.
  - intros Hinterval%interval_rejected. rewrite Hinterval.
    split; [done|]. split; [done|]. split.
    + intros Hid HeventId.
      by rewrite (ParseUint_valid _ Hid), (ParseUint_valid _ HeventId).
    + intros Hid. by rewrite (ParseUint_valid _ Hid).
  - intros Hinterval%interval_accepted. rewrite Hinterval.
    split; [done|]. split; [done|]. split.
    + intros Hid HeventId.
      rewrite (ParseUint_valid _ Hid), (ParseUint_valid _ HeventId).
      by destruct (store.UserAvailabilityRepository.Create _ db)
        as [[stored|err] db'].
    + intros Hid. rewrite (ParseUint_valid _ Hid).
      by destruct (store.UserAvailabilityRepository.Update _ availability db)
        as [[err|] db'].
Qed.

(** X20. The handler of the recommendations answers with the status 200 and the
    result of the engine exactly when the identifier of the path is a
    decimal number below 2^32 and the four fetches of the engine succeed. A
    failure of the engine, that of the event's lookup among them, is
    answered with the status 500 and its error, never with 404. *)
Theorem recommendations_response {A} (ctx : gin.Context A) :
  let resp := RecommendationController.GetRecommendations sort_Slice ctx in
  let eventID := strconv.decimal (strconv.bytes (gin.Param ctx "id")) in
  (strconv.isUint32 (gin.Param ctx "id") = true →
   (∀ err, FindByID eventID = Err err →
           resp = gin.JSON http.StatusInternalServerError
                    (gin.H "error" ("Error generating recommendations: " +:+ err)))
   ∧ (∀ err, GetRecommendations sort_Slice eventID = Err err →
             resp = gin.JSON http.StatusInternalServerError
                      (gin.H "error" ("Error generating recommendations: " +:+ err)))
   ∧ (∀ out, GetRecommendations sort_Slice eventID = Ok out →
             resp = gin.JSON http.StatusOK (gin.value out)))
  ∧ gin.code resp ≠ http.StatusNotFound
  ∧ (gin.code resp = http.StatusOK
     ↔ strconv.isUint32 (gin.Param ctx "id") = true
       ∧ ∃ event timeSlots allAvailabilities users,
           FindByID eventID = Ok event
           ∧ FindByEventID eventID = Ok timeSlots
           ∧ FindByEvent eventID = Ok allAvailabilities
           ∧ FindAllUsersByEvent eventID = Ok users
           ∧ gin.body resp
             = gin.value
                 (sort_Slice _ byPercentage
                    (produced (buildAvailabilityMap allAvailabilities) users
                       (Event.DurationMinutes event) timeSlots))).
Proof.
  cbv zeta. unfold RecommendationController.GetRecommendations.
  destruct (strconv.isUint32 (gin.Param ctx "id")) eqn:Hid.
  - rewrite (ParseUint_valid _ Hid).
    set (eventID := strconv.decimal (strconv.bytes (gin.Param ctx "id"))).
    split; [intros _; split; [|split]|split].
    + intros err Herr. unfold GetRecommendations. by rewrite Herr.
    + by intros err ->.
    + by intros out ->.
    + by destruct (GetRecommendations sort_Slice eventID).
    + destruct (GetRecommendations sort_Slice eventID) as [out|err] eqn:Hout.
      * split; [intros _|done]. split; [done|].
        apply GetRecommendations_Ok_inv in Hout
          as (event & timeSlots & allAvailabilities & users
              & H1 & H2 & H3 & H4 & ->).
        by exists event, timeSlots, allAvailabilities, users.
      * split; [done|]. intros (_ & event & timeSlots & allAvailabilities & users
                                 & H1 & H2 & H3 & H4 & _).
        rewrite (GetRecommendations_fetched _ _ _ _ _ _ H1 H2 H3 H4) in Hout.
        done.
  - destruct (ParseUint_invalid _ Hid) as (n & err & ->).
    split; [done|]. split; [done|]. split; [done|]. by intros [? _].
Qed.


(** Closes a goal on the response of a handler by the cases of its run. *)
Ltac handler_cases :=
  cbv zeta;
  unfold EventController.CreateEvent, EventController.GetEvent,
    EventController.GetAllEvents,
    EventController.UpdateEvent, EventController.DeleteEvent,
    TimeSlotController.CreateTimeSlot, TimeSlotController.GetTimeSlotsByEvent,
    TimeSlotController.UpdateTimeSlot, TimeSlotController.DeleteTimeSlot,
    UserController.CreateUser, UserController.GetUser, UserController.GetAllUsers,
    UserController.UpdateUser, UserController.DeleteUser,
    AvailabilityController.CreateAvailability,
    AvailabilityController.GetUserAvailability,
    AvailabilityController.UpdateAvailability,
    AvailabilityController.DeleteAvailability,
    RecommendationController.GetRecommendations;
  repeat case_match; cbn [fst snd gin.code].

(** X21. The statuses of the nineteen handlers. A handler answers with 201,
    where it creates, or with 200, with 400, or with 500; the lookups of an
    event and of a user answer with 404 where the others answer with 500,
    and no other handler answers with 404. The list of the events is given
    for every method [GetAllEventsWithPagination] of the service. *)
Theorem handler_statuses
    (param query : string → string) (db : DB)
    (boundEvent : result Event.t) (boundTimeSlot : result TimeSlot.t)
    (boundUser : result User.t) (boundAvailability : result UserAvailability.t)
    (GetAllEventsWithPagination : Z → Z → DB → result (list Event.t)) :
  let ctx {A} (bound : result A) : gin.Context A :=
    {| gin.Param := param; gin.Query := query; gin.ShouldBindJSON := bound |} in
  let created := [http.StatusCreated; http.StatusBadRequest;
                  http.StatusInternalServerError] in
  let done := [http.StatusOK; http.StatusBadRequest;
               http.StatusInternalServerError] in
  let found := [http.StatusOK; http.StatusBadRequest; http.StatusNotFound] in
  gin.code (EventController.CreateEvent (ctx boundEvent) db).1 ∈ created
  ∧ gin.code (EventController.GetEvent (ctx boundEvent) db) ∈ found
  ∧ gin.code (EventController.GetAllEvents GetAllEventsWithPagination
                (ctx boundEvent) db) ∈ done
  ∧ gin.code (EventController.UpdateEvent (ctx boundEvent) db).1 ∈ done
  ∧ gin.code (EventController.DeleteEvent (ctx boundEvent) db).1 ∈ done
  ∧ gin.code (TimeSlotController.CreateTimeSlot (ctx boundTimeSlot) db).1 ∈ created
  ∧ gin.code (TimeSlotController.GetTimeSlotsByEvent (ctx boundTimeSlot) db) ∈ done
  ∧ gin.code (TimeSlotController.UpdateTimeSlot (ctx boundTimeSlot) db).1 ∈ done
  ∧ gin.code (TimeSlotController.DeleteTimeSlot (ctx boundTimeSlot) db).1 ∈ done
  ∧ gin.code (UserController.CreateUser (ctx boundUser) db).1 ∈ created
  ∧ gin.code (UserController.GetUser (ctx boundUser) db) ∈ found
  ∧ gin.code (UserController.GetAllUsers (ctx boundUser) db)
      ∈ [http.StatusOK; http.StatusInternalServerError]
  ∧ gin.code (UserController.UpdateUser (ctx boundUser) db).1 ∈ done
  ∧ gin.code (UserController.DeleteUser (ctx boundUser) db).1 ∈ done
  ∧ gin.code (AvailabilityController.CreateAvailability
                (ctx boundAvailability) db).1 ∈ created
  ∧ gin.code (AvailabilityController.GetUserAvailability
                (ctx boundAvailability) db) ∈ done
  ∧ gin.code (AvailabilityController.UpdateAvailability
                (ctx boundAvailability) db).1 ∈ done
  ∧ gin.code (AvailabilityController.DeleteAvailability
                (ctx boundAvailability) db).1 ∈ done
  ∧ gin.code (RecommendationController.GetRecommendations sort_Slice
                (ctx boundEvent)) ∈ done.
Proof.
  cbv zeta. split_and!; handler_cases;
    first [ left | right; left | right; right; left ].
Qed.

(** X22. A handler that writes leaves the database as it is when it answers
    with the status 400. *)
Theorem bad_request_writes_nothing
    (param query : string → string) (db : DB)
    (boundEvent : result Event.t) (boundTimeSlot : result TimeSlot.t)
    (boundUser : result User.t) (boundAvailability : result UserAvailability.t) :
  let ctx {A} (bound : result A) : gin.Context A :=
    {| gin.Param := param; gin.Query := query; gin.ShouldBindJSON := bound |} in
  let untouched {A} (run : gin.response A * DB) : Prop :=
    gin.code run.1 = http.StatusBadRequest → run.2 = db in
  untouched (EventController.CreateEvent (ctx boundEvent) db)
  ∧ untouched (EventController.UpdateEvent (ctx boundEvent) db)
  ∧ untouched (EventController.DeleteEvent (ctx boundEvent) db)
  ∧ untouched (TimeSlotController.CreateTimeSlot (ctx boundTimeSlot) db)
  ∧ untouched (TimeSlotController.UpdateTimeSlot (ctx boundTimeSlot) db)
  ∧ untouched (TimeSlotController.DeleteTimeSlot (ctx boundTimeSlot) db)
  ∧ untouched (UserController.CreateUser (ctx boundUser) db)
  ∧ untouched (UserController.UpdateUser (ctx boundUser) db)
  ∧ untouched (UserController.DeleteUser (ctx boundUser) db)
  ∧ untouched (AvailabilityController.CreateAvailability (ctx boundAvailability) db)
  ∧ untouched (AvailabilityController.UpdateAvailability (ctx boundAvailability) db)
  ∧ untouched (AvailabilityController.DeleteAvailability (ctx boundAvailability) db).
Proof. cbv zeta. split_and!; handler_cases; done. Qed.

End Handlers.

(** ** The list of the events *)

(** X25. The page of the list of the events. The handler takes the limit
    and the offset from the query, 10 and 0 where the query has none: given
    as decimal numbers of at most 18 digits, with a limit above zero, they
    are those of its call of the service, of which it answers the events
    with the status 200 or the error with the status 500. A limit of zero
    is answered with the status 400, whatever the offset is. Every answer
    that is not a 400 is that of a call with a limit above zero and an
    offset that is not negative. *)
Theorem events_page_request {DB A} (ctx : gin.Context A) (db : DB)
    (GetAllEventsWithPagination : Z → Z → DB → result (list Event.t)) :
  let answer (limit offset : Z) : gin.response (list Event.t) :=
    match GetAllEventsWithPagination limit offset db with
    | Err err =>
        gin.JSON http.StatusInternalServerError
          (gin.H "error" ("Error fetching events: " +:+ err))
    | Ok events => gin.JSON http.StatusOK (gin.value events)
    end in
  let isNumber (s : string) : bool :=
    forallb strconv.isDigit (strconv.bytes s) && (String.length s <? 19)%nat in
  let number (s : string) (default : Z) : Z :=
    if String.eqb s "" then default
    else Z.of_N (strconv.decimal (strconv.bytes s)) in
  let limitStr := gin.Query ctx "limit" in
  let offsetStr := gin.Query ctx "offset" in
  let response :=
    EventController.GetAllEvents GetAllEventsWithPagination ctx db in
  (isNumber limitStr = true →
   number limitStr 10 = 0 →
   response
   = gin.JSON http.StatusBadRequest (gin.H "error" "Invalid limit value"))
  ∧ (isNumber limitStr = true →
     isNumber offsetStr = true →
     0 < number limitStr 10 →
     response = answer (number limitStr 10) (number offsetStr 0))
  ∧ (gin.code response ≠ http.StatusBadRequest →
     ∃ limit offset,
       0 < limit ∧ 0 ≤ offset ∧ response = answer limit offset).
Proof.
  cbv zeta. unfold EventController.GetAllEvents.
  assert (∀ s,
    forallb strconv.isDigit (strconv.bytes s) && (String.length s <? 19)%nat
      = true →
    String.eqb s "" = false →
    strconv.Atoi s = (Z.of_N (strconv.decimal (strconv.bytes s)), None))
    as Hatoi.
  { intros s [Hdigits Hlen%Nat.ltb_lt]%andb_true_iff Hne.
    by apply Atoi_decimal. }
  split; [|split].
  - intros Hlimit Hzero.
    destruct (String.eqb (gin.Query ctx "limit") "") eqn:Hne; [done|].
    cbn [negb]. rewrite (Hatoi _ Hlimit Hne), Hzero. done.
  - intros Hlimit Hoffset Hpos.
    destruct (String.eqb (gin.Query ctx "limit") "") eqn:Hne; cbn [negb].
    + destruct (String.eqb (gin.Query ctx "offset") "") eqn:Hne'; cbn [negb];
        [done|].
      rewrite (Hatoi _ Hoffset Hne'). cbn [orb].
      by destruct (Z.ltb_spec (Z.of_N (strconv.decimal
                     (strconv.bytes (gin.Query ctx "offset")))) 0); [lia|].
    + rewrite (Hatoi _ Hlimit Hne). cbn [orb].
      destruct (Z.leb_spec (Z.of_N (strconv.decimal
                  (strconv.bytes (gin.Query ctx "limit")))) 0); [lia|].
      destruct (String.eqb (gin.Query ctx "offset") "") eqn:Hne'; cbn [negb];
        [done|].
      rewrite (Hatoi _ Hoffset Hne'). cbn [orb].
      by destruct (Z.ltb_spec (Z.of_N (strconv.decimal
                     (strconv.bytes (gin.Query ctx "offset")))) 0); [lia|].
  - intros Hcode.
    repeat case_match; simplify_eq; cbn [gin.code] in Hcode; try done;
      repeat match goal with
             | H : _ || _ = false |- _ => apply orb_false_iff in H as [_ H]
             | H : (_ <=? _) = false |- _ => apply Z.leb_gt in H
             | H : (_ <? _) = false |- _ => apply Z.ltb_ge in H
             end;
      match goal with
      | H : GetAllEventsWithPagination ?limit ?offset db = _ |- _ =>
          exists limit, offset; rewrite H; split; [lia|split; [lia|done]]
      end.
Qed.

(** ** The further properties on the stores of the scenarios *)

Lemma viable_slot_recommended_witness :
  slot 1 1 (at_ 10 0) (at_ 12 0) ∈ slots1
  ∧ ∃ r, r ∈ [rec1; rec3]
      ∧ TimeSlotRecommendation.TimeSlot r = slot 1 1 (at_ 10 0) (at_ 12 0)
      ∧ (0 < length (TimeSlotRecommendation.MatchingUsers r))%nat.
Proof.
  split; [left|].
  apply (viable_slot_recommended GoSort.Slice GoSortCorrect.Slice_meets_spec
           1%N (event 1) slots1 availabilities1 [alice; bob] [rec1; rec3]
           (slot 1 1 (at_ 10 0) (at_ 12 0)) 2%nat alice
           (availability 1 1 1 (at_ 10 30) (at_ 11 30)));
    first [ by vm_compute | left ].
Defined.

Lemma percentage_bounds_witness :
  rec3 ∈ [rec1; rec3]
  ∧ (0 < TimeSlotRecommendation.MatchingPercentage rec3)%Q
  ∧ (TimeSlotRecommendation.MatchingPercentage rec3 <= 100)%Q.
Proof.
  split; [right; left|].
  apply (percentage_bounds GoSort.Slice GoSortCorrect.Slice_meets_spec
           1%N (event 1) slots1 availabilities1 [alice; bob] [rec1; rec3] rec3);
    first [ by vm_compute | right; left ].
Defined.

Lemma full_attendance_iff_witness :
  rec1 ∈ [rec1; rec3]
  ∧ Z.of_nat (length [alice; bob]) < 2 ^ 53
  ∧ ((TimeSlotRecommendation.MatchingPercentage rec1 == 100)%Q
     ↔ TimeSlotRecommendation.NonMatchingUsers rec1 = []).
Proof.
  split; [left|]. split; [by vm_compute|].
  apply (full_attendance_iff GoSort.Slice GoSortCorrect.Slice_meets_spec
           1%N (event 1) slots1 availabilities1 [alice; bob] [rec1; rec3] rec1);
    first [ by vm_compute | left ].
Defined.

Lemma user_without_availability_never_matches_witness :
  @GetRecommendations GoSort.Slice ScenarioDeleted.eventRepo
    ScenarioDeleted.timeSlotRepo ScenarioDeleted.availabilityRepo 5
  = Ok [ScenarioDeleted.rec5]
  ∧ (alice ∉ TimeSlotRecommendation.MatchingUsers ScenarioDeleted.rec5)
  ∧ alice ∈ TimeSlotRecommendation.NonMatchingUsers ScenarioDeleted.rec5.
Proof.
  split; [by vm_compute|].
  apply (@user_without_availability_never_matches GoSort.Slice
           ScenarioDeleted.eventRepo ScenarioDeleted.timeSlotRepo
           ScenarioDeleted.availabilityRepo GoSortCorrect.Slice_meets_spec
           5%N (event 5) [slot 1 5 (at_ 10 0) (at_ 12 0)]
           [availability 1 2 5 (at_ 10 0) (at_ 12 0)] [alice; bob]
           [ScenarioDeleted.rec5] ScenarioDeleted.rec5 alice);
    try (by vm_compute); try left.
  intros avail Havail. apply list_elem_of_singleton in Havail as ->. by vm_compute.
Defined.

Lemma no_availability_no_recommendation_witness :
  @FindAllUsersByEvent ScenarioDeleted.availabilityRepo 6 = Ok [alice; bob]
  ∧ @GetRecommendations GoSort.Slice ScenarioDeleted.eventRepo
      ScenarioDeleted.timeSlotRepo ScenarioDeleted.availabilityRepo 6
    = Ok [].
Proof.
  split; [done|].
  destruct (@GetRecommendations GoSort.Slice ScenarioDeleted.eventRepo
              ScenarioDeleted.timeSlotRepo ScenarioDeleted.availabilityRepo 6)
    as [out|err] eqn:Hout; [|by vm_compute in Hout].
  f_equal.
  apply (@no_availability_no_recommendation GoSort.Slice
           ScenarioDeleted.eventRepo ScenarioDeleted.timeSlotRepo
           ScenarioDeleted.availabilityRepo GoSortCorrect.Slice_meets_spec
           6%N (event 6) [slot 1 6 (at_ 10 0) (at_ 12 0)] [alice; bob] out);
    first [ by vm_compute | done ].
Defined.

Lemma earlier_is_not_lower_witness :
  GetRecommendations GoSort.Slice 1 = Ok [rec1; rec3]
  ∧ (TimeSlotRecommendation.MatchingPercentage rec3
     <= TimeSlotRecommendation.MatchingPercentage rec1)%Q.
Proof.
  split; [by vm_compute|].
  apply (earlier_is_not_lower GoSort.Slice GoSortCorrect.Slice_meets_spec
           1%N [rec1; rec3] 0%nat 1%nat rec1 rec3);
    first [ by vm_compute | lia ].
Defined.

Lemma one_recommendation_per_slot_witness :
  GetRecommendations GoSort.Slice 1 = Ok [rec1; rec3]
  ∧ TimeSlotRecommendation.TimeSlot <$> [rec1; rec3]
      ≡ₚ filter (λ slot, is_Some (recommendSlot
                                    (buildAvailabilityMap availabilities1)
                                    [alice; bob] (Event.DurationMinutes (event 1))
                                    slot))
           slots1
  ∧ (length [rec1; rec3] ≤ length slots1)%nat.
Proof.
  split; [by vm_compute|].
  apply (one_recommendation_per_slot GoSort.Slice GoSortCorrect.Slice_meets_spec
           1%N (event 1) slots1 availabilities1 [alice; bob] [rec1; rec3]);
    by vm_compute.
Defined.

Lemma start_options_ascend_witness :
  rec1 ∈ [rec1; rec3]
  ∧ StronglySorted Z.lt (TimeSlotRecommendation.StartOptions rec1)
  ∧ ∃ t rest,
      TimeSlotRecommendation.StartOptions rec1 = t :: rest
      ∧ TimeSlotRecommendation.MatchingUsers rec1
        = matchingUsersAt (buildAvailabilityMap availabilities1) [alice; bob]
            (Event.DurationMinutes (event 1)) t
      ∧ TimeSlotRecommendation.NonMatchingUsers rec1
        = nonMatchingUsersAt (buildAvailabilityMap availabilities1) [alice; bob]
            (Event.DurationMinutes (event 1)) t.
Proof.
  split; [left|].
  apply (start_options_ascend GoSort.Slice GoSortCorrect.Slice_meets_spec
           1%N (event 1) slots1 availabilities1 [alice; bob] [rec1; rec3] rec1);
    first [ by vm_compute | left ].
Defined.

Lemma users_keep_order_witness :
  rec3 ∈ [rec1; rec3]
  ∧ TimeSlotRecommendation.MatchingUsers rec3 `sublist_of` [alice; bob]
  ∧ TimeSlotRecommendation.NonMatchingUsers rec3 `sublist_of` [alice; bob].
Proof.
  split; [right; left|].
  apply (users_keep_order GoSort.Slice GoSortCorrect.Slice_meets_spec
           1%N (event 1) slots1 availabilities1 [alice; bob] [rec1; rec3] rec3);
    first [ by vm_compute | right; left ].
Defined.

Lemma availability_order_irrelevant_witness :
  GetRecommendations GoSort.Slice 1
  = Ok (GoSort.Slice _ byPercentage
          (produced (buildAvailabilityMap (reverse availabilities1)) [alice; bob]
             (Event.DurationMinutes (event 1)) slots1)).
Proof.
  apply (availability_order_irrelevant GoSort.Slice
           1%N (event 1) slots1 availabilities1 [alice; bob]
           (reverse availabilities1)); try (by vm_compute).
  intros avail user _ _. by rewrite elem_of_reverse.
Defined.

Lemma more_availability_never_hurts_witness :
  recommendSlot (buildAvailabilityMap availabilities1) [alice; bob] 60
    (slot 3 1 (at_ 16 0) (at_ 17 0)) = Some rec3
  ∧ ∃ r',
      recommendSlot
        (buildAvailabilityMap
           (availabilities1 ++ [availability 9 1 1 (at_ 16 0) (at_ 17 0)]))
        [alice; bob] 60 (slot 3 1 (at_ 16 0) (at_ 17 0)) = Some r'
      ∧ (length (TimeSlotRecommendation.MatchingUsers rec3)
         ≤ length (TimeSlotRecommendation.MatchingUsers r'))%nat
      ∧ (TimeSlotRecommendation.MatchingPercentage rec3
         <= TimeSlotRecommendation.MatchingPercentage r')%Q.
Proof.
  split; [by vm_compute|].
  apply (more_availability_never_hurts availabilities1
           (availabilities1 ++ [availability 9 1 1 (at_ 16 0) (at_ 17 0)])
           [alice; bob] 60 (slot 3 1 (at_ 16 0) (at_ 17 0)) rec3);
    [|by vm_compute].
  intros avail Havail. apply elem_of_app. by left.
Defined.

Lemma walk_visits_grid_witness :
  walkSlot (buildAvailabilityMap availabilities1) [alice; bob] 60
    (slot 1 1 (at_ 10 0) (at_ 12 0))
  = foldl (visit (buildAvailabilityMap availabilities1) [alice; bob] 60) noBest
      [at_ 10 0; at_ 10 15; at_ 10 30; at_ 10 45; at_ 11 0]
  ∧ walkSlot (buildAvailabilityMap availabilities1) [alice; bob] 60
      (slot 3 1 (at_ 16 0) (at_ 17 0))
    = visit (buildAvailabilityMap availabilities1) [alice; bob] 60 noBest
        (at_ 16 0).
Proof.
  split.
  - rewrite (proj1 (walk_visits_grid (buildAvailabilityMap availabilities1)
                      [alice; bob] 60 (slot 1 1 (at_ 10 0) (at_ 12 0))
                      ltac:(by vm_compute) ltac:(by vm_compute))).
    by vm_compute.
  - apply (walk_visits_grid (buildAvailabilityMap availabilities1)
             [alice; bob] 60 (slot 3 1 (at_ 16 0) (at_ 17 0)));
      by vm_compute.
Defined.

Lemma library_sort_sorts_witness :
  GoSort.Slice _ byPercentage [rec3; rec1] ≡ₚ [rec3; rec1]
  ∧ GoSort.IsSorted byPercentage (GoSort.Slice _ byPercentage [rec3; rec1]).
Proof. apply (library_sort_sorts byPercentage [rec3; rec1] byPercentage_ok). Defined.

Lemma slot_order_irrelevant_witness :
  GoSort.Slice _ byPercentage
    (produced (buildAvailabilityMap availabilities1) [alice; bob]
       (Event.DurationMinutes (event 1)) (reverse slots1))
  ≡ₚ [rec1; rec3].
Proof.
  apply (slot_order_irrelevant GoSort.Slice GoSortCorrect.Slice_meets_spec
           1%N (event 1) slots1 availabilities1 [alice; bob] [rec1; rec3]
           (reverse slots1)); try (by vm_compute).
  apply reverse_Permutation.
Defined.

Lemma user_order_irrelevant_witness :
  ∃ r',
    recommendSlot (buildAvailabilityMap availabilities1) [bob; alice] 60
      (slot 1 1 (at_ 10 0) (at_ 12 0)) = Some r'
    ∧ TimeSlotRecommendation.TimeSlot r' = TimeSlotRecommendation.TimeSlot rec1
    ∧ TimeSlotRecommendation.EventDuration r'
      = TimeSlotRecommendation.EventDuration rec1
    ∧ TimeSlotRecommendation.MatchingPercentage r'
      = TimeSlotRecommendation.MatchingPercentage rec1
    ∧ TimeSlotRecommendation.StartOptions r'
      = TimeSlotRecommendation.StartOptions rec1
    ∧ TimeSlotRecommendation.MatchingUsers r'
      ≡ₚ TimeSlotRecommendation.MatchingUsers rec1
    ∧ TimeSlotRecommendation.NonMatchingUsers r'
      ≡ₚ TimeSlotRecommendation.NonMatchingUsers rec1.
Proof.
  apply (user_order_irrelevant (buildAvailabilityMap availabilities1)
           [alice; bob] [bob; alice] 60 (slot 1 1 (at_ 10 0) (at_ 12 0)) rec1);
    [apply Permutation_swap|by vm_compute].
Defined.

(** ** The handlers on the database in memory *)

Lemma event_writes_are_validated_witness :
  EventController.CreateEvent (ScenarioStore.request [] (Ok (event 7)))
    ScenarioStore.empty
  = (gin.JSON http.StatusCreated (gin.value (event 1)),
     ScenarioStore.withEvents ScenarioStore.empty [event 1]).
Proof.
  destruct (event_writes_are_validated
              (ScenarioStore.request [] (Ok (event 7))) ScenarioStore.empty
              (event 7) eq_refl) as [_ Hvalid].
  destruct Hvalid as (_ & _ & -> & _); by vm_compute.
Defined.

Lemma time_slot_writes_are_validated_witness :
  TimeSlotController.CreateTimeSlot
    (ScenarioStore.request [("id", "1")] (Ok (slot 0 9 (at_ 10 0) (at_ 12 0))))
    ScenarioStore.empty
  = (gin.JSON http.StatusCreated (gin.value (slot 1 1 (at_ 10 0) (at_ 12 0))),
     ScenarioStore.withTimeSlots ScenarioStore.empty
       [slot 1 1 (at_ 10 0) (at_ 12 0)])
  ∧ TimeSlotController.CreateTimeSlot
      (ScenarioStore.request [("id", "1")] (Ok (slot 0 9 (at_ 12 0) (at_ 10 0))))
      ScenarioStore.empty
    = (gin.JSON http.StatusInternalServerError
         (gin.H "error"
            "Error creating time slot: start time must be before end time"),
       ScenarioStore.empty).
Proof.
  split.
  - destruct (time_slot_writes_are_validated
                (ScenarioStore.request [("id", "1")]
                   (Ok (slot 0 9 (at_ 10 0) (at_ 12 0))))
                ScenarioStore.empty (slot 0 9 (at_ 10 0) (at_ 12 0)) eq_refl)
      as [_ Hvalid].
    destruct Hvalid as (_ & _ & -> & _); by vm_compute.
  - destruct (time_slot_writes_are_validated
                (ScenarioStore.request [("id", "1")]
                   (Ok (slot 0 9 (at_ 12 0) (at_ 10 0))))
                ScenarioStore.empty (slot 0 9 (at_ 12 0) (at_ 10 0)) eq_refl)
      as [Hinvalid _].
    destruct Hinvalid as (_ & _ & -> & _); by vm_compute.
Defined.

Lemma availability_writes_are_validated_witness :
  AvailabilityController.CreateAvailability
    (ScenarioStore.request [("id", "2"); ("eventId", "1")]
       (Ok (availability 0 8 9 (at_ 10 0) (at_ 12 0))))
    ScenarioStore.empty
  = (gin.JSON http.StatusCreated
       (gin.value (availability 1 2 1 (at_ 10 0) (at_ 12 0))),
     ScenarioStore.withAvailabilities ScenarioStore.empty
       [availability 1 2 1 (at_ 10 0) (at_ 12 0)])
  ∧ AvailabilityController.CreateAvailability
      (ScenarioStore.request [("id", "2"); ("eventId", "1")]
         (Ok (availability 0 8 9 (at_ 10 0) (at_ 10 0))))
      ScenarioStore.empty
    = (gin.JSON http.StatusInternalServerError
         (gin.H "error"
            "Error creating availability: start time must be before end time"),
       ScenarioStore.empty).
Proof.
  split.
  - destruct (availability_writes_are_validated
                (ScenarioStore.request [("id", "2"); ("eventId", "1")]
                   (Ok (availability 0 8 9 (at_ 10 0) (at_ 12 0))))
                ScenarioStore.empty (availability 0 8 9 (at_ 10 0) (at_ 12 0))
                eq_refl) as [_ Hvalid].
    destruct Hvalid as (_ & _ & -> & _); by vm_compute.
  - destruct (availability_writes_are_validated
                (ScenarioStore.request [("id", "2"); ("eventId", "1")]
                   (Ok (availability 0 8 9 (at_ 10 0) (at_ 10 0))))
                ScenarioStore.empty (availability 0 8 9 (at_ 10 0) (at_ 10 0))
                eq_refl) as [Hinvalid _].
    destruct Hinvalid as (_ & _ & -> & _); by vm_compute.
Defined.
